(** * OpenGlProject: the cube viewer of [openGlProject.cpp]

    A shallow embedding of the program's global state, its input
    handling ([processInput]), its mouse callbacks ([mouse_callback],
    [mouse_button_callback]) and the control flow of [main], followed by
    the properties of the specification that concern them.

    The program computes with C++ [float] and [double].  The embedding is
    written once, over an interface [Arith] of the arithmetic the source
    uses, and is read at two instances:
    - [F32]: IEEE 754 binary32 and binary64 with round-to-nearest-even,
      built from the Standard Library's [SpecFloat]; the instance the
      compiled program runs on.  The cosine and sine of the C library are
      parameters of it ([Libm]);
    - [Exact]: the real numbers, the arithmetic the program approximates,
      used for the geometric properties that are stated in exact
      arithmetic.

    Properties of the binary32 values that involve rounding (the length
    of the front vector) rest on bounds of the rounding error of
    [SpecFloat]'s operations, proved in [Rounding_facts]. *)

From Stdlib Require Import ZArith QArith Reals Lra Lia Psatz List Bool String.
From Stdlib Require Import Floats.SpecFloat.
From Stdlib Require Import Machin RNsatz.
From stdpp Require Import base list.

Local Open Scope nat_scope.

(** ** GLFW: keys, buttons, actions *)

Inductive key :=
  | GLFW_KEY_W | GLFW_KEY_A | GLFW_KEY_S | GLFW_KEY_D
  | GLFW_KEY_0 | GLFW_KEY_1 | GLFW_KEY_2 | GLFW_KEY_3 | GLFW_KEY_4 | GLFW_KEY_5.

Inductive action := GLFW_RELEASE | GLFW_PRESS | GLFW_REPEAT.

Inductive mouse_button := GLFW_MOUSE_BUTTON_LEFT | GLFW_MOUSE_BUTTON_RIGHT | GLFW_MOUSE_BUTTON_MIDDLE.

Inductive cursor_mode := GLFW_CURSOR_NORMAL | GLFW_CURSOR_DISABLED.

#[global] Instance key_eq_dec : EqDecision key.
Proof. solve_decision. Defined.

#[global] Instance action_eq_dec : EqDecision action.
Proof. solve_decision. Defined.

#[global] Instance mouse_button_eq_dec : EqDecision mouse_button.
Proof. solve_decision. Defined.

#[global] Instance key_inhabited : Inhabited key := populate GLFW_KEY_W.

(** The keyboard as [glfwGetKey] reports it during one call of
    [processInput]: GLFW changes it only inside [glfwPollEvents]. *)
Definition keyboard := key -> action.

Definition glfwGetKey (window : keyboard) (k : key) : action := window k.

(** [glfwGetKey(window, k) == GLFW_PRESS] *)
Definition pressed (window : keyboard) (k : key) : bool :=
  bool_decide (glfwGetKey window k = GLFW_PRESS).

(** ** The arithmetic of the source *)

Class Arith := {
  float : Type;
  double : Type;
  (** a decimal literal with suffix [f] *)
  flit : Q -> float;
  fopp : float -> float;
  fadd : float -> float -> float;
  fsub : float -> float -> float;
  fmul : float -> float -> float;
  fdiv : float -> float -> float;
  (** [x < y] *)
  fltb : float -> float -> bool;
  fsqrt : float -> float;
  fcos : float -> float;
  fsin : float -> float;
  dsub : double -> double -> double;
  (** the implicit conversions between [float] and [double] *)
  to_float : double -> float;
  to_double : float -> double
}.

Section Program.
Context {A : Arith}.

(** [x > y] *)
Definition fgtb (x y : float) : bool := fltb y x.

(** ** GLM: [vec3] and the functions the program calls *)

Record vec3 := Vec3 { vx : float; vy : float; vz : float }.

Definition vadd (a b : vec3) : vec3 :=
  Vec3 (fadd (vx a) (vx b)) (fadd (vy a) (vy b)) (fadd (vz a) (vz b)).

Definition vsub (a b : vec3) : vec3 :=
  Vec3 (fsub (vx a) (vx b)) (fsub (vy a) (vy b)) (fsub (vz a) (vz b)).

(** [s * v] *)
Definition smul (s : float) (v : vec3) : vec3 :=
  Vec3 (fmul s (vx v)) (fmul s (vy v)) (fmul s (vz v)).

(** [v * s] *)
Definition vmuls (v : vec3) (s : float) : vec3 :=
  Vec3 (fmul (vx v) s) (fmul (vy v) s) (fmul (vz v) s).

(** [glm::dot]: the componentwise product, summed left to right. *)
Definition dot (a b : vec3) : float :=
  fadd (fadd (fmul (vx a) (vx b)) (fmul (vy a) (vy b))) (fmul (vz a) (vz b)).

(** [glm::cross] *)
Definition cross (a b : vec3) : vec3 :=
  Vec3 (fsub (fmul (vy a) (vz b)) (fmul (vy b) (vz a)))
       (fsub (fmul (vz a) (vx b)) (fmul (vz b) (vx a)))
       (fsub (fmul (vx a) (vy b)) (fmul (vx b) (vy a))).

(** [glm::inversesqrt] *)
Definition inversesqrt (x : float) : float := fdiv (flit 1) (fsqrt x).

(** [glm::normalize] *)
Definition normalize (v : vec3) : vec3 := vmuls v (inversesqrt (dot v v)).

(** [glm::length] *)
Definition vlength (v : vec3) : float := fsqrt (dot v v).

(** [glm::radians] *)
Definition radians (degrees : float) : float :=
  fmul degrees (flit 0.01745329251994329576923690768489).

(** ** The global variables *)

Definition SCR_WIDTH : Q := 800.
Definition SCR_HEIGHT : Q := 600.

(** Camera vectors. *)
Record Camera := {
  cameraPos : vec3;
  cameraFront : vec3;
  cameraUp : vec3
}.

(** Yaw and pitch for mouse movement. *)
Record Mouse := {
  yaw : float;
  pitch : float;
  lastX : float;
  lastY : float;
  firstMouse : bool;
  leftMousePressed : bool
}.

(** Time tracking. *)
Record Clock := {
  deltaTime : float;
  lastFrame : float
}.

(** Transformation flags; [keyStates] and [toggleStates] are [bool[6]]. *)
Record Toggles := {
  applyTranslation : bool;
  applyRotation : bool;
  applyScaling : bool;
  applyShearing : bool;
  applyReflection : bool;
  keyStates : list bool;
  toggleStates : list bool
}.

(** All globals of the program, with the cursor mode that
    [glfwSetInputMode] keeps in the window. *)
Record Globals := {
  camera : Camera;
  mouse : Mouse;
  clock : Clock;
  toggles : Toggles;
  cursor : cursor_mode
}.

Definition init : Globals := {|
  camera := {| cameraPos := Vec3 (flit 0.0) (flit 0.0) (flit 3.0);
               cameraFront := Vec3 (flit 0.0) (flit 0.0) (fopp (flit 1.0));
               cameraUp := Vec3 (flit 0.0) (flit 1.0) (flit 0.0) |};
  mouse := {| yaw := fopp (flit 90.0);
              pitch := flit 0.0;
              lastX := fdiv (flit SCR_WIDTH) (flit 2.0);
              lastY := fdiv (flit SCR_HEIGHT) (flit 2.0);
              firstMouse := true;
              leftMousePressed := false |};
  clock := {| deltaTime := flit 0.0; lastFrame := flit 0.0 |};
  toggles := {| applyTranslation := false;
                applyRotation := false;
                applyScaling := false;
                applyShearing := false;
                applyReflection := false;
                keyStates := replicate 6 false;
                toggleStates := replicate 6 false |};
  cursor := GLFW_CURSOR_NORMAL
|}.

(** Field updates. *)

Definition set_cameraPos (p : vec3) (c : Camera) : Camera :=
  {| cameraPos := p; cameraFront := cameraFront c; cameraUp := cameraUp c |}.

Definition set_cameraFront (f : vec3) (c : Camera) : Camera :=
  {| cameraPos := cameraPos c; cameraFront := f; cameraUp := cameraUp c |}.

Definition set_last (x y : float) (m : Mouse) : Mouse :=
  {| yaw := yaw m; pitch := pitch m; lastX := x; lastY := y;
     firstMouse := firstMouse m; leftMousePressed := leftMousePressed m |}.

Definition set_firstMouse (b : bool) (m : Mouse) : Mouse :=
  {| yaw := yaw m; pitch := pitch m; lastX := lastX m; lastY := lastY m;
     firstMouse := b; leftMousePressed := leftMousePressed m |}.

Definition set_leftMousePressed (b : bool) (m : Mouse) : Mouse :=
  {| yaw := yaw m; pitch := pitch m; lastX := lastX m; lastY := lastY m;
     firstMouse := firstMouse m; leftMousePressed := b |}.

Definition set_yaw (v : float) (m : Mouse) : Mouse :=
  {| yaw := v; pitch := pitch m; lastX := lastX m; lastY := lastY m;
     firstMouse := firstMouse m; leftMousePressed := leftMousePressed m |}.

Definition set_pitch (v : float) (m : Mouse) : Mouse :=
  {| yaw := yaw m; pitch := v; lastX := lastX m; lastY := lastY m;
     firstMouse := firstMouse m; leftMousePressed := leftMousePressed m |}.

Definition set_keyStates (l : list bool) (t : Toggles) : Toggles :=
  {| applyTranslation := applyTranslation t; applyRotation := applyRotation t;
     applyScaling := applyScaling t; applyShearing := applyShearing t;
     applyReflection := applyReflection t;
     keyStates := l; toggleStates := toggleStates t |}.

Definition set_toggleStates (l : list bool) (t : Toggles) : Toggles :=
  {| applyTranslation := applyTranslation t; applyRotation := applyRotation t;
     applyScaling := applyScaling t; applyShearing := applyShearing t;
     applyReflection := applyReflection t;
     keyStates := keyStates t; toggleStates := l |}.

Definition with_camera (c : Camera) (g : Globals) : Globals :=
  {| camera := c; mouse := mouse g; clock := clock g; toggles := toggles g; cursor := cursor g |}.

Definition with_mouse (m : Mouse) (g : Globals) : Globals :=
  {| camera := camera g; mouse := m; clock := clock g; toggles := toggles g; cursor := cursor g |}.

Definition with_clock (c : Clock) (g : Globals) : Globals :=
  {| camera := camera g; mouse := mouse g; clock := c; toggles := toggles g; cursor := cursor g |}.

Definition with_toggles (t : Toggles) (g : Globals) : Globals :=
  {| camera := camera g; mouse := mouse g; clock := clock g; toggles := t; cursor := cursor g |}.

Definition with_cursor (c : cursor_mode) (g : Globals) : Globals :=
  {| camera := camera g; mouse := mouse g; clock := clock g; toggles := toggles g; cursor := c |}.

(** ** [processInput] *)

(** [int keys[5]] *)
Definition keys : list key :=
  [GLFW_KEY_1; GLFW_KEY_2; GLFW_KEY_3; GLFW_KEY_4; GLFW_KEY_5].

(** [bool* flags[5]]: the five pointers alias the five [apply...] globals;
    [get_flag i] reads [*flags[i]] and [set_flag i b] is [*flags[i] = b]. *)
Definition get_flag (i : nat) (t : Toggles) : bool :=
  match i with
  | 0 => applyTranslation t
  | 1 => applyRotation t
  | 2 => applyScaling t
  | 3 => applyShearing t
  | _ => applyReflection t
  end.

Definition set_flag (i : nat) (b : bool) (t : Toggles) : Toggles :=
  match i with
  | 0 => {| applyTranslation := b; applyRotation := applyRotation t;
            applyScaling := applyScaling t; applyShearing := applyShearing t;
            applyReflection := applyReflection t;
            keyStates := keyStates t; toggleStates := toggleStates t |}
  | 1 => {| applyTranslation := applyTranslation t; applyRotation := b;
            applyScaling := applyScaling t; applyShearing := applyShearing t;
            applyReflection := applyReflection t;
            keyStates := keyStates t; toggleStates := toggleStates t |}
  | 2 => {| applyTranslation := applyTranslation t; applyRotation := applyRotation t;
            applyScaling := b; applyShearing := applyShearing t;
            applyReflection := applyReflection t;
            keyStates := keyStates t; toggleStates := toggleStates t |}
  | 3 => {| applyTranslation := applyTranslation t; applyRotation := applyRotation t;
            applyScaling := applyScaling t; applyShearing := b;
            applyReflection := applyReflection t;
            keyStates := keyStates t; toggleStates := toggleStates t |}
  | _ => {| applyTranslation := applyTranslation t; applyRotation := applyRotation t;
            applyScaling := applyScaling t; applyShearing := applyShearing t;
            applyReflection := b;
            keyStates := keyStates t; toggleStates := toggleStates t |}
  end.

(** The four movement keys, in the order of the source. *)
Definition move_camera (window : keyboard) (cameraSpeed : float) (c : Camera) : Camera :=
  let c := if pressed window GLFW_KEY_W
           then set_cameraPos (vadd (cameraPos c) (smul cameraSpeed (cameraFront c))) c
           else c in
  let c := if pressed window GLFW_KEY_S
           then set_cameraPos (vsub (cameraPos c) (smul cameraSpeed (cameraFront c))) c
           else c in
  let c := if pressed window GLFW_KEY_A
           then set_cameraPos
                  (vsub (cameraPos c)
                        (vmuls (normalize (cross (cameraFront c) (cameraUp c))) cameraSpeed)) c
           else c in
  let c := if pressed window GLFW_KEY_D
           then set_cameraPos
                  (vadd (cameraPos c)
                        (vmuls (normalize (cross (cameraFront c) (cameraUp c))) cameraSpeed)) c
           else c in
  c.

(** The body of the first [for] loop, at index [i]. *)
Definition toggle_step (window : keyboard) (t : Toggles) (i : nat) : Toggles :=
  if pressed window (keys !!! i) then
    if negb (keyStates t !!! i) then
      let t := set_toggleStates (<[i := negb (toggleStates t !!! i)]> (toggleStates t)) t in
      let t := set_flag i (toggleStates t !!! i) t in
      set_keyStates (<[i := true]> (keyStates t)) t
    else t
  else set_keyStates (<[i := false]> (keyStates t)) t.

(** The body of the reset loop, at index [i]. *)
Definition reset_step (t : Toggles) (i : nat) : Toggles :=
  let t := set_toggleStates (<[i := false]> (toggleStates t)) t in
  set_flag i false t.

Definition process_toggles (window : keyboard) (t : Toggles) : Toggles :=
  let t := foldl (toggle_step window) t (seq 0 5) in
  if pressed window GLFW_KEY_0 then foldl reset_step t (seq 0 5) else t.

Definition processInput (window : keyboard) (g : Globals) : Globals :=
  let cameraSpeed := fmul (flit 2.5) (deltaTime (clock g)) in
  let g := with_camera (move_camera window cameraSpeed (camera g)) g in
  with_toggles (process_toggles window (toggles g)) g.

(** ** The mouse callbacks *)

Definition mouse_button_callback (button : mouse_button) (act : action) (g : Globals) : Globals :=
  if bool_decide (button = GLFW_MOUSE_BUTTON_LEFT) then
    if bool_decide (act = GLFW_PRESS) then
      let g := with_cursor GLFW_CURSOR_DISABLED g in
      with_mouse (set_leftMousePressed true (mouse g)) g
    else if bool_decide (act = GLFW_RELEASE) then
      let g := with_cursor GLFW_CURSOR_NORMAL g in
      let g := with_mouse (set_firstMouse true (mouse g)) g in
      with_mouse (set_leftMousePressed false (mouse g)) g
    else g
  else g.

(** The direction computed from yaw and pitch before it is normalised.

    The source calls [cos] and [sin] unqualified, on [float] arguments.
    Where the [float] overloads are in scope (MSVC, libc++) these are the
    [float] functions and the two products are [float] products: the
    reading this definition follows.  With libstdc++ the calls resolve to
    the C functions on [double], and each product is formed in [double]
    and rounded once when it is stored.  The two readings are the same
    function in exact arithmetic and can differ in the last place in
    binary32; what is proved of [normalize] in binary32 holds of every
    vector, so of the direction under either reading. *)
Definition front_of (yaw pitch : float) : vec3 :=
  Vec3 (fmul (fcos (radians yaw)) (fcos (radians pitch)))
       (fsin (radians pitch))
       (fmul (fsin (radians yaw)) (fcos (radians pitch))).

Definition mouse_callback (xpos ypos : double) (g : Globals) : Globals :=
  if negb (leftMousePressed (mouse g)) then g else
  let m := mouse g in
  let m := if firstMouse m
           then set_firstMouse false (set_last (to_float xpos) (to_float ypos) m)
           else m in
  let xoffset := to_float (dsub xpos (to_double (lastX m))) in
  let yoffset := to_float (dsub (to_double (lastY m)) ypos) in
  let m := set_last (to_float xpos) (to_float ypos) m in
  let sensitivity := flit 0.1 in
  let xoffset := fmul xoffset sensitivity in
  let yoffset := fmul yoffset sensitivity in
  let m := set_yaw (fadd (yaw m) xoffset) m in
  let m := set_pitch (fadd (pitch m) yoffset) m in
  let m := if fgtb (pitch m) (flit 89.0) then set_pitch (flit 89.0) m else m in
  let m := if fltb (pitch m) (fopp (flit 89.0)) then set_pitch (fopp (flit 89.0)) m else m in
  let front := front_of (yaw m) (pitch m) in
  with_camera (set_cameraFront (normalize front) (camera g)) (with_mouse m g).

(** ** [main] *)

(** The cube vertices, position then colour, as the initialiser lists
    them (the integer colour components convert to [float]). *)
Definition vertices_data : list Q := [
  (* back face *)
  -0.5;-0.5;-0.5; 1;0;0;   0.5;-0.5;-0.5; 0;1;0;   0.5;0.5;-0.5; 0;0;1;
   0.5;0.5;-0.5; 0;0;1;   -0.5;0.5;-0.5; 1;1;0;   -0.5;-0.5;-0.5; 1;1;0;
  (* front face *)
  -0.5;-0.5;0.5; 1;0;0;    0.5;-0.5;0.5; 0;1;0;    0.5;0.5;0.5; 0;0;1;
   0.5;0.5;0.5; 0;0;1;    -0.5;0.5;0.5; 1;1;0;    -0.5;-0.5;0.5; 1;1;0;
  (* left face *)
  -0.5;0.5;0.5; 1;0;0;    -0.5;0.5;-0.5; 0;1;0;   -0.5;-0.5;-0.5; 0;0;1;
  -0.5;-0.5;-0.5; 0;0;1;  -0.5;-0.5;0.5; 1;1;0;   -0.5;0.5;0.5; 1;1;0;
  (* right face *)
   0.5;0.5;0.5; 1;0;0;     0.5;0.5;-0.5; 0;1;0;    0.5;-0.5;-0.5; 0;0;1;
   0.5;-0.5;-0.5; 0;0;1;   0.5;-0.5;0.5; 1;1;0;    0.5;0.5;0.5; 1;1;0;
  (* bottom face *)
  -0.5;-0.5;-0.5; 1;0;0;   0.5;-0.5;-0.5; 0;1;0;   0.5;-0.5;0.5; 0;0;1;
   0.5;-0.5;0.5; 0;0;1;   -0.5;-0.5;0.5; 1;1;0;   -0.5;-0.5;-0.5; 1;1;0
]%Q.

Definition vertices : list float := map flit vertices_data.

(** The OpenGL calls of [main] that carry the mesh. *)
Inductive gl_call :=
  | glBufferData (data : list float)
  | glVertexAttribPointer (index size stride offset : nat)
  | glDrawArrays (first count : nat).

(** What GLFW delivers inside one [glfwPollEvents]. *)
Inductive event :=
  | CursorPos (xpos ypos : double)
  | MouseButton (button : mouse_button) (act : action).

Definition dispatch (g : Globals) (e : event) : Globals :=
  match e with
  | CursorPos xpos ypos => mouse_callback xpos ypos g
  | MouseButton button act => mouse_button_callback button act g
  end.

(** One iteration of the render loop as the environment drives it: the
    value of [glfwGetTime], the keyboard, and the events of the
    [glfwPollEvents] that ends the iteration. *)
Record frame := {
  now : double;
  window : keyboard;
  events : list event
}.

(** The first three statements of the loop body. *)
Definition begin_frame (time : double) (g : Globals) : Globals :=
  let currentFrame := to_float time in
  with_clock {| deltaTime := fsub currentFrame (lastFrame (clock g));
                lastFrame := currentFrame |} g.

Definition render_frame (gc : Globals * list gl_call) (f : frame) : Globals * list gl_call :=
  let (g, calls) := gc in
  let g := begin_frame (now f) g in
  let g := processInput (window f) g in
  let calls := calls ++ [glDrawArrays 0 36] in
  (foldl dispatch g (events f), calls).

(** The environment of a run: whether [glfwCreateWindow] returns a window,
    whether [gladLoadGLLoader] succeeds, and the iterations the loop makes
    before [glfwWindowShouldClose] answers true. *)
Record environment := {
  window_created : bool;
  loader_ok : bool;
  frames : list frame
}.

Record run := {
  exit_code : Z;
  stdout : list string;
  gl_calls : list gl_call;
  final : Globals
}.

Definition main (env : environment) : run :=
  if negb (window_created env) then
    {| exit_code := -1; stdout := ["Failed to create GLFW window"%string];
       gl_calls := []; final := init |}
  else if negb (loader_ok env) then
    {| exit_code := -1; stdout := ["Failed to initialize GLAD"%string];
       gl_calls := []; final := init |}
  else
    let setup := [glBufferData vertices; glVertexAttribPointer 0 3 6 0;
                  glVertexAttribPointer 1 3 6 3] in
    let (g, calls) := foldl render_frame (init, setup) (frames env) in
    {| exit_code := 0; stdout := []; gl_calls := calls; final := g |}.

End Program.

(** ** The matrices of the render loop *)

(** The arithmetic that only the matrices need: the [double] sine, sum
    and product of [sin(glfwGetTime()) + 1.0f] and
    [0.5f * sin(glfwGetTime())], and the [float] tangent inside
    [glm::perspective]. *)
Class Arith_render (A : Arith) := {
  dsin : double -> double;
  dadd : double -> double -> double;
  dmul : double -> double -> double;
  ftan : float -> float
}.

Section Rendering.
Context {A : Arith} {AR : Arith_render A}.

Record vec4 := Vec4 { px : float; py : float; pz : float; pw : float }.

(** A [glm::mat4] by its four columns: [m[c]] is column [c] and
    [m[c][r]] its component [r]. *)
Record mat4 := Mat4 { col0 : vec4; col1 : vec4; col2 : vec4; col3 : vec4 }.

Definition v4add (a b : vec4) : vec4 :=
  Vec4 (fadd (px a) (px b)) (fadd (py a) (py b)) (fadd (pz a) (pz b)) (fadd (pw a) (pw b)).

(** [v * s] *)
Definition v4muls (v : vec4) (s : float) : vec4 :=
  Vec4 (fmul (px v) s) (fmul (py v) s) (fmul (pz v) s) (fmul (pw v) s).

(** [glm::mat4(1.0f)] *)
Definition mat4_identity : mat4 :=
  Mat4 (Vec4 (flit 1.0) (flit 0) (flit 0) (flit 0))
       (Vec4 (flit 0) (flit 1.0) (flit 0) (flit 0))
       (Vec4 (flit 0) (flit 0) (flit 1.0) (flit 0))
       (Vec4 (flit 0) (flit 0) (flit 0) (flit 1.0)).

(** [m1 * m2], column by column, each column summed left to right. *)
Definition mat4_mul (m1 m2 : mat4) : mat4 :=
  let column (b : vec4) :=
    v4add (v4add (v4add (v4muls (col0 m1) (px b)) (v4muls (col1 m1) (py b)))
                 (v4muls (col2 m1) (pz b)))
          (v4muls (col3 m1) (pw b)) in
  Mat4 (column (col0 m2)) (column (col1 m2)) (column (col2 m2)) (column (col3 m2)).

(** [glm::translate] *)
Definition translate (m : mat4) (v : vec3) : mat4 :=
  Mat4 (col0 m) (col1 m) (col2 m)
       (v4add (v4add (v4add (v4muls (col0 m) (vx v)) (v4muls (col1 m) (vy v)))
                     (v4muls (col2 m) (vz v)))
              (col3 m)).

(** [glm::scale] *)
Definition scale (m : mat4) (v : vec3) : mat4 :=
  Mat4 (v4muls (col0 m) (vx v)) (v4muls (col1 m) (vy v)) (v4muls (col2 m) (vz v)) (col3 m).

(** [glm::rotate]: the rotation by [angle] about [v], then the product
    of [m] with it. *)
Definition rotate (m : mat4) (angle : float) (v : vec3) : mat4 :=
  let c := fcos angle in
  let s := fsin angle in
  let axis := normalize v in
  let temp := smul (fsub (flit 1) c) axis in
  let r00 := fadd c (fmul (vx temp) (vx axis)) in
  let r01 := fadd (fmul (vx temp) (vy axis)) (fmul s (vz axis)) in
  let r02 := fsub (fmul (vx temp) (vz axis)) (fmul s (vy axis)) in
  let r10 := fsub (fmul (vy temp) (vx axis)) (fmul s (vz axis)) in
  let r11 := fadd c (fmul (vy temp) (vy axis)) in
  let r12 := fadd (fmul (vy temp) (vz axis)) (fmul s (vx axis)) in
  let r20 := fadd (fmul (vz temp) (vx axis)) (fmul s (vy axis)) in
  let r21 := fsub (fmul (vz temp) (vy axis)) (fmul s (vx axis)) in
  let r22 := fadd c (fmul (vz temp) (vz axis)) in
  Mat4 (v4add (v4add (v4muls (col0 m) r00) (v4muls (col1 m) r01)) (v4muls (col2 m) r02))
       (v4add (v4add (v4muls (col0 m) r10) (v4muls (col1 m) r11)) (v4muls (col2 m) r12))
       (v4add (v4add (v4muls (col0 m) r20) (v4muls (col1 m) r21)) (v4muls (col2 m) r22))
       (col3 m).

(** [glm::lookAt], right-handed. *)
Definition lookAt (eye center up : vec3) : mat4 :=
  let f := normalize (vsub center eye) in
  let s := normalize (cross f up) in
  let u := cross s f in
  Mat4 (Vec4 (vx s) (vx u) (fopp (vx f)) (flit 0))
       (Vec4 (vy s) (vy u) (fopp (vy f)) (flit 0))
       (Vec4 (vz s) (vz u) (fopp (vz f)) (flit 0))
       (Vec4 (fopp (dot s eye)) (fopp (dot u eye)) (dot f eye) (flit 1.0)).

(** [glm::perspective], right-handed with depth from -1 to 1. *)
Definition perspective (fovy aspect zNear zFar : float) : mat4 :=
  let tanHalfFovy := ftan (fdiv fovy (flit 2)) in
  Mat4 (Vec4 (fdiv (flit 1) (fmul aspect tanHalfFovy)) (flit 0) (flit 0) (flit 0))
       (Vec4 (flit 0) (fdiv (flit 1) tanHalfFovy) (flit 0) (flit 0))
       (Vec4 (flit 0) (flit 0)
             (fdiv (fopp (fadd zFar zNear)) (fsub zFar zNear)) (fopp (flit 1)))
       (Vec4 (flit 0) (flit 0)
             (fdiv (fopp (fmul (fmul (flit 2) zFar) zNear)) (fsub zFar zNear)) (flit 0)).

(** The model matrix of one iteration; [t_rotate], [t_scale] and
    [t_shear] are the values of the three calls of [glfwGetTime]. *)
Definition model_matrix (t_rotate t_scale t_shear : double) (t : Toggles) : mat4 :=
  let model := mat4_identity in
  let model := if applyTranslation t
               then translate model (Vec3 (flit 1.0) (flit 0.0) (flit 0.0))
               else model in
  let model := if applyRotation t
               then rotate model (to_float t_rotate) (Vec3 (flit 0.5) (flit 1.0) (flit 0.0))
               else model in
  let model := if applyScaling t
               then let f := to_float (dadd (dsin t_scale) (to_double (flit 1.0))) in
                    scale model (Vec3 f f f)
               else model in
  let model := if applyShearing t
               then let shear :=
                      Mat4 (col0 mat4_identity)
                           (Vec4 (to_float (dmul (to_double (flit 0.5)) (dsin t_shear)))
                                 (py (col1 mat4_identity)) (pz (col1 mat4_identity))
                                 (pw (col1 mat4_identity)))
                           (col2 mat4_identity) (col3 mat4_identity) in
                    mat4_mul model shear
               else model in
  let model := if applyReflection t
               then let reflect :=
                      scale mat4_identity (Vec3 (fopp (flit 1.0)) (flit 1.0) (flit 1.0)) in
                    mat4_mul model reflect
               else model in
  model.

Definition view_matrix (c : Camera) : mat4 :=
  lookAt (cameraPos c) (vadd (cameraPos c) (cameraFront c)) (cameraUp c).

Definition projection_matrix : mat4 :=
  perspective (radians (flit 45.0)) (fdiv (flit SCR_WIDTH) (flit SCR_HEIGHT))
              (flit 0.1) (flit 100.0).

(** A matrix times a vector, as the vertex shader multiplies. *)
Definition mat4_apply (m : mat4) (v : vec4) : vec4 :=
  v4add (v4add (v4add (v4muls (col0 m) (px v)) (v4muls (col1 m) (py v)))
               (v4muls (col2 m) (pz v)))
        (v4muls (col3 m) (pw v)).

(** [vec4(aPos, 1.0f)] *)
Definition point (p : vec3) : vec4 := Vec4 (vx p) (vy p) (vz p) (flit 1.0).

(** [gl_Position] of the vertex shader. *)
Definition gl_Position (projection view model : mat4) (aPos : vec3) : vec4 :=
  mat4_apply (mat4_mul (mat4_mul projection view) model) (point aPos).

End Rendering.

(** ** The two instances of the arithmetic *)

(** *** IEEE 754: binary32 for [float], binary64 for [double] *)

Module IEEE.

(** A decimal literal rounds to the nearest value of the format: the
    correctly rounded quotient of its numerator and denominator. *)
Definition of_Q (prec emax : Z) (q : Q) : spec_float :=
  match Qnum q with
  | Z0 => S754_zero false
  | Zpos n => SFdiv prec emax (S754_finite false n 0) (S754_finite false (Qden q) 0)
  | Zneg n => SFdiv prec emax (S754_finite true n 0) (S754_finite false (Qden q) 0)
  end.

(** Conversion into the format [prec], [emax]: rounding for a finite
    value, the identity on zeros, infinities and NaN. *)
Definition convert (prec emax : Z) (x : spec_float) : spec_float :=
  match x with
  | S754_finite s m e => binary_round prec emax s m e
  | _ => x
  end.

(** The two functions of the C mathematics library that the program
    calls; the source of the library is not part of the program. *)
Class Libm := {
  cosf : spec_float -> spec_float;
  sinf : spec_float -> spec_float
}.

Definition F32 {L : Libm} : Arith := {|
  float := spec_float;
  double := spec_float;
  flit := of_Q 24 128;
  fopp := SFopp;
  fadd := SFadd 24 128;
  fsub := SFsub 24 128;
  fmul := SFmul 24 128;
  fdiv := SFdiv 24 128;
  fltb := SFltb;
  fsqrt := SFsqrt 24 128;
  fcos := cosf;
  fsin := sinf;
  dsub := SFsub 53 1024;
  to_float := convert 24 128;
  to_double := convert 53 1024
|}.

(** A [double] literal. *)
Definition dlit (q : Q) : spec_float := of_Q 53 1024 q.

(** A library that answers [1] for every cosine and [0] for every sine;
    it closes the examples in which the direction vector is not observed. *)
Definition libm_flat : Libm :=
  {| cosf := fun _ => of_Q 24 128 1; sinf := fun _ => S754_zero false |}.

(** Neither NaN nor an infinity. *)
Definition is_finite (x : spec_float) : bool :=
  match x with
  | S754_zero _ | S754_finite _ _ _ => true
  | _ => false
  end.

Definition is_nan (x : spec_float) : bool :=
  match x with
  | S754_nan => true
  | _ => false
  end.

(** [lo <= x <= hi] with the comparisons of the format. *)
Definition between (lo hi x : spec_float) : bool :=
  SFleb lo x && SFleb x hi.

End IEEE.

(** *** Exact arithmetic over the reals *)

Definition Exact : Arith := {|
  float := R;
  double := R;
  flit := Q2R;
  fopp := Ropp;
  fadd := Rplus;
  fsub := Rminus;
  fmul := Rmult;
  fdiv := Rdiv;
  fltb := fun x y => if Rlt_dec x y then true else false;
  fsqrt := sqrt;
  fcos := cos;
  fsin := sin;
  dsub := Rminus;
  to_float := fun x => x;
  to_double := fun x => x
|}.

Definition Exact_render : Arith_render Exact :=
  @Build_Arith_render Exact sin Rplus Rmult tan.

(** * The vocabulary of the properties *)

(** ** Toggles, key presses, the mesh, the clamp *)

Section Vocabulary.
Context {A : Arith}.

(** The arrays have their declared length. *)
Definition wf_toggles (t : Toggles) : Prop :=
  length (keyStates t) = 6 /\ length (toggleStates t) = 6.

(** What the program holds about toggle [i]: its debounce flag
    [keyStates[i]], its state [toggleStates[i]] and the flag [*flags[i]]. *)
Definition cell (i : nat) (t : Toggles) : bool * bool * bool :=
  (keyStates t !!! i, toggleStates t !!! i, get_flag i t).

(** One pass of the toggle loop over a cell, [p] telling whether the key
    is reported pressed. *)
Definition cell_step (p : bool) (c : bool * bool * bool) : bool * bool * bool :=
  let '(k, s, f) := c in
  if p then (if k then c else (true, negb s, negb s)) else (false, s, f).

Definition cell_reset (c : bool * bool * bool) : bool * bool * bool :=
  let '(k, _, _) := c in (k, false, false).

(** The toggles after successive calls of [processInput] with the
    keyboards [ws]: neither the clock nor the mouse callbacks write them,
    so over the render loop they follow the keyboards of its frames. *)
Definition run_toggles (ws : list keyboard) (t : Toggles) : Toggles :=
  foldl (fun t w => process_toggles w t) t ws.

(** The number of discrete presses of key [k] in a run of frames: the
    frames that report [k] pressed after a frame that did not ([prev]
    tells whether the frame before the first one did). *)
Fixpoint press_count (k : key) (prev : bool) (ws : list keyboard) : nat :=
  match ws with
  | [] => 0
  | w :: ws =>
      (if pressed w k && negb prev then 1 else 0) + press_count k (pressed w k) ws
  end.

Definition no_reset (w : keyboard) : Prop := pressed w GLFW_KEY_0 = false.

(** Keyboards for discrete presses: [only k] reports [k] pressed and
    every other key released, [nothing] reports every key released.  A
    tap of [k] holds it for [S h] frames and releases it for [S r]. *)
Definition only (k : key) : keyboard :=
  fun k' => if decide (k' = k) then GLFW_PRESS else GLFW_RELEASE.

Definition nothing : keyboard := fun _ => GLFW_RELEASE.

Definition tap (k : key) (hr : nat * nat) : list keyboard :=
  replicate (S (fst hr)) (only k) ++ replicate (S (snd hr)) nothing.

Definition taps (k : key) (l : list (nat * nat)) : list keyboard :=
  concat (map (tap k) l).

(** The number of floats per vertex: three of position and three of
    colour, the stride of both attribute pointers. *)
Definition floats_per_vertex : nat := 6.

Definition vertex_count : nat := length vertices / floats_per_vertex.

(** The two clamping statements of [mouse_callback]. *)
Definition clamp_pitch (p : float) : float :=
  let p := if fgtb p (flit 89.0) then flit 89.0 else p in
  if fltb p (fopp (flit 89.0)) then fopp (flit 89.0) else p.

(** The cursor ordinate the vertical offset is measured from. *)
Definition baseline_y (ypos : double) (m : Mouse) : float :=
  if firstMouse m then to_float ypos else lastY m.

(** The cursor abscissa the horizontal offset is measured from. *)
Definition baseline_x (xpos : double) (m : Mouse) : float :=
  if firstMouse m then to_float xpos else lastX m.

(** The flags [*flags[i]] agree with the array [toggleStates]. *)
Definition mirrored (t : Toggles) : Prop :=
  forall i, i < 5 -> get_flag i t = toggleStates t !!! i.

(** Two keyboards report the same state for toggle key [i] and for the
    reset key. *)
Definition agree_on (i : nat) (w1 w2 : keyboard) : Prop :=
  pressed w1 (keys !!! i) = pressed w2 (keys !!! i) /\
  pressed w1 GLFW_KEY_0 = pressed w2 GLFW_KEY_0.

(** The cursor is hidden exactly in capture mode, and outside capture
    mode the next cursor sample is taken as a baseline. *)
Definition capture_inv (g : Globals) : Prop :=
  (cursor g = GLFW_CURSOR_DISABLED <-> leftMousePressed (mouse g) = true) /\
  (leftMousePressed (mouse g) = false -> firstMouse (mouse g) = true).

End Vocabulary.

(** ** Binary32: the range of the pitch *)

Section Binary32_vocabulary.
Import IEEE.
Context {L : Libm}.
#[local] Existing Instance F32.

(** The pitch is a binary32 value [p] with [-89 <= p <= 89]. *)
Definition pitch_in_range (g : Globals) : Prop :=
  between (fopp (flit 89.0)) (flit 89.0) (pitch (mouse g)) = true.

(** A mouse-move event carries a finite ordinate; button events carry
    no coordinates. *)
Definition finite_event (e : event) : Prop :=
  match e with
  | CursorPos xpos ypos => is_finite ypos = true
  | MouseButton _ _ => True
  end.

(** The invariant of the callbacks: the pitch is in range and the stored
    ordinate is not NaN. *)
Definition mouse_inv (g : Globals) : Prop :=
  pitch_in_range g /\ is_nan (lastY (mouse g)) = false.

End Binary32_vocabulary.

(** ** Exact arithmetic: axes of movement and runs of frames *)

Section Exact_vocabulary.
#[local] Existing Instance Exact.
Local Open Scope R_scope.

(** The speed of the camera, in units per second. *)
Definition baseSpeed : R := flit 2.5.

Definition vneg (v : vec3) : vec3 := Vec3 (- vx v) (- vy v) (- vz v).

(** The axis each movement key moves the camera along. *)
Definition axis (k : key) (c : Camera) : vec3 :=
  match k with
  | GLFW_KEY_W => cameraFront c
  | GLFW_KEY_S => vneg (cameraFront c)
  | GLFW_KEY_A => vneg (normalize (cross (cameraFront c) (cameraUp c)))
  | GLFW_KEY_D => normalize (cross (cameraFront c) (cameraUp c))
  | _ => Vec3 0 0 0
  end.

Definition movement_keys : list key := [GLFW_KEY_W; GLFW_KEY_S; GLFW_KEY_A; GLFW_KEY_D].

(** Of the four movement keys, the keyboard reports exactly [k] pressed. *)
Definition holds_only (k : key) (w : keyboard) : Prop :=
  In k movement_keys /\
  forall k', In k' movement_keys -> pressed w k' = bool_decide (k' = k).

(** The clock update and the [processInput] of successive iterations of
    the render loop that follow each other by the time steps [dts], with
    the keyboard [w] in each of them and no mouse event in between. *)
Definition hold (w : keyboard) (dts : list R) (g : Globals) : Globals :=
  foldl (fun g dt => processInput w (begin_frame (lastFrame (clock g) + dt) g)) g dts.

Fixpoint total (dts : list R) : R :=
  match dts with
  | [] => 0
  | dt :: dts => dt + total dts
  end.

(** A key state as a number: 1 for pressed, 0 for released. *)
Definition b2r (b : bool) : R := if b then 1 else 0.

(** The mouse callback over the cursor samples [ps] of a drag. *)
Definition drag (ps : list (R * R)) (g : Globals) : Globals :=
  foldl (fun g p => mouse_callback (fst p) (snd p) g) g ps.

(** What each toggle does to a point of the cube. *)
Definition translate_x (p : vec3) : vec3 := Vec3 (vx p + 1) (vy p) (vz p).

Definition reflect_x (p : vec3) : vec3 := Vec3 (- vx p) (vy p) (vz p).

Definition shear_x (k : R) (p : vec3) : vec3 := Vec3 (vx p + k * vy p) (vy p) (vz p).

Definition scale_by (f : R) (p : vec3) : vec3 := Vec3 (f * vx p) (f * vy p) (f * vz p).

(** The rotation of [p] by the angle [a] about the unit vector [n], by
    the formula of Rodrigues. *)
Definition rotate_about (n : vec3) (a : R) (p : vec3) : vec3 :=
  let np := dot n p * (1 - cos a) in
  Vec3 (vx p * cos a + vx (cross n p) * sin a + vx n * np)
       (vy p * cos a + vy (cross n p) * sin a + vy n * np)
       (vz p * cos a + vz (cross n p) * sin a + vz n * np).

Definition rotation_axis : vec3 := normalize (Vec3 (flit 0.5) (flit 1.0) (flit 0.0)).

Definition scale_factor (t : R) : R := sin t + 1.

Definition shear_factor (t : R) : R := / 2 * sin t.

(** The toggled transformations in the order they reach a point. *)
Definition model_map (t_rotate t_scale t_shear : R) (t : Toggles) (p : vec3) : vec3 :=
  let p := if applyReflection t then reflect_x p else p in
  let p := if applyShearing t then shear_x (shear_factor t_shear) p else p in
  let p := if applyScaling t then scale_by (scale_factor t_scale) p else p in
  let p := if applyRotation t then rotate_about rotation_axis t_rotate p else p in
  if applyTranslation t then translate_x p else p.

(** The squared distance of two points. *)
Definition dist2 (p q : vec3) : R := dot (vsub p q) (vsub p q).

End Exact_vocabulary.

(** ** Binary32: the real value of a float, and the error of a rounding *)

Module Rounding.

Local Open Scope R_scope.

(** Powers of two with an integer exponent. *)
Definition p2 (e : Z) : R := powerRZ 2 e.

Definition sign (s : bool) : R := if s then -1 else 1.

(** The real number a finite float stands for ([0] for an infinity and
    for NaN, which [IEEE.is_finite] excludes). *)
Definition B2R (x : spec_float) : R :=
  match x with
  | S754_finite s m e => sign s * (IZR (Zpos m) * p2 e)
  | _ => 0
  end.

(** The real [x] lies in [[m, m + 1)], at the place the round bit [r]
    and the sticky bit [s] tell: on [m], below the middle, on it, above. *)
Definition inbetween (x : R) (m : Z) (r s : bool) : Prop :=
  match r, s with
  | false, false => x = IZR m
  | false, true => IZR m < x < IZR m + / 2
  | true, false => x = IZR m + / 2
  | true, true => IZR m + / 2 < x < IZR m + 1
  end.

Definition located (x : R) (mrs : shr_record) : Prop :=
  (0 <= shr_m mrs)%Z /\ inbetween x (shr_m mrs) (shr_r mrs) (shr_s mrs).

(** The float a rounding returns, by its mantissa and exponent. *)
Definition rounded (prec emax : Z) (sx : bool) (m e : Z) : spec_float :=
  match m with
  | Z0 => S754_zero sx
  | Zpos p => if (e <=? emax - prec)%Z then S754_finite sx p e else S754_infinity sx
  | Zneg _ => S754_nan
  end.

(** The unit roundoff of a format, the largest error of a result in its
    subnormal range, and a bound under which no result overflows. *)
Definition unit_roundoff (prec : Z) : R := p2 (- prec).

Definition eta (prec emax : Z) : R := p2 (SpecFloat.emin prec emax - 1).

Definition big (prec emax : Z) : R := p2 (emax - prec).

(** For binary32: the unit roundoff [2^-24], and a bound of the
    subnormal error [2^-150]. *)
Definition U : R := / 16777216.

Definition tiny : R := / 1000000000000000000000000000000.

(** A magnitude that no binary32 operation overflows at. *)
Definition huge : R := 1000000000000000000000000000000.

(** The literal [1.0f]. *)
Definition one32 : spec_float := IEEE.of_Q 24 128 1.

End Rounding.

(** ** Binary32: the length of a vector *)

Section Binary32_lengths.
Import IEEE Rounding.
Context {L : Libm}.
#[local] Existing Instance F32.
Local Open Scope R_scope.

(** The squared Euclidean length of a binary32 vector, and its length,
    as real numbers: no rounding enters them. *)
Definition norm2 (v : vec3) : R :=
  B2R (vx v) * B2R (vx v) + B2R (vy v) * B2R (vy v) + B2R (vz v) * B2R (vz v).

Definition length32 (v : vec3) : R := sqrt (norm2 v).

Definition finite3 (v : vec3) : Prop :=
  is_finite (vx v) = true /\ is_finite (vy v) = true /\ is_finite (vz v) = true.

Definition bounded3 (b : R) (v : vec3) : Prop :=
  Rabs (B2R (vx v)) <= b /\ Rabs (B2R (vy v)) <= b /\ Rabs (B2R (vz v)) <= b.

(** What is asked of the C library at one angle: its cosine [c] and its
    sine [s] are finite and their squares sum to 1 within a quarter. *)
Definition library_ok (c s : spec_float) : Prop :=
  is_finite c = true /\ is_finite s = true /\
  3 / 4 <= B2R c * B2R c + B2R s * B2R s <= 5 / 4.

(** One coordinate [p'] of the camera after a step, against the exact sum
    of the coordinate [p] before it and the exact step [t]: the error is
    at most one unit roundoff of the coordinate and five of the step. *)
Definition step_within (p' p : spec_float) (t : R) : Prop :=
  is_finite p' = true /\
  Rabs (B2R p' - (B2R p + t)) <= U * Rabs (B2R p) + 5 * U * Rabs t + 6 * tiny.

(** The axis each movement key moves the camera along, as the program
    computes it in binary32, and the direction it moves it in. *)
Definition axis32 (k : key) (c : Camera) : vec3 :=
  match k with
  | GLFW_KEY_W | GLFW_KEY_S => cameraFront c
  | _ => normalize (cross (cameraFront c) (cameraUp c))
  end.

Definition toward (k : key) : R :=
  match k with
  | GLFW_KEY_W | GLFW_KEY_D => 1
  | _ => -1
  end.

End Binary32_lengths.

(** ** Concrete inputs *)

(** Binary32 with the flat library. *)
Definition F32_flat : Arith := @IEEE.F32 IEEE.libm_flat.

(** The reset key and key 1 reported pressed together. *)
Definition reset_with_1 : keyboard :=
  fun k => match k with
           | GLFW_KEY_0 | GLFW_KEY_1 => GLFW_PRESS
           | _ => GLFW_RELEASE
           end.

(** A frame of the render loop with keyboard [w] and no events. *)
Definition quiet_frame (w : keyboard) : @frame F32_flat :=
  @Build_frame F32_flat (IEEE.dlit 0) w [].

(** Capture entered, a first sample, then the cursor far below it. *)
Definition drag_down : list (@event F32_flat) :=
  [@MouseButton F32_flat GLFW_MOUSE_BUTTON_LEFT GLFW_PRESS;
   @CursorPos F32_flat (IEEE.dlit 400) (IEEE.dlit 300);
   @CursorPos F32_flat (IEEE.dlit 400) (IEEE.dlit 100000)].

(** A run of two frames: key 2 pressed in the first; in the second no
    key, and the left button pressed, the cursor moved and the button
    released before the window closes. *)
Definition session : @environment F32_flat :=
  @Build_environment F32_flat true true
    [quiet_frame (only GLFW_KEY_2);
     @Build_frame F32_flat (IEEE.dlit 1) nothing
       [@MouseButton F32_flat GLFW_MOUSE_BUTTON_LEFT GLFW_PRESS;
        @CursorPos F32_flat (IEEE.dlit 400) (IEEE.dlit 300);
        @CursorPos F32_flat (IEEE.dlit 410) (IEEE.dlit 290);
        @MouseButton F32_flat GLFW_MOUSE_BUTTON_LEFT GLFW_RELEASE]].

(** A frame of the render loop at time [t] in which the keyboard reports
    key [k] alone and no event arrives. *)
Definition key_frame (k : key) (t : Q) : @frame F32_flat :=
  @Build_frame F32_flat (IEEE.dlit t) (only k) [].

(** The times [t0 + i / den] for [i] from 1 to [n]. *)
Definition ticks (t0 : Q) (den : positive) (n : nat) : list Q :=
  map (fun i => (t0 + (Z.of_nat i # den))%Q) (seq 1 n).

(** The initial globals with the camera at [z = 131072], where
    neighbouring binary32 values are [1/64] apart (and [1/128] just
    below). *)
Definition far_away : @Globals F32_flat :=
  @with_camera F32_flat
    (@set_cameraPos F32_flat
       (@Vec3 F32_flat (@flit F32_flat 0) (@flit F32_flat 0) (@flit F32_flat 131072))
       (camera (@init F32_flat)))
    (@init F32_flat).

(** The camera position after the iterations [fs] of the render loop,
    from the globals [g] and from the start of [main]. *)
Definition position_after (g : @Globals F32_flat) (fs : list (@frame F32_flat)) : @vec3 F32_flat :=
  cameraPos (camera (fst (foldl (@render_frame F32_flat) (g, []) fs))).

Definition position_at_exit (fs : list (@frame F32_flat)) : @vec3 F32_flat :=
  cameraPos (camera (final (main (@Build_environment F32_flat true true fs)))).

(** A library that answers as a correctly rounding one at the angles of
    the first sample of a capture, 0 and a quarter turn (90 degrees in
    radians, in binary32): cos 0 = 1, sin 0 = 0, and at the quarter turn
    the cosine [-4.371139e-08] and the sine [1] with the sign of the
    angle; elsewhere it answers 1 and 0. *)
Definition libm_quarter : IEEE.Libm :=
  {| IEEE.cosf := fun x =>
       match x with
       | S754_finite _ 13176795 (-23) => S754_finite true 12303662 (-48)
       | _ => IEEE.of_Q 24 128 1
       end;
     IEEE.sinf := fun x =>
       match x with
       | S754_finite s 13176795 (-23) => S754_finite s 8388608 (-23)
       | _ => S754_zero false
       end |}.

Definition F32_quarter : Arith := @IEEE.F32 libm_quarter.

(** The initial globals with capture entered, in exact arithmetic. *)
Definition captured : @Globals Exact :=
  @mouse_button_callback Exact GLFW_MOUSE_BUTTON_LEFT GLFW_PRESS init.

(** The initial toggles with one of the flags set. *)
Definition only_flag (i : nat) : Toggles := set_flag i true (toggles (@init Exact)).

(** * Properties *)

(** ** The toggle state machine *)

Section Toggling.
Context {A : Arith}.

Lemma get_set_flag (i j : nat) (b : bool) (t : Toggles) :
  i < 5 -> j < 5 ->
  get_flag j (set_flag i b t) = if decide (i = j) then b else get_flag j t.
Proof.
  intros Hi Hj.
  do 5 (destruct i as [|i]; [ do 5 (destruct j as [|j]; [ reflexivity | ]); lia | ]).
  lia.
Qed.

Lemma keyStates_set_flag (i : nat) (b : bool) (t : Toggles) :
  keyStates (set_flag i b t) = keyStates t.
Proof. do 4 (destruct i as [|i]; [ reflexivity | ]). reflexivity. Qed.

Lemma toggleStates_set_flag (i : nat) (b : bool) (t : Toggles) :
  toggleStates (set_flag i b t) = toggleStates t.
Proof. do 4 (destruct i as [|i]; [ reflexivity | ]). reflexivity. Qed.

Lemma get_flag_set_keyStates (j : nat) (l : list bool) (t : Toggles) :
  get_flag j (set_keyStates l t) = get_flag j t.
Proof. do 4 (destruct j as [|j]; [ reflexivity | ]). reflexivity. Qed.

Lemma get_flag_set_toggleStates (j : nat) (l : list bool) (t : Toggles) :
  get_flag j (set_toggleStates l t) = get_flag j t.
Proof. do 4 (destruct j as [|j]; [ reflexivity | ]). reflexivity. Qed.

Lemma toggle_step_wf (w : keyboard) (t : Toggles) (i : nat) :
  wf_toggles t -> wf_toggles (toggle_step w t i).
Proof.
  intros [Hk Ht]. unfold toggle_step, wf_toggles.
  destruct (pressed w (keys !!! i)); [ destruct (keyStates t !!! i) | ]; simpl;
    rewrite ?keyStates_set_flag, ?toggleStates_set_flag; simpl;
    rewrite ?length_insert; auto.
Qed.

Lemma reset_step_wf (t : Toggles) (i : nat) :
  wf_toggles t -> wf_toggles (reset_step t i).
Proof.
  intros [Hk Ht]. unfold reset_step, wf_toggles.
  rewrite keyStates_set_flag, toggleStates_set_flag; simpl.
  rewrite length_insert; auto.
Qed.

Lemma toggle_step_cell (w : keyboard) (t : Toggles) (i j : nat) :
  wf_toggles t -> i < 5 -> j < 5 ->
  cell j (toggle_step w t i) =
  if decide (i = j) then cell_step (pressed w (keys !!! i)) (cell j t) else cell j t.
Proof.
  intros [Hk Ht] Hi Hj. unfold toggle_step, cell, cell_step.
  destruct (pressed w (keys !!! i)); [ destruct (keyStates t !!! i) eqn:Ek | ]; simpl;
    rewrite ?get_flag_set_keyStates, ?keyStates_set_flag, ?toggleStates_set_flag,
            ?get_set_flag, ?get_flag_set_toggleStates by lia; simpl;
    destruct (decide (i = j)) as [->|Hne];
    rewrite ?list_lookup_total_insert_eq by lia;
    rewrite ?list_lookup_total_insert_ne by assumption;
    rewrite ?Ek; reflexivity.
Qed.

Lemma reset_step_cell (t : Toggles) (i j : nat) :
  wf_toggles t -> i < 5 -> j < 5 ->
  cell j (reset_step t i) = if decide (i = j) then cell_reset (cell j t) else cell j t.
Proof.
  intros [Hk Ht] Hi Hj. unfold reset_step, cell, cell_reset.
  rewrite keyStates_set_flag, toggleStates_set_flag, get_set_flag,
          get_flag_set_toggleStates by lia; simpl.
  destruct (decide (i = j)) as [->|Hne].
  - rewrite list_lookup_total_insert_eq by lia. reflexivity.
  - rewrite list_lookup_total_insert_ne by assumption. reflexivity.
Qed.

Lemma toggle_loop_wf (w : keyboard) (l : list nat) (t : Toggles) :
  wf_toggles t -> wf_toggles (foldl (toggle_step w) t l).
Proof.
  revert t. induction l as [|a l IH]; intros t Hwf; simpl; [ assumption | ].
  apply IH, toggle_step_wf, Hwf.
Qed.

Lemma reset_loop_wf (l : list nat) (t : Toggles) :
  wf_toggles t -> wf_toggles (foldl reset_step t l).
Proof.
  revert t. induction l as [|a l IH]; intros t Hwf; simpl; [ assumption | ].
  apply IH, reset_step_wf, Hwf.
Qed.

(** A loop over distinct indices steps each of their cells once and
    leaves the others alone. *)
Lemma toggle_loop_cell (w : keyboard) (l : list nat) (t : Toggles) (j : nat) :
  wf_toggles t -> NoDup l -> Forall (fun i => i < 5) l -> j < 5 ->
  cell j (foldl (toggle_step w) t l) =
  if decide (j ∈ l) then cell_step (pressed w (keys !!! j)) (cell j t) else cell j t.
Proof.
  revert t. induction l as [|a l IH]; intros t Hwf Hnd Hall Hj; cbn [foldl].
  - rewrite decide_False by apply not_elem_of_nil. reflexivity.
  - apply NoDup_cons in Hnd as [Ha Hnd]. apply Forall_cons in Hall as [Ha5 Hall].
    rewrite IH by auto using toggle_step_wf.
    rewrite toggle_step_cell by assumption.
    destruct (decide (a = j)) as [->|Hne].
    + rewrite decide_False by assumption.
      rewrite decide_True by apply list_elem_of_here. reflexivity.
    + destruct (decide (j ∈ l)) as [Hin|Hnin].
      * rewrite decide_True by (apply list_elem_of_further; assumption). reflexivity.
      * rewrite decide_False; [ reflexivity | ].
        intros Hin. apply elem_of_cons in Hin as [->|Hin]; [ apply Hne | apply Hnin ]; auto.
Qed.

Lemma reset_loop_cell (l : list nat) (t : Toggles) (j : nat) :
  wf_toggles t -> NoDup l -> Forall (fun i => i < 5) l -> j < 5 ->
  cell j (foldl reset_step t l) = if decide (j ∈ l) then cell_reset (cell j t) else cell j t.
Proof.
  revert t. induction l as [|a l IH]; intros t Hwf Hnd Hall Hj; cbn [foldl].
  - rewrite decide_False by apply not_elem_of_nil. reflexivity.
  - apply NoDup_cons in Hnd as [Ha Hnd]. apply Forall_cons in Hall as [Ha5 Hall].
    rewrite IH by auto using reset_step_wf.
    rewrite reset_step_cell by assumption.
    destruct (decide (a = j)) as [->|Hne].
    + rewrite decide_False by assumption.
      rewrite decide_True by apply list_elem_of_here. reflexivity.
    + destruct (decide (j ∈ l)) as [Hin|Hnin].
      * rewrite decide_True by (apply list_elem_of_further; assumption). reflexivity.
      * rewrite decide_False; [ reflexivity | ].
        intros Hin. apply elem_of_cons in Hin as [->|Hin]; [ apply Hne | apply Hnin ]; auto.
Qed.

Lemma seq_5_indices : NoDup (seq 0 5) /\ Forall (fun i => i < 5) (seq 0 5).
Proof.
  split.
  - apply NoDup_seq.
  - apply Forall_forall. intros i Hi. apply elem_of_seq in Hi. lia.
Qed.

Lemma process_toggles_wf (w : keyboard) (t : Toggles) :
  wf_toggles t -> wf_toggles (process_toggles w t).
Proof.
  intros Hwf. unfold process_toggles.
  destruct (pressed w GLFW_KEY_0); auto using toggle_loop_wf, reset_loop_wf.
Qed.

(** The effect of one [processInput] on toggle [j]. *)
Lemma process_toggles_cell (w : keyboard) (t : Toggles) (j : nat) :
  wf_toggles t -> j < 5 ->
  cell j (process_toggles w t) =
  let c := cell_step (pressed w (keys !!! j)) (cell j t) in
  if pressed w GLFW_KEY_0 then cell_reset c else c.
Proof.
  intros Hwf Hj. destruct seq_5_indices as [Hnd Hall].
  assert (Hin : j ∈ seq 0 5) by (apply elem_of_seq; lia).
  unfold process_toggles. destruct (pressed w GLFW_KEY_0); cbv zeta.
  - rewrite reset_loop_cell by auto using toggle_loop_wf.
    rewrite decide_True by assumption.
    rewrite toggle_loop_cell by assumption.
    rewrite decide_True by assumption. reflexivity.
  - rewrite toggle_loop_cell by assumption.
    rewrite decide_True by assumption. reflexivity.
Qed.

Lemma toggles_processInput (w : keyboard) (g : Globals) :
  toggles (processInput w g) = process_toggles w (toggles g).
Proof. reflexivity. Qed.

Lemma toggles_dispatch (es : list event) (g : Globals) :
  toggles (foldl dispatch g es) = toggles g.
Proof.
  revert g. induction es as [|e es IH]; intros g; cbn [foldl]; [ reflexivity | ].
  rewrite IH. destruct e as [xpos ypos|button act]; cbn [dispatch].
  - unfold mouse_callback. destruct (negb (leftMousePressed (mouse g))); reflexivity.
  - unfold mouse_button_callback.
    repeat (match goal with |- context [bool_decide ?P] => destruct (bool_decide P) end);
      reflexivity.
Qed.

Lemma toggles_render_frame (g : Globals) (calls : list gl_call) (f : frame) :
  toggles (fst (render_frame (g, calls) f)) = process_toggles (window f) (toggles g).
Proof. cbn [render_frame fst]. rewrite toggles_dispatch. reflexivity. Qed.

Lemma toggles_render_loop (fs : list frame) (gc : Globals * list gl_call) :
  toggles (fst (foldl render_frame gc fs)) = run_toggles (map window fs) (toggles (fst gc)).
Proof.
  revert gc. induction fs as [|f fs IH]; intros [g calls]; cbn [foldl map]; [ reflexivity | ].
  rewrite IH. unfold run_toggles at 2. cbn [foldl]. fold (run_toggles (map window fs)).
  rewrite toggles_render_frame. reflexivity.
Qed.

Lemma run_toggles_wf (ws : list keyboard) (t : Toggles) :
  wf_toggles t -> wf_toggles (run_toggles ws t).
Proof.
  revert t. induction ws as [|w ws IH]; intros t Hwf; [ assumption | ].
  apply IH, process_toggles_wf, Hwf.
Qed.

(** Without reset, the state of toggle [j] has flipped once per discrete
    press of its key, and the flag follows the state. *)
Lemma run_toggles_parity (ws : list keyboard) (t : Toggles) (j : nat) (k s : bool) :
  wf_toggles t -> j < 5 -> Forall no_reset ws ->
  cell j t = (k, s, s) ->
  let s' := xorb s (Nat.odd (press_count (keys !!! j) k ws)) in
  snd (fst (cell j (run_toggles ws t))) = s' /\ snd (cell j (run_toggles ws t)) = s'.
Proof.
  revert t k s. induction ws as [|w ws IH]; intros t k s Hwf Hj Hall Hc; cbn zeta.
  - cbn [press_count run_toggles foldl]. rewrite Hc. cbn. rewrite xorb_false_r. auto.
  - apply Forall_cons in Hall as [Hw Hall]. unfold no_reset in Hw.
    cbn [press_count]. change (run_toggles (w :: ws) t) with (run_toggles ws (process_toggles w t)).
    pose proof (process_toggles_cell w t j Hwf Hj) as Hstep.
    rewrite Hw, Hc in Hstep. cbn zeta in Hstep.
    rewrite Nat.odd_add.
    destruct (pressed w (keys !!! j)) eqn:Ep; destruct k;
      cbn [cell_step cell_reset andb negb] in Hstep;
      destruct (IH _ _ _ (process_toggles_wf w t Hwf) Hj Hall Hstep) as [H1 H2];
      rewrite H1, H2; cbn [andb negb];
      change (Nat.odd 1) with true; change (Nat.odd 0) with false;
      destruct s, (Nat.odd _); auto.
Qed.

(** While its key stays down and its debounce flag is set, a toggle keeps
    its state. *)
Lemma run_toggles_held (ws : list keyboard) (t : Toggles) (j : nat) :
  wf_toggles t -> j < 5 ->
  Forall (fun w => pressed w (keys !!! j) = true /\ no_reset w) ws ->
  keyStates t !!! j = true ->
  cell j (run_toggles ws t) = cell j t.
Proof.
  revert t. induction ws as [|w ws IH]; intros t Hwf Hj Hall Hk; [ reflexivity | ].
  apply Forall_cons in Hall as [[Hp Hr] Hall]. unfold no_reset in Hr.
  change (run_toggles (w :: ws) t) with (run_toggles ws (process_toggles w t)).
  pose proof (process_toggles_cell w t j Hwf Hj) as Hstep.
  rewrite Hp, Hr in Hstep. cbn zeta in Hstep.
  unfold cell at 2 in Hstep. rewrite Hk in Hstep. cbn [cell_step] in Hstep.
  fold (cell j t) in Hstep || idtac.
  rewrite IH; auto using process_toggles_wf.
  - rewrite Hstep. unfold cell. rewrite Hk. reflexivity.
  - unfold cell in Hstep. injection Hstep as H1 _ _. exact H1.
Qed.

Lemma init_wf : wf_toggles (toggles init).
Proof. split; reflexivity. Qed.

Lemma pressed_only (k k' : key) : pressed (only k) k' = bool_decide (k' = k).
Proof.
  unfold pressed, glfwGetKey, only.
  destruct (decide (k' = k)) as [->|Hne].
  - rewrite !bool_decide_eq_true_2; reflexivity.
  - rewrite (bool_decide_eq_false_2 (k' = k)) by assumption.
    apply bool_decide_eq_false_2. discriminate.
Qed.

Lemma press_count_held (k : key) (n : nat) (rest : list keyboard) :
  press_count k true (replicate n (only k) ++ rest) = press_count k true rest.
Proof.
  induction n as [|n IH]; [ reflexivity | ].
  cbn [replicate app press_count]. rewrite pressed_only, bool_decide_eq_true_2 by reflexivity.
  exact IH.
Qed.

Lemma press_count_pressed (k : key) (n : nat) (rest : list keyboard) :
  press_count k false (replicate (S n) (only k) ++ rest) = S (press_count k true rest).
Proof.
  change (replicate (S n) (only k) ++ rest) with (only k :: (replicate n (only k) ++ rest)).
  cbn [press_count]. rewrite pressed_only, bool_decide_eq_true_2 by reflexivity.
  rewrite press_count_held. reflexivity.
Qed.

Lemma press_count_released (k : key) (prev : bool) (n : nat) (rest : list keyboard) :
  press_count k prev (replicate (S n) nothing ++ rest) = press_count k false rest.
Proof.
  revert prev. induction n as [|n IH]; intros prev.
  - reflexivity.
  - change (replicate (S (S n)) nothing ++ rest)
      with (nothing :: (replicate (S n) nothing ++ rest)).
    cbn [press_count]. change (pressed nothing k) with false. apply IH.
Qed.

Lemma press_count_taps (k : key) (l : list (nat * nat)) :
  press_count k false (taps k l) = length l.
Proof.
  induction l as [|[h r] l IH]; [ reflexivity | ].
  unfold taps. cbn [map concat]. unfold tap at 1. cbn [fst snd]. rewrite <- app_assoc.
  rewrite press_count_pressed, press_count_released. fold (taps k l). rewrite IH. reflexivity.
Qed.

Lemma taps_no_reset (i : nat) (l : list (nat * nat)) :
  i < 5 -> Forall no_reset (taps (keys !!! i) l).
Proof.
  intros Hi. induction l as [|[h r] l IH]; [ constructor | ].
  unfold taps. cbn [map concat]. apply Forall_app. split; [ | exact IH ].
  apply Forall_app. split; apply Forall_replicate; unfold no_reset.
  - rewrite pressed_only. apply bool_decide_eq_false_2.
    do 5 (destruct i as [|i]; [ discriminate | ]). lia.
  - reflexivity.
Qed.

(** C2: in every frame in which the reset key is reported pressed, all
    five toggles, state and flag, are false afterwards whatever they were
    before; the debounce flag of a toggle key is not written by the reset
    and ends the frame telling whether that key is reported pressed in
    the frame. *)
Theorem C2_reset_clears_toggles (w : keyboard) (g : Globals) (i : nat) :
  wf_toggles (toggles g) -> pressed w GLFW_KEY_0 = true -> i < 5 ->
  let t := toggles (processInput w g) in
  toggleStates t !!! i = false /\ get_flag i t = false /\
  keyStates t !!! i = pressed w (keys !!! i).
Proof.
  intros Hwf H0 Hi t. subst t. rewrite toggles_processInput.
  pose proof (process_toggles_cell w (toggles g) i Hwf Hi) as Hc.
  rewrite H0 in Hc. cbn zeta in Hc.
  destruct (cell i (toggles g)) as [[k s] f].
  unfold cell in Hc. unfold cell_step, cell_reset in Hc.
  destruct (pressed w (keys !!! i)); [ destruct k | ]; injection Hc as -> -> ->; auto.
Qed.

(** C5: from the initial state and without reset, toggle [i] is true
    exactly after an odd number of discrete presses of its key, over any
    frames of the render loop and in particular over any number of taps;
    one frame with key 2 pressed and no other number key sets the rotation
    flag and leaves the four others false; and while a key stays down
    after the frame that saw it pressed, its toggle does not change. *)
Theorem C5_toggle_parity :
  (forall (i : nat) (fs : list frame) (calls : list gl_call),
     i < 5 -> Forall (fun f => no_reset (window f)) fs ->
     let t := toggles (fst (foldl render_frame (init, calls) fs)) in
     let n := press_count (keys !!! i) false (map window fs) in
     toggleStates t !!! i = Nat.odd n /\ get_flag i t = Nat.odd n) /\
  (forall (i : nat) (l : list (nat * nat)),
     i < 5 ->
     let t := run_toggles (taps (keys !!! i) l) (toggles init) in
     toggleStates t !!! i = Nat.odd (length l) /\ get_flag i t = Nat.odd (length l)) /\
  (forall (w : keyboard),
     pressed w GLFW_KEY_2 = true ->
     (forall k, In k [GLFW_KEY_0; GLFW_KEY_1; GLFW_KEY_3; GLFW_KEY_4; GLFW_KEY_5] ->
                pressed w k = false) ->
     let t := toggles (processInput w init) in
     applyRotation t = true /\ applyTranslation t = false /\ applyScaling t = false /\
     applyShearing t = false /\ applyReflection t = false) /\
  (forall (i : nat) (g : Globals) (w : keyboard) (ws : list keyboard),
     i < 5 -> wf_toggles (toggles g) ->
     Forall (fun w => pressed w (keys !!! i) = true /\ no_reset w) (w :: ws) ->
     let t1 := toggles (processInput w g) in
     let t := run_toggles ws t1 in
     toggleStates t !!! i = toggleStates t1 !!! i /\ get_flag i t = get_flag i t1).
Proof.
  split; [ | split; [ | split ] ].
  - intros i fs calls Hi Hall t n. subst t n.
    rewrite toggles_render_loop. cbn [fst].
    assert (Hall' : Forall no_reset (map window fs)).
    { apply Forall_forall. intros w Hw. apply list_elem_of_fmap in Hw as [f [-> Hf]].
      rewrite Forall_forall in Hall. apply Hall, Hf. }
    destruct (run_toggles_parity (map window fs) (toggles init) i false false
                init_wf Hi Hall') as [H1 H2].
    { unfold cell. do 5 (destruct i as [|i]; [ reflexivity | ]). lia. }
    cbn zeta in H1, H2. rewrite xorb_false_l in H1, H2.
    unfold cell in H1, H2. cbn [fst snd] in H1, H2. auto.
  - intros i l Hi t. subst t.
    destruct (run_toggles_parity (taps (keys !!! i) l) (toggles init) i false false
                init_wf Hi (taps_no_reset i l Hi)) as [H1 H2].
    { unfold cell. do 5 (destruct i as [|i]; [ reflexivity | ]). lia. }
    cbn zeta in H1, H2. rewrite xorb_false_l, press_count_taps in H1, H2.
    unfold cell in H1, H2. cbn [fst snd] in H1, H2. auto.
  - intros w H2 Hothers t. subst t. rewrite toggles_processInput.
    assert (Hc : forall j, j < 5 ->
              get_flag j (process_toggles w (toggles init)) = bool_decide (j = 1)).
    { intros j Hj. pose proof (process_toggles_cell w (toggles init) j init_wf Hj) as Hc.
      apply (f_equal snd) in Hc.
      change (snd (cell j ?t)) with (get_flag j t) in Hc. rewrite Hc. clear Hc.
      rewrite (Hothers GLFW_KEY_0) by (cbn; auto).
      do 5 (destruct j as [|j];
            [ cbn; rewrite ?H2, ?Hothers by (cbn; auto 10); reflexivity | ]).
      lia. }
    set (t := process_toggles w (toggles init)) in *.
    change (get_flag 1 t = true /\ get_flag 0 t = false /\ get_flag 2 t = false /\
            get_flag 3 t = false /\ get_flag 4 t = false).
    rewrite !Hc by lia. auto.
  - intros i g w ws Hi Hwf Hall t1 t. subst t t1. rewrite toggles_processInput.
    apply Forall_cons in Hall as [[Hp Hr] Hall].
    pose proof (process_toggles_cell w (toggles g) i Hwf Hi) as Hc.
    unfold no_reset in Hr. rewrite Hp, Hr in Hc. cbn zeta in Hc.
    assert (Hk : keyStates (process_toggles w (toggles g)) !!! i = true).
    { unfold cell in Hc. unfold cell_step in Hc.
      destruct (keyStates (toggles g) !!! i) eqn:Ek; injection Hc as -> _ _; reflexivity. }
    pose proof (run_toggles_held ws _ i (process_toggles_wf w _ Hwf) Hi Hall Hk) as Hh.
    unfold cell in Hh. injection Hh as _ -> ->. auto.
Qed.

(** C10: with the reset key and toggle keys pressed in one frame, the
    toggle loop runs first and the reset loop after it, so all five
    toggles end the frame false; the debounce flag of each toggle key held
    in that frame is set, and such a key, still held in the next frame,
    does not flip its toggle there. *)
Theorem C10_reset_wins_in_frame (w : keyboard) (g : Globals) :
  wf_toggles (toggles g) -> pressed w GLFW_KEY_0 = true ->
  let t := toggles (processInput w g) in
  t = foldl reset_step (foldl (toggle_step w) (toggles g) (seq 0 5)) (seq 0 5) /\
  (forall i, i < 5 -> toggleStates t !!! i = false /\ get_flag i t = false) /\
  (forall i, i < 5 -> pressed w (keys !!! i) = true ->
     keyStates t !!! i = true /\
     forall w', pressed w' (keys !!! i) = true ->
       let t' := toggles (processInput w' (processInput w g)) in
       toggleStates t' !!! i = false /\ get_flag i t' = false).
Proof.
  intros Hwf H0 t. subst t. rewrite toggles_processInput.
  assert (Hcell : forall i, i < 5 ->
            cell i (process_toggles w (toggles g)) = (pressed w (keys !!! i), false, false)).
  { intros i Hi. pose proof (process_toggles_cell w (toggles g) i Hwf Hi) as Hc.
    rewrite H0 in Hc. cbn zeta in Hc. rewrite Hc.
    destruct (cell i (toggles g)) as [[k s] f]. unfold cell_step, cell_reset.
    destruct (pressed w (keys !!! i)); [ destruct k | ]; reflexivity. }
  split; [ | split ].
  - unfold process_toggles. rewrite H0. reflexivity.
  - intros i Hi. specialize (Hcell i Hi). unfold cell in Hcell.
    injection Hcell as _ -> ->. auto.
  - intros i Hi Hp. pose proof (Hcell i Hi) as Hc. rewrite Hp in Hc.
    split.
    + unfold cell in Hc. injection Hc as -> _ _. reflexivity.
    + intros w' Hp' t'. subst t'. rewrite !toggles_processInput.
      pose proof (process_toggles_cell w' _ i (process_toggles_wf w _ Hwf) Hi) as Hc'.
      rewrite Hc, Hp' in Hc'. cbn [cell_step] in Hc'. cbn zeta in Hc'.
      unfold cell in Hc'.
      destruct (pressed w' GLFW_KEY_0); cbn [cell_reset] in Hc'; injection Hc' as _ -> ->; auto.
Qed.

End Toggling.

(** ** The mouse callback outside capture mode, the exit codes, the mesh *)

Section Control.
Context {A : Arith}.

(** Capture mode is the flag [leftMousePressed]: set by a press of the
    left button, cleared by its release, untouched by anything else. *)
Lemma capture_after_button (button : mouse_button) (act : action) (g : Globals) :
  leftMousePressed (mouse (mouse_button_callback button act g)) =
  if bool_decide (button = GLFW_MOUSE_BUTTON_LEFT) then
    if bool_decide (act = GLFW_PRESS) then true
    else if bool_decide (act = GLFW_RELEASE) then false
    else leftMousePressed (mouse g)
  else leftMousePressed (mouse g).
Proof.
  unfold mouse_button_callback.
  repeat (match goal with |- context [bool_decide ?P] => destruct (bool_decide P) end);
    reflexivity.
Qed.

(** C9: a mouse-move event delivered while the left button is not
    pressed changes nothing: the globals are returned as they were, and
    so are yaw, pitch, the front vector and the last cursor position. *)
Theorem C9_mouse_ignored_without_capture (xpos ypos : double) (g : Globals) :
  leftMousePressed (mouse g) = false ->
  let g' := mouse_callback xpos ypos g in
  g' = g /\
  yaw (mouse g') = yaw (mouse g) /\
  pitch (mouse g') = pitch (mouse g) /\
  cameraFront (camera g') = cameraFront (camera g) /\
  lastX (mouse g') = lastX (mouse g) /\
  lastY (mouse g') = lastY (mouse g).
Proof.
  intros Hcap g'. subst g'. unfold mouse_callback. rewrite Hcap. cbn [negb].
  repeat split.
Qed.

(** C8: [main] returns a nonzero code after printing its message when
    the window cannot be created, and when the window exists but the
    loader fails; it returns zero when the render loop has run until the
    close request. *)
Theorem C8_exit_codes (env : environment) :
  (window_created env = false ->
     exit_code (main env) <> 0%Z /\
     stdout (main env) = ["Failed to create GLFW window"%string]) /\
  (window_created env = true -> loader_ok env = false ->
     exit_code (main env) <> 0%Z /\
     stdout (main env) = ["Failed to initialize GLAD"%string]) /\
  (window_created env = true -> loader_ok env = true ->
     exit_code (main env) = 0%Z).
Proof.
  unfold main. split; [ | split ].
  - intros Hw. rewrite Hw. split; [ discriminate | reflexivity ].
  - intros Hw Hl. rewrite Hw, Hl. split; [ discriminate | reflexivity ].
  - intros Hw Hl. rewrite Hw, Hl. cbn [negb].
    destruct (foldl render_frame _ _). reflexivity.
Qed.

Lemma render_loop_calls (fs : list frame) (g : Globals) (calls : list gl_call) :
  snd (foldl render_frame (g, calls) fs) =
  calls ++ replicate (length fs) (glDrawArrays 0 36).
Proof.
  revert g calls. induction fs as [|f fs IH]; intros g calls; cbn [foldl length replicate].
  - rewrite app_nil_r. reflexivity.
  - cbn [render_frame]. rewrite IH, <- app_assoc. reflexivity.
Qed.

(** C1: the array uploaded at startup holds 180 floats, thirty vertices
    of six floats (five faces of the cube, the top face is not listed),
    and every iteration of the render loop asks for thirty-six vertices
    of it. *)
Theorem C1_mesh_has_30_vertices_draw_asks_36 :
  length vertices = 180 /\ vertex_count = 30 /\
  forall fs : list frame,
    gl_calls (main {| window_created := true; loader_ok := true; frames := fs |}) =
    [glBufferData vertices; glVertexAttribPointer 0 3 floats_per_vertex 0;
     glVertexAttribPointer 1 3 floats_per_vertex 3] ++
    replicate (length fs) (glDrawArrays 0 36).
Proof.
  assert (Hlen : length vertices = 180).
  { unfold vertices. rewrite length_map. reflexivity. }
  split; [ exact Hlen | split ].
  - unfold vertex_count. rewrite Hlen. reflexivity.
  - intros fs. unfold main. cbn [window_created loader_ok frames negb].
    pose proof (render_loop_calls fs init
                  [glBufferData vertices; glVertexAttribPointer 0 3 6 0;
                   glVertexAttribPointer 1 3 6 3]) as Hcalls.
    destruct (foldl render_frame _ fs) as [g calls]. exact Hcalls.
Qed.

End Control.

(** ** The pitch clamp and the first mouse sample, in binary32 *)

Module IEEE_facts.
Import IEEE.

Section Rounding.
Variables prec emax : Z.

Lemma shr_1_nonneg (mrs : shr_record) :
  (0 <= shr_m mrs)%Z -> (0 <= shr_m (shr_1 mrs))%Z.
Proof.
  destruct mrs as [m r s]. cbn [shr_m]. intros Hm.
  destruct m as [|p|p]; [ | destruct p | lia ]; cbn; lia.
Qed.

Lemma iter_shr_1_nonneg (p : positive) (mrs : shr_record) :
  (0 <= shr_m mrs)%Z -> (0 <= shr_m (SpecFloat.iter_pos shr_1 p mrs))%Z.
Proof.
  revert mrs. induction p as [p IH|p IH|]; intros mrs Hm; cbn [SpecFloat.iter_pos].
  - apply IH, IH, shr_1_nonneg, Hm.
  - apply IH, IH, Hm.
  - apply shr_1_nonneg, Hm.
Qed.

Lemma shr_nonneg (mrs : shr_record) (e n : Z) :
  (0 <= shr_m mrs)%Z -> (0 <= shr_m (fst (shr mrs e n)))%Z.
Proof.
  intros Hm. unfold shr. destruct n; cbn [fst]; auto using iter_shr_1_nonneg.
Qed.

Lemma shr_fexp_nonneg (m e : Z) (l : location) :
  (0 <= m)%Z -> (0 <= shr_m (fst (shr_fexp prec emax m e l)))%Z.
Proof.
  intros Hm. unfold shr_fexp. apply shr_nonneg.
  destruct l as [|[ | | ]]; exact Hm.
Qed.

Lemma round_nearest_even_nonneg (m : Z) (l : location) :
  (0 <= m)%Z -> (0 <= round_nearest_even m l)%Z.
Proof.
  intros Hm. unfold round_nearest_even.
  destruct l as [|[ | | ]]; [ | destruct (Z.even m) | | ]; lia.
Qed.

(** Rounding a nonnegative mantissa gives a zero, a finite value or an
    infinity. *)
Lemma binary_round_aux_not_nan (sx : bool) (mx ex : Z) (lx : location) :
  (0 <= mx)%Z -> is_nan (binary_round_aux prec emax sx mx ex lx) = false.
Proof.
  intros Hm. unfold binary_round_aux.
  pose proof (shr_fexp_nonneg mx ex lx Hm) as H1.
  destruct (shr_fexp prec emax mx ex lx) as [mrs' e']. cbn [fst] in H1.
  pose proof (shr_fexp_nonneg _ e' loc_Exact
                (round_nearest_even_nonneg _ (loc_of_shr_record mrs') H1)) as H2.
  destruct (shr_fexp prec emax _ e' loc_Exact) as [mrs'' e'']. cbn [fst] in H2.
  destruct (shr_m mrs'') as [|p|p]; [ reflexivity | | lia ].
  destruct (e'' <=? emax - prec)%Z; reflexivity.
Qed.

Lemma binary_round_not_nan (sx : bool) (mx : positive) (ex : Z) :
  is_nan (binary_round prec emax sx mx ex) = false.
Proof.
  unfold binary_round. destruct (shl_align mx ex _) as [mz ez].
  apply binary_round_aux_not_nan. lia.
Qed.

Lemma binary_normalize_not_nan (m e : Z) (szero : bool) :
  is_nan (binary_normalize prec emax m e szero) = false.
Proof.
  unfold binary_normalize. destruct m; auto using binary_round_not_nan.
Qed.

Lemma convert_not_nan (x : spec_float) :
  is_nan x = false -> is_nan (convert prec emax x) = false.
Proof.
  destruct x; cbn [convert]; auto using binary_round_not_nan.
Qed.

(** A difference is NaN only for a NaN operand or two infinities. *)
Lemma SFsub_not_nan_r (x y : spec_float) :
  is_nan x = false -> is_finite y = true -> is_nan (SFsub prec emax x y) = false.
Proof.
  destruct x as [sx|sx| |sx mx ex], y as [sy|sy| |sy my ey]; cbn; try discriminate;
    intros _ _; try reflexivity.
  - destruct sx, sy; reflexivity.
  - apply binary_normalize_not_nan.
Qed.

Lemma SFsub_not_nan_l (x y : spec_float) :
  is_finite x = true -> is_nan y = false -> is_nan (SFsub prec emax x y) = false.
Proof.
  destruct x as [sx|sx| |sx mx ex], y as [sy|sy| |sy my ey]; cbn; try discriminate;
    intros _ _; try reflexivity.
  - destruct sx, sy; reflexivity.
  - apply binary_normalize_not_nan.
Qed.

(** A sum with a finite operand is NaN only if the other operand is. *)
Lemma SFadd_not_nan (x y : spec_float) :
  is_finite x = true -> is_nan y = false -> is_nan (SFadd prec emax x y) = false.
Proof.
  destruct x as [sx|sx| |sx mx ex], y as [sy|sy| |sy my ey]; cbn; try discriminate;
    intros _ _; try reflexivity.
  - destruct sx, sy; reflexivity.
  - apply binary_normalize_not_nan.
Qed.

(** A product with a finite nonzero factor is NaN only if the other
    factor is. *)
Lemma SFmul_not_nan (x : spec_float) (sy : bool) (my : positive) (ey : Z) :
  is_nan x = false -> is_nan (SFmul prec emax x (S754_finite sy my ey)) = false.
Proof.
  destruct x as [sx|sx| |sx mx ex]; cbn [SFmul is_nan]; try discriminate;
    intros _; try reflexivity.
  apply binary_round_aux_not_nan. lia.
Qed.

End Rounding.

(** The literals of the program in binary32: [0.1f] is 0x3DCCCCCD,
    [89.0f] is 0x42B20000, [2.5f] is 0x40200000, and the factor of
    [glm::radians] is 0x3C8EFA35. *)
Lemma literals_binary32 :
  of_Q 24 128 0.1 = S754_finite false 13421773 (-27) /\
  of_Q 24 128 89.0 = S754_finite false 11665408 (-17) /\
  of_Q 24 128 2.5 = S754_finite false 10485760 (-22) /\
  of_Q 24 128 0.01745329251994329576923690768489 = S754_finite false 9370165 (-29).
Proof. repeat split; vm_compute; reflexivity. Qed.

Lemma SFcompare_antisym (x y : spec_float) :
  SFcompare y x = option_map CompOpp (SFcompare x y).
Proof.
  destruct x as [sx|sx| |sx mx ex], y as [sy|sy| |sy my ey]; cbn;
    try reflexivity; try (destruct sx; reflexivity); try (destruct sy; reflexivity);
    try (destruct sx, sy; reflexivity).
  f_equal.
  pose proof (Z.compare_antisym ex ey) as HZ.
  pose proof (Pos.compare_cont_antisym mx my Eq) as HP. cbn [CompOpp] in HP.
  change (Pos.compare_cont Eq my mx) with (PosDef.Pos.compare_cont Eq my mx) in HP.
  change (Pos.compare_cont Eq mx my) with (PosDef.Pos.compare_cont Eq mx my) in HP.
  rewrite HZ, <- HP.
  destruct sx, sy, (ex ?= ey)%Z, (PosDef.Pos.compare_cont Eq mx my); reflexivity.
Qed.

(** For an operand that is not NaN, [not (y < x)] is [x <= y]. *)
Lemma SFleb_of_not_ltb (x y : spec_float) :
  is_nan x = false -> is_nan y = false -> SFltb y x = false -> SFleb x y = true.
Proof.
  intros Hx Hy. unfold SFltb, SFleb. rewrite (SFcompare_antisym x y).
  destruct x as [sx|sx| |sx mx ex]; try discriminate;
    destruct y as [sy|sy| |sy my ey]; try discriminate;
    destruct (SFcompare _ _) as [[ | | ]|] eqn:Ec; cbn; try reflexivity; try discriminate;
    cbn in Ec; try discriminate; try (destruct sx; discriminate);
    try (destruct sy; discriminate); try (destruct sx, sy; discriminate).
Qed.

(** A value between two finite bounds is finite. *)
Lemma between_finite (lo hi x : spec_float) :
  is_finite lo = true -> is_finite hi = true ->
  between lo hi x = true -> is_finite x = true.
Proof.
  unfold between, SFleb. intros Hlo Hhi Hb.
  apply andb_prop in Hb as [H1 H2].
  destruct x as [sx|sx| |sx mx ex]; try reflexivity.
  - destruct sx.
    + destruct lo as [s|s| |s m e]; try discriminate; destruct s; discriminate.
    + destruct hi as [s|s| |s m e]; try discriminate; destruct s; discriminate.
  - destruct lo; discriminate.
Qed.

End IEEE_facts.

Section MouseFacts.
Context {A : Arith}.

Lemma pitch_mouse_callback (xpos ypos : double) (g : Globals) :
  leftMousePressed (mouse g) = true ->
  pitch (mouse (mouse_callback xpos ypos g)) =
  clamp_pitch (fadd (pitch (mouse g))
                    (fmul (to_float (dsub (to_double (baseline_y ypos (mouse g))) ypos))
                          (flit 0.1))).
Proof.
  intros Hcap. unfold mouse_callback, clamp_pitch, baseline_y. rewrite Hcap. cbn [negb].
  destruct (firstMouse (mouse g)); cbn;
    (match goal with |- context [fgtb ?a ?b] => destruct (fgtb a b) end); cbn;
    (match goal with |- context [fltb ?a ?b] => destruct (fltb a b) end); reflexivity.
Qed.

Lemma lastY_mouse_callback (xpos ypos : double) (g : Globals) :
  leftMousePressed (mouse g) = true ->
  lastY (mouse (mouse_callback xpos ypos g)) = to_float ypos.
Proof.
  intros Hcap. unfold mouse_callback. rewrite Hcap. cbn [negb].
  destruct (firstMouse (mouse g)); cbn;
    repeat (match goal with |- context [if ?c then _ else _] => destruct c; cbn end);
    reflexivity.
Qed.

Lemma mouse_button_callback_pitch_lastY (button : mouse_button) (act : action) (g : Globals) :
  pitch (mouse (mouse_button_callback button act g)) = pitch (mouse g) /\
  lastY (mouse (mouse_button_callback button act g)) = lastY (mouse g).
Proof.
  unfold mouse_button_callback.
  repeat (match goal with |- context [bool_decide ?P] => destruct (bool_decide P) end);
    split; reflexivity.
Qed.

End MouseFacts.

Section Binary32.
Import IEEE IEEE_facts.
Context {L : Libm}.
#[local] Existing Instance F32.

Lemma clamp_pitch_between (p : spec_float) :
  is_nan p = false ->
  between (fopp (flit 89.0)) (flit 89.0) (clamp_pitch p) = true.
Proof.
  intros Hp. unfold clamp_pitch, fgtb. cbn [fltb fopp flit F32].
  destruct (SFltb (of_Q 24 128 89.0) p) eqn:Hgt.
  - vm_compute. reflexivity.
  - destruct (SFltb p (SFopp (of_Q 24 128 89.0))) eqn:Hlt.
    + vm_compute. reflexivity.
    + unfold between. apply andb_true_intro. split.
      * apply SFleb_of_not_ltb; [ reflexivity | exact Hp | exact Hlt ].
      * apply SFleb_of_not_ltb; [ exact Hp | reflexivity | exact Hgt ].
Qed.

Lemma mouse_inv_init : mouse_inv init.
Proof. split; vm_compute; reflexivity. Qed.

Lemma mouse_inv_dispatch (g : Globals) (e : event) :
  finite_event e -> mouse_inv g -> mouse_inv (dispatch g e).
Proof.
  intros He [Hp Hl]. destruct e as [xpos ypos|button act]; cbn [dispatch finite_event] in *.
  - destruct (leftMousePressed (mouse g)) eqn:Hcap.
    + assert (Hy : is_nan ypos = false) by (destruct ypos; try reflexivity; discriminate He).
      split.
      * unfold pitch_in_range. rewrite pitch_mouse_callback by assumption.
        apply clamp_pitch_between.
        cbn [fadd fmul to_float to_double dsub flit F32].
        apply SFadd_not_nan.
        { unfold pitch_in_range in Hp. eapply between_finite; [ | | exact Hp ]; reflexivity. }
        change (of_Q 24 128 0.1) with (S754_finite false 13421773 (-27)).
        apply SFmul_not_nan, convert_not_nan, SFsub_not_nan_r; [ | exact He ].
        apply convert_not_nan. unfold baseline_y.
        destruct (firstMouse (mouse g)); [ apply convert_not_nan, Hy | exact Hl ].
      * rewrite lastY_mouse_callback by assumption. apply convert_not_nan, Hy.
    + unfold mouse_callback. rewrite Hcap. split; assumption.
  - destruct (mouse_button_callback_pitch_lastY button act g) as [E1 E2].
    unfold mouse_inv, pitch_in_range. rewrite E1, E2. split; assumption.
Qed.

Lemma mouse_inv_run (es : list event) (g : Globals) :
  Forall finite_event es -> mouse_inv g -> mouse_inv (foldl dispatch g es).
Proof.
  revert g. induction es as [|e es IH]; intros g Hall Hinv; cbn [foldl]; [ exact Hinv | ].
  apply Forall_cons in Hall as [He Hall]. apply IH; auto using mouse_inv_dispatch.
Qed.

(** The hypothesis on the ordinates is needed: a NaN ordinate makes the
    offset NaN, both comparisons of the clamp answer false, and the pitch
    is NaN. *)
Lemma pitch_nan_ordinate :
  let g0 := mouse_button_callback GLFW_MOUSE_BUTTON_LEFT GLFW_PRESS init in
  is_nan (pitch (mouse (mouse_callback (dlit 400) S754_nan g0))) = true.
Proof. vm_compute. reflexivity. Qed.

(** C3: over every sequence of mouse events with finite cursor
    coordinates, from the initial state, the pitch after each event is a
    binary32 value between -89 and 89. *)
Theorem C3_pitch_clamped (es : list event) (n : nat) :
  Forall finite_event es ->
  pitch_in_range (foldl dispatch init (take n es)).
Proof.
  intros Hall. apply mouse_inv_run; [ | exact mouse_inv_init ].
  apply Forall_take, Hall.
Qed.


End Binary32.

(** ** Camera geometry, in exact arithmetic *)

Section CameraFacts.
Context {A : Arith}.

Lemma cameraFront_mouse_callback (xpos ypos : double) (g : Globals) :
  leftMousePressed (mouse g) = true ->
  let g' := mouse_callback xpos ypos g in
  cameraFront (camera g') = normalize (front_of (yaw (mouse g')) (pitch (mouse g'))).
Proof.
  intros Hcap g'. subst g'. unfold mouse_callback. rewrite Hcap. reflexivity.
Qed.

Lemma move_camera_front_up (w : keyboard) (s : float) (c : Camera) :
  cameraFront (move_camera w s c) = cameraFront c /\
  cameraUp (move_camera w s c) = cameraUp c.
Proof.
  unfold move_camera.
  destruct (pressed w GLFW_KEY_W), (pressed w GLFW_KEY_S),
           (pressed w GLFW_KEY_A), (pressed w GLFW_KEY_D); split; reflexivity.
Qed.

Lemma camera_frame (w : keyboard) (time : double) (g : Globals) :
  camera (processInput w (begin_frame time g)) =
  move_camera w (fmul (flit 2.5) (fsub (to_float time) (lastFrame (clock g)))) (camera g).
Proof. reflexivity. Qed.

Lemma lastFrame_frame (w : keyboard) (time : double) (g : Globals) :
  lastFrame (clock (processInput w (begin_frame time g))) = to_float time.
Proof. reflexivity. Qed.

End CameraFacts.

Section Reals.
#[local] Existing Instance Exact.
Local Open Scope R_scope.

(** Componentwise equations of vectors are equations of real numbers. *)
Ltac real_ring := cbn; apply Rminus_diag_uniq; ring.

Lemma vec3_eq (a b : vec3) :
  vx a = vx b -> vy a = vy b -> vz a = vz b -> a = b.
Proof. destruct a, b; cbn; intros -> -> ->; reflexivity. Qed.

Lemma flit_1 : flit 1 = 1.
Proof. cbn. unfold Q2R. cbn. lra. Qed.

Lemma spherical_unit (sy cy sp cp : R) :
  sy * sy + cy * cy = 1 -> sp * sp + cp * cp = 1 ->
  cy * cp * (cy * cp) + sp * sp + sy * cp * (sy * cp) = 1.
Proof.
  intros Hy Hp.
  replace (cy * cp * (cy * cp) + sp * sp + sy * cp * (sy * cp))
    with (cp * cp * (sy * sy + cy * cy) + sp * sp) by ring.
  rewrite Hy. lra.
Qed.

(** The direction built from yaw and pitch has squared length 1. *)
Lemma front_of_dot (y p : R) : dot (front_of y p) (front_of y p) = 1.
Proof.
  exact (spherical_unit _ _ _ _ (sin2_cos2 (@radians Exact y)) (sin2_cos2 (@radians Exact p))).
Qed.

Lemma normalize_unit (v : vec3) : dot v v = 1 -> normalize v = v /\ vlength v = 1.
Proof.
  intros Hv. unfold vlength. rewrite Hv.
  change (@fsqrt Exact 1) with (sqrt 1). rewrite sqrt_1. split; [ | reflexivity ].
  unfold normalize, inversesqrt. rewrite Hv, flit_1.
  change (@fsqrt Exact 1) with (sqrt 1). rewrite sqrt_1.
  apply vec3_eq; cbn; field.
Qed.

Lemma move_camera_axis (k : key) (w : keyboard) (s : R) (c : Camera) :
  holds_only k w ->
  cameraPos (move_camera w s c) = vadd (cameraPos c) (smul s (axis k c)).
Proof.
  intros [Hk Hw]. unfold move_camera.
  rewrite (Hw GLFW_KEY_W), (Hw GLFW_KEY_S), (Hw GLFW_KEY_A), (Hw GLFW_KEY_D)
    by (cbn; auto).
  cbn in Hk. destruct Hk as [<-|[<-|[<-|[<-|[]]]]];
    repeat first [ rewrite bool_decide_eq_true_2 by reflexivity
                 | rewrite bool_decide_eq_false_2 by discriminate ];
    apply vec3_eq; real_ring.
Qed.

Lemma hold_position (k : key) (w : keyboard) (dts : list R) (g : Globals) :
  holds_only k w ->
  cameraPos (camera (hold w dts g)) =
  vadd (cameraPos (camera g)) (smul (baseSpeed * total dts) (axis k (camera g))).
Proof.
  intros Hw. revert g. induction dts as [|dt dts IH]; intros g.
  - cbn [hold foldl total]. apply vec3_eq; real_ring.
  - change (hold w (dt :: dts) g)
      with (hold w dts (processInput w (begin_frame (lastFrame (clock g) + dt) g))).
    rewrite IH, camera_frame.
    set (s := fmul (flit 2.5) _).
    assert (Hax : axis k (move_camera w s (camera g)) = axis k (camera g)).
    { destruct (move_camera_front_up w s (camera g)) as [Hf Hu].
      unfold axis. rewrite Hf, Hu. reflexivity. }
    rewrite Hax, (move_camera_axis k w s (camera g) Hw).
    subst s. unfold baseSpeed. cbn [total].
    apply vec3_eq; real_ring.
Qed.

(** In exact arithmetic, with one movement key held over frames whose
    positive time steps sum to [t], the camera has moved by exactly
    [baseSpeed * t] along the axis of the key as it was at the start, the
    front vector is unchanged, and any two runs whose steps have the same
    sum end at the same position: the displacement does not depend on how
    [t] is partitioned into frames. *)
Lemma hold_displacement
    (k : key) (w : keyboard) (t : R) (dts : list R) (g : Globals) :
  holds_only k w -> Forall (fun dt => 0 < dt) dts -> total dts = t ->
  cameraPos (camera (hold w dts g)) =
    vadd (cameraPos (camera g)) (smul (baseSpeed * t) (axis k (camera g))) /\
  cameraFront (camera (hold w dts g)) = cameraFront (camera g) /\
  forall dts', Forall (fun dt => 0 < dt) dts' -> total dts' = t ->
    cameraPos (camera (hold w dts' g)) = cameraPos (camera (hold w dts g)).
Proof.
  intros Hw _ Ht. split; [ | split ].
  - rewrite <- Ht. apply hold_position, Hw.
  - clear Ht. revert g. induction dts as [|dt dts IH]; intros g; [ reflexivity | ].
    change (hold w (dt :: dts) g)
      with (hold w dts (processInput w (begin_frame (lastFrame (clock g) + dt) g))).
    rewrite IH, camera_frame. apply move_camera_front_up.
  - intros dts' _ Ht'. rewrite !(hold_position k w) by exact Hw.
    rewrite Ht, Ht'. reflexivity.
Qed.

End Reals.

(** * Rounding errors in binary32 *)

(** Every operation of [SpecFloat] rounds the exact result to the format,
    to nearest and ties to even.  What the properties of the
    floating-point program need of that is the standard bound: a finite
    result differs from the exact one by at most the unit roundoff
    relative to it, or by [eta] where it is subnormal.  The bound is
    proved here from the definitions of [SpecFloat], for multiplication,
    addition, square root and division in any format, and then carried
    through [glm::dot], [glm::inversesqrt] and [glm::normalize] in
    binary32. *)

Module Rounding_facts.
Import Rounding.

Local Open Scope R_scope.

Lemma Rabs_bounds (x a : R) : Rabs x <= a -> - a <= x <= a.
Proof. unfold Rabs. destruct (Rcase_abs x); lra. Qed.

(** ** Powers of two *)

Lemma p2_pos (e : Z) : 0 < p2 e.
Proof. apply powerRZ_lt. lra. Qed.

Lemma p2_add (a b : Z) : p2 (a + b) = p2 a * p2 b.
Proof. apply powerRZ_add. lra. Qed.

Lemma p2_0 : p2 0 = 1.
Proof. reflexivity. Qed.

Lemma p2_1 : p2 1 = 2.
Proof. exact (powerRZ_1 2). Qed.

Lemma p2_opp (a : Z) : p2 (- a) = / p2 a.
Proof. apply powerRZ_neg'. Qed.

Lemma p2_sub (a b : Z) : p2 (a - b) = p2 a / p2 b.
Proof. unfold Z.sub. rewrite p2_add, p2_opp. reflexivity. Qed.

Lemma p2_succ (a : Z) : p2 (a + 1) = 2 * p2 a.
Proof. rewrite p2_add, p2_1. lra. Qed.

Lemma p2_pred (a : Z) : p2 (a - 1) = p2 a / 2.
Proof. rewrite p2_sub, p2_1. reflexivity. Qed.

Lemma p2_le (a b : Z) : (a <= b)%Z -> p2 a <= p2 b.
Proof.
  intros H. replace b with (a + (b - a))%Z by lia. rewrite p2_add.
  assert (H1 : 1 <= p2 (b - a)).
  { assert (Hn : (0 <= b - a)%Z) by lia. revert Hn. generalize (b - a)%Z.
    intros n Hn. pattern n. apply natlike_ind; [ rewrite p2_0; lra | | exact Hn ].
    intros k Hk IH. unfold Z.succ. rewrite p2_succ. lra. }
  pose proof (p2_pos a). nra.
Qed.

Lemma p2_lt (a b : Z) : (a < b)%Z -> p2 a < p2 b.
Proof.
  intros H. assert (H1 : p2 (a + 1) <= p2 b) by (apply p2_le; lia).
  rewrite p2_succ in H1. pose proof (p2_pos a). lra.
Qed.

Lemma p2_IZR (k : Z) : (0 <= k)%Z -> IZR (2 ^ k) = p2 k.
Proof.
  intros Hk. pattern k. apply natlike_ind; [ reflexivity | | exact Hk ].
  intros n Hn IH. rewrite Z.pow_succ_r by exact Hn. rewrite mult_IZR, IH.
  unfold Z.succ. rewrite p2_succ. reflexivity.
Qed.

(** ** Digits *)

Lemma digits2_pos_spec (p : positive) :
  (2 ^ (Zpos (digits2_pos p) - 1) <= Zpos p < 2 ^ Zpos (digits2_pos p))%Z.
Proof.
  induction p as [p IH|p IH|]; cbn [digits2_pos].
  - rewrite Pos2Z.inj_succ. replace (Z.succ (Zpos (digits2_pos p)) - 1)%Z
      with (Z.succ (Zpos (digits2_pos p) - 1)) by lia.
    rewrite !Z.pow_succ_r by lia. lia.
  - rewrite Pos2Z.inj_succ. replace (Z.succ (Zpos (digits2_pos p)) - 1)%Z
      with (Z.succ (Zpos (digits2_pos p) - 1)) by lia.
    rewrite !Z.pow_succ_r by lia. lia.
  - cbn. lia.
Qed.

Lemma Zdigits2_spec (m : Z) :
  (0 < m)%Z -> (2 ^ (Zdigits2 m - 1) <= m < 2 ^ Zdigits2 m)%Z.
Proof. destruct m as [|p|p]; try lia. intros _. apply digits2_pos_spec. Qed.

Lemma Zdigits2_pos (m : Z) : (0 < m)%Z -> (0 < Zdigits2 m)%Z.
Proof. destruct m; cbn; lia. Qed.

Lemma Zdigits2_nonneg (m : Z) : (0 <= Zdigits2 m)%Z.
Proof. destruct m; cbn; lia. Qed.

Lemma Zdigits2_unique (m k : Z) :
  (0 < m)%Z -> (2 ^ (k - 1) <= m < 2 ^ k)%Z -> Zdigits2 m = k.
Proof.
  intros Hm [Hlo Hhi]. pose proof (Zdigits2_spec m Hm) as [Dlo Dhi].
  pose proof (Zdigits2_pos m Hm) as Dpos.
  assert (Hk : (0 < k)%Z).
  { destruct (Z_lt_le_dec 0 k) as [|Hle]; [ assumption | ].
    assert (2 ^ k <= 1)%Z.
    { destruct (Z.eq_dec k 0%Z) as [->|]; [ cbn; lia | ].
      rewrite Z.pow_neg_r by lia. lia. }
    lia. }
  destruct (Z_lt_le_dec (Zdigits2 m) k) as [Hlt|Hge].
  - assert (2 ^ Zdigits2 m <= 2 ^ (k - 1))%Z by (apply Z.pow_le_mono_r; lia). lia.
  - destruct (Z_lt_le_dec k (Zdigits2 m)) as [Hlt|Hle]; [ | lia ].
    assert (2 ^ k <= 2 ^ (Zdigits2 m - 1))%Z by (apply Z.pow_le_mono_r; lia). lia.
Qed.

Lemma Zdigits2_le (m k : Z) : (0 <= k)%Z -> (m < 2 ^ k)%Z -> (0 <= m)%Z -> (Zdigits2 m <= k)%Z.
Proof.
  intros Hk Hm H0. destruct (Z.eq_dec m 0%Z) as [->|Hne]; [ cbn; lia | ].
  pose proof (Zdigits2_spec m ltac:(lia)) as [Dlo _].
  destruct (Z_lt_le_dec k (Zdigits2 m)) as [Hlt|]; [ | lia ].
  assert (2 ^ k <= 2 ^ (Zdigits2 m - 1))%Z by (apply Z.pow_le_mono_r; lia). lia.
Qed.

Lemma Zdigits2_ge (m k : Z) : (2 ^ k <= m)%Z -> (0 <= k)%Z -> (k + 1 <= Zdigits2 m)%Z.
Proof.
  intros Hm Hk. assert (H0 : (0 < m)%Z) by (pose proof (Z.pow_pos_nonneg 2 k); lia).
  pose proof (Zdigits2_spec m H0) as [_ Dhi].
  destruct (Z_lt_le_dec (Zdigits2 m) (k + 1)) as [Hlt|]; [ | lia ].
  assert (2 ^ Zdigits2 m <= 2 ^ k)%Z by (apply Z.pow_le_mono_r; lia). lia.
Qed.

(** ** Shifting right with round and sticky bits *)



Lemma shr_1_spec (m : Z) (r s : bool) :
  (0 <= m)%Z ->
  shr_1 (Build_shr_record m r s) = Build_shr_record (Z.div2 m) (Z.odd m) (r || s).
Proof. destruct m as [|[p|p|]|p]; intros H; try lia; reflexivity. Qed.

Lemma located_shr_1 (x : R) (mrs : shr_record) :
  located x mrs -> located (x / 2) (shr_1 mrs).
Proof.
  destruct mrs as [m r s]. intros [Hm Hx]. cbn [shr_m shr_r shr_s] in *.
  rewrite shr_1_spec by exact Hm. split; cbn [shr_m shr_r shr_s].
  - apply Z.div2_nonneg, Hm.
  - pose proof (Z.div2_odd m) as E. apply (f_equal IZR) in E.
    rewrite plus_IZR, mult_IZR in E.
    unfold inbetween in *.
    destruct r, s, (Z.odd m); cbn [orb Z.b2z] in *; lra.
Qed.

Lemma shr_m_shr_1 (mrs : shr_record) :
  (0 <= shr_m mrs)%Z -> shr_m (shr_1 mrs) = (shr_m mrs / 2)%Z.
Proof.
  destruct mrs as [m r s]. cbn [shr_m]. intros Hm.
  rewrite shr_1_spec by exact Hm. cbn [shr_m]. apply Z.div2_div.
Qed.

Lemma located_iter (p : positive) :
  forall (x : R) (mrs : shr_record),
  located x mrs ->
  located (x / p2 (Zpos p)) (SpecFloat.iter_pos shr_1 p mrs) /\
  shr_m (SpecFloat.iter_pos shr_1 p mrs) = (shr_m mrs / 2 ^ Zpos p)%Z.
Proof.
  induction p as [p IH|p IH|]; intros x mrs Hx; cbn [SpecFloat.iter_pos].
  - pose proof (located_shr_1 x mrs Hx) as H1.
    destruct (IH _ _ H1) as [H2 M2]. destruct (IH _ _ H2) as [H3 M3].
    split.
    + replace (x / p2 (Zpos p~1)) with (x / 2 / p2 (Zpos p) / p2 (Zpos p)); [ exact H3 | ].
      replace (Zpos p~1) with (Zpos p + Zpos p + 1)%Z by lia.
      rewrite p2_succ, p2_add. pose proof (p2_pos (Zpos p)). field. lra.
    + rewrite M3, M2, shr_m_shr_1 by apply Hx.
      rewrite !Z.div_div by (try lia; apply Z.pow_pos_nonneg; lia).
      f_equal. replace (Zpos p~1) with (1 + Zpos p + Zpos p)%Z by lia.
      rewrite !Z.pow_add_r by lia. lia.
  - destruct (IH _ _ Hx) as [H2 M2]. destruct (IH _ _ H2) as [H3 M3].
    split.
    + replace (x / p2 (Zpos p~0)) with (x / p2 (Zpos p) / p2 (Zpos p)); [ exact H3 | ].
      replace (Zpos p~0) with (Zpos p + Zpos p)%Z by lia.
      rewrite p2_add. pose proof (p2_pos (Zpos p)). field. lra.
    + rewrite M3, M2.
      rewrite !Z.div_div by (try lia; apply Z.pow_pos_nonneg; lia).
      f_equal. replace (Zpos p~0) with (Zpos p + Zpos p)%Z by lia.
      rewrite !Z.pow_add_r by lia. lia.
  - split.
    + rewrite p2_1. apply located_shr_1, Hx.
    + rewrite shr_m_shr_1 by apply Hx. reflexivity.
Qed.

Lemma loc_of_shr_record_of_loc (m : Z) (l : location) :
  loc_of_shr_record (shr_record_of_loc m l) = l.
Proof. destruct l as [|[| |]]; reflexivity. Qed.

Lemma shr_m_of_loc (m : Z) (l : location) : shr_m (shr_record_of_loc m l) = m.
Proof. destruct l as [|[| |]]; reflexivity. Qed.

Lemma round_nearest_even_near (x : R) (mrs : shr_record) :
  located x mrs ->
  let m' := round_nearest_even (shr_m mrs) (loc_of_shr_record mrs) in
  Rabs (IZR m' - x) <= / 2 /\ (shr_m mrs <= m' <= shr_m mrs + 1)%Z /\
  (x = IZR (shr_m mrs) -> m' = shr_m mrs).
Proof.
  destruct mrs as [m r s]. intros [Hm Hx]. cbn [shr_m shr_r shr_s] in *.
  unfold inbetween in Hx.
  destruct r, s; cbn [loc_of_shr_record round_nearest_even].
  - rewrite plus_IZR. split; [ apply Rabs_le; lra | split; [ lia | intros; lra ] ].
  - destruct (Z.even m).
    + split; [ apply Rabs_le; lra | split; [ lia | reflexivity ] ].
    + rewrite plus_IZR. split; [ apply Rabs_le; lra | split; [ lia | intros; lra ] ].
  - split; [ apply Rabs_le; lra | split; [ lia | reflexivity ] ].
  - split; [ apply Rabs_le; lra | split; [ lia | reflexivity ] ].
Qed.

Lemma Zdigits2_succ (m : Z) :
  (0 <= m)%Z ->
  Zdigits2 (m + 1) = Zdigits2 m \/
  (Zdigits2 (m + 1) = Zdigits2 m + 1 /\ m + 1 = 2 ^ Zdigits2 m)%Z.
Proof.
  intros Hm. destruct (Z.eq_dec m 0%Z) as [->|Hne]; [ right; split; reflexivity | ].
  pose proof (Zdigits2_spec m ltac:(lia)) as [Dlo Dhi].
  pose proof (Zdigits2_pos m ltac:(lia)) as Dpos.
  destruct (Z_lt_le_dec (m + 1) (2 ^ Zdigits2 m)) as [Hlt|Hge].
  - left. apply Zdigits2_unique; lia.
  - right. assert (E : (m + 1 = 2 ^ Zdigits2 m)%Z) by lia. split; [ | exact E ].
    apply Zdigits2_unique; [ lia | ].
    replace (Zdigits2 m + 1 - 1)%Z with (Zdigits2 m) by lia.
    rewrite Z.pow_add_r by lia. lia.
Qed.

Lemma Zdigits2_div (m n : Z) :
  (0 <= m)%Z -> (0 <= n)%Z -> (Zdigits2 (m / 2 ^ n) <= Z.max 0 (Zdigits2 m - n))%Z.
Proof.
  intros Hm Hn. destruct (Z.eq_dec m 0%Z) as [->|Hne].
  - rewrite Z.div_0_l by (pose proof (Z.pow_pos_nonneg 2 n); lia). cbn. lia.
  - pose proof (Zdigits2_spec m ltac:(lia)) as [_ Dhi].
    pose proof (Z.pow_pos_nonneg 2 n ltac:(lia) Hn) as Hp.
    assert (Hq : (0 <= m / 2 ^ n)%Z) by (apply Z.div_pos; lia).
    destruct (Z_lt_le_dec (Zdigits2 m) n) as [Hlt|Hge].
    + assert (m / 2 ^ n = 0)%Z.
      { apply Z.div_small. split; [ lia | ].
        assert (2 ^ Zdigits2 m <= 2 ^ n)%Z by (apply Z.pow_le_mono_r; lia). lia. }
      replace (m / 2 ^ n)%Z with 0%Z. cbn. lia.
    + apply Z.le_trans with (Zdigits2 m - n)%Z; [ | lia ].
      apply Zdigits2_le; [ lia | | exact Hq ].
      apply Z.div_lt_upper_bound; [ lia | ].
      rewrite <- Z.pow_add_r by lia. replace (n + (Zdigits2 m - n))%Z with (Zdigits2 m) by lia.
      exact Dhi.
Qed.


Lemma sign_xorb (a b : bool) : sign (xorb a b) = sign a * sign b.
Proof. destruct a, b; unfold sign; cbn; lra. Qed.

Lemma Rabs_sign (s : bool) (x : R) : Rabs (sign s * x) = Rabs x.
Proof.
  destruct s; unfold sign.
  - replace (-1 * x) with (- x) by ring. apply Rabs_Ropp.
  - f_equal. ring.
Qed.

(** ** Rounding to the format *)

Section Format.
Variables prec emax : Z.
Hypothesis prec_pos : (0 < prec)%Z.

Local Abbreviation fexp := (SpecFloat.fexp prec emax).
Local Abbreviation emin := (SpecFloat.emin prec emax).

Lemma fexp_mono (a b : Z) : (a <= b)%Z -> (fexp a <= fexp b)%Z.
Proof. unfold SpecFloat.fexp. lia. Qed.

Lemma fexp_emin (a : Z) : (emin <= fexp a)%Z.
Proof. unfold SpecFloat.fexp. lia. Qed.

Lemma shr_spec (x : R) (mrs : shr_record) (e n : Z) :
  located x mrs ->
  located (x / p2 (Z.max 0 n)) (fst (shr mrs e n)) /\
  snd (shr mrs e n) = (e + Z.max 0 n)%Z /\
  shr_m (fst (shr mrs e n)) = (shr_m mrs / 2 ^ Z.max 0 n)%Z.
Proof.
  intros Hx. destruct n as [|p|p]; cbn [shr fst snd].
  - rewrite Z.max_id, p2_0, Z.add_0_r, Z.pow_0_r, Z.div_1_r.
    replace (x / 1) with x by field. auto.
  - replace (Z.max 0 (Zpos p)) with (Zpos p) by lia.
    destruct (located_iter p x mrs Hx) as [H1 H2]. auto.
  - replace (Z.max 0 (Zneg p)) with 0%Z by lia.
    rewrite p2_0, Z.add_0_r, Z.pow_0_r, Z.div_1_r.
    replace (x / 1) with x by field. auto.
Qed.


Lemma binary_round_aux_spec (sx : bool) (mx ex : Z) (lx : location) (x : R) :
  located x (shr_record_of_loc mx lx) ->
  let n := Z.max 0 (fexp (Zdigits2 mx + ex) - ex) in
  exists m2 e2 : Z,
    (0 <= m2)%Z /\
    binary_round_aux prec emax sx mx ex lx = rounded prec emax sx m2 e2 /\
    Rabs (IZR m2 * p2 e2 - x * p2 ex) <= p2 (ex + n) / 2 /\
    (x = IZR mx -> n = 0%Z -> IZR m2 * p2 e2 = x * p2 ex).
Proof.
  intros Hx n.
  assert (Hn : n = Z.max 0 (fexp (Zdigits2 mx + ex) - ex)) by reflexivity. clearbody n.
  assert (Hmx : (0 <= mx)%Z) by (destruct Hx as [H _]; rewrite shr_m_of_loc in H; exact H).
  unfold binary_round_aux, shr_fexp.
  pose proof (shr_spec x (shr_record_of_loc mx lx) ex (fexp (Zdigits2 mx + ex) - ex) Hx)
    as (H1 & E1 & M1).
  rewrite <- Hn in H1, E1, M1. rewrite shr_m_of_loc in M1.
  destruct (shr (shr_record_of_loc mx lx) ex (fexp (Zdigits2 mx + ex) - ex))
    as [mrs' e'] eqn:Eshr. cbn [fst snd] in H1, E1, M1.
  pose proof (round_nearest_even_near _ _ H1) as (Hnear & Hm1 & Hexact).
  set (m1 := round_nearest_even (shr_m mrs') (loc_of_shr_record mrs')) in *.
  assert (Hm1pos : (0 <= m1)%Z) by (destruct H1 as [H _]; lia).
  (* the exponent is canonical for the shifted mantissa *)
  assert (He' : (emin <= e')%Z).
  { subst e' n. pose proof (fexp_emin (Zdigits2 mx + ex)). lia. }
  assert (Hcan : (fexp (Zdigits2 (shr_m mrs') + e') <= e')%Z).
  { rewrite M1.
    pose proof (Zdigits2_div mx n Hmx ltac:(subst n; lia)) as Hd.
    pose proof (Zdigits2_nonneg mx).
    apply Z.le_trans with (fexp (Z.max (Zdigits2 mx + ex) e')).
    - apply fexp_mono. subst e'. lia.
    - subst e' n. unfold SpecFloat.fexp in *. lia. }
  (* the second shift is by at most one place, and then of an even mantissa *)
  assert (Hsecond : (fexp (Zdigits2 m1 + e') - e' <= 0)%Z \/
                    ((fexp (Zdigits2 m1 + e') - e' = 1)%Z /\ Z.odd m1 = false)).
  { destruct (Z.eq_dec m1 (shr_m mrs')) as [->|Hne]; [ left; lia | ].
    assert (Em : (m1 = shr_m mrs' + 1)%Z) by lia.
    destruct (Zdigits2_succ (shr_m mrs') ltac:(destruct H1; assumption)) as [Ed|[Ed Ep]].
    - left. rewrite Em, Ed. lia.
    - rewrite Em, Ed.
      destruct (Z_le_gt_dec (fexp (Zdigits2 (shr_m mrs') + 1 + e') - e') 0) as [|Hgt];
        [ left; assumption | right ].
      assert (Hd : (0 < Zdigits2 (shr_m mrs'))%Z).
      { pose proof (Zdigits2_nonneg (shr_m mrs')).
        destruct (Z.eq_dec (Zdigits2 (shr_m mrs')) 0%Z) as [E0|]; [ | lia ].
        rewrite E0 in Hgt. unfold SpecFloat.fexp in Hgt. lia. }
      split.
      + unfold SpecFloat.fexp in *. lia.
      + rewrite Ep. replace (Zdigits2 (shr_m mrs')) with (Z.succ (Zdigits2 (shr_m mrs') - 1)) by lia.
        rewrite Z.pow_succ_r by lia. rewrite Z.odd_mul. reflexivity. }
  assert (Hval : x * p2 ex = x / p2 n * p2 e').
  { subst e'. rewrite p2_add. pose proof (p2_pos n). field. lra. }
  assert (Herr : Rabs (IZR m1 * p2 e' - x * p2 ex) <= p2 (ex + n) / 2).
  { rewrite Hval, <- Rmult_minus_distr_r, Rabs_mult.
    rewrite (Rabs_pos_eq (p2 e')) by (left; apply p2_pos).
    rewrite <- E1. pose proof (p2_pos e'). nra. }
  assert (Hex : x = IZR mx -> n = 0%Z -> m1 = mx).
  { intros Ex En.
    assert (Em : shr_m mrs' = mx) by (rewrite M1, En, Z.pow_0_r; apply Z.div_1_r).
    rewrite <- Em. apply Hexact. rewrite Em, En, p2_0, Ex. field. }
  destruct Hsecond as [Hle|[Heq Heven]].
  - exists m1, e'. split; [ exact Hm1pos | ].
    assert (Es : shr (shr_record_of_loc m1 loc_Exact) e' (fexp (Zdigits2 m1 + e') - e') =
                 (Build_shr_record m1 false false, e')).
    { destruct (fexp (Zdigits2 m1 + e') - e')%Z; try lia; reflexivity. }
    rewrite Es. cbn [shr_m]. split; [ reflexivity | split; [ exact Herr | ] ].
    intros Ex En. rewrite (Hex Ex En), Ex, E1.
    replace (ex + n)%Z with ex by lia. reflexivity.
  - exists (Z.div2 m1), (e' + 1)%Z. split; [ apply Z.div2_nonneg, Hm1pos | ].
    rewrite Heq. cbn [shr shr_record_of_loc SpecFloat.iter_pos].
    rewrite shr_1_spec by exact Hm1pos. cbn [shr_m].
    assert (E2 : IZR (Z.div2 m1) * p2 (e' + 1) = IZR m1 * p2 e').
    { pose proof (Z.div2_odd m1) as E. rewrite Heven in E. cbn [Z.b2z] in E.
      rewrite p2_succ. rewrite E at 2. rewrite plus_IZR, mult_IZR. lra. }
    split; [ reflexivity | rewrite E2; split; [ exact Herr | ] ].
    intros Ex En. rewrite (Hex Ex En), Ex, E1.
    replace (ex + n)%Z with ex by lia. reflexivity.
Qed.

Hypothesis emax_large : (prec < emax)%Z.


Lemma u_pos : 0 < unit_roundoff prec.
Proof. apply p2_pos. Qed.

Lemma eta_pos : 0 < eta prec emax.
Proof. apply p2_pos. Qed.

Lemma u_half : unit_roundoff prec <= / 2.
Proof.
  unfold unit_roundoff. replace (/ 2) with (p2 (-1)) by (unfold p2, powerRZ; simpl; field).
  apply p2_le. lia.
Qed.

Lemma eta_big : eta prec emax <= big prec emax / 4.
Proof.
  unfold eta, big.
  replace (p2 (emax - prec) / 4) with (p2 (emax - prec - 2)).
  - apply p2_le. unfold SpecFloat.emin. lia.
  - replace (emax - prec - 2)%Z with (emax - prec - 1 - 1)%Z by lia.
    rewrite !p2_pred. field.
Qed.

Lemma rounded_value (sx : bool) (m e : Z) :
  (0 <= m)%Z -> IZR m * p2 e < 2 * big prec emax ->
  IEEE.is_finite (rounded prec emax sx m e) = true /\ B2R (rounded prec emax sx m e) = sign sx * (IZR m * p2 e).
Proof.
  intros Hm Hv. destruct m as [|p|p]; [ | | lia ]; cbn [rounded].
  - split; [ reflexivity | cbn; ring ].
  - assert (He : (e <= emax - prec)%Z).
    { destruct (Z_le_gt_dec e (emax - prec)) as [|Hgt]; [ assumption | exfalso ].
      assert (H1 : p2 (emax - prec + 1) <= p2 e) by (apply p2_le; lia).
      rewrite p2_succ in H1. fold (big prec emax) in H1.
      assert (H2 : 1 <= IZR (Zpos p)) by (apply IZR_le; lia).
      pose proof (p2_pos e). nra. }
    apply Z.leb_le in He. rewrite He. split; reflexivity.
Qed.

(** The error of one rounding: at most the unit roundoff relative to the exact value,
    or [eta] in the subnormal range; none when the mantissa fits. *)
Lemma round_error (sx : bool) (mx ex : Z) (lx : location) (x : R) :
  located x (shr_record_of_loc mx lx) ->
  lx = loc_Exact \/ (ex <= fexp (Zdigits2 mx + ex))%Z ->
  x * p2 ex <= big prec emax ->
  let r := binary_round_aux prec emax sx mx ex lx in
  IEEE.is_finite r = true /\
  Rabs (B2R r - sign sx * (x * p2 ex)) <= unit_roundoff prec * (x * p2 ex) + eta prec emax.
Proof.
  intros Hx Hcond Hbig r.
  assert (Hmx : (0 <= mx)%Z) by (destruct Hx as [H _]; rewrite shr_m_of_loc in H; exact H).
  assert (Hxm : IZR mx <= x).
  { destruct Hx as [_ H]. rewrite shr_m_of_loc in H. unfold inbetween in H.
    destruct lx as [|[| |]]; cbn in H; lra. }
  assert (HX : 0 <= x * p2 ex).
  { apply Rmult_le_pos; [ | left; apply p2_pos ].
    apply Rle_trans with (IZR mx); [ apply IZR_le; lia | exact Hxm ]. }
  destruct (binary_round_aux_spec sx mx ex lx x Hx) as (m2 & e2 & Hm2 & Er & Herr & Hexact).
  pose proof u_pos as Hu. pose proof eta_pos as Heta. pose proof u_half as Huh. pose proof eta_big as Heb.
  assert (Hbound : Rabs (IZR m2 * p2 e2 - x * p2 ex) <= unit_roundoff prec * (x * p2 ex) + eta prec emax).
  { set (n := Z.max 0 (fexp (Zdigits2 mx + ex) - ex)) in *.
    destruct (Z_lt_le_dec (fexp (Zdigits2 mx + ex)) ex) as [Hlt|Hge].
    - (* the mantissa fits: the location is exact and so is the result *)
      destruct Hcond as [->|Hc]; [ | lia ].
      assert (Ex : x = IZR mx) by (destruct Hx as [_ Hin]; exact Hin).
      rewrite (Hexact Ex ltac:(lia)).
      replace (x * p2 ex - x * p2 ex) with 0 by ring. rewrite Rabs_R0. nra.
    - (* the result is on the grid of exponent [fexp] *)
      assert (En : (ex + n = fexp (Zdigits2 mx + ex))%Z) by lia.
      rewrite En in Herr.
      apply Rle_trans with (1 := Herr).
      destruct (Z_le_gt_dec (fexp (Zdigits2 mx + ex)) emin) as [Hsub|Hnorm].
      + assert (p2 (fexp (Zdigits2 mx + ex)) <= p2 emin) by (apply p2_le; lia).
        unfold eta. rewrite p2_pred. nra.
      + assert (Ef : (fexp (Zdigits2 mx + ex) = Zdigits2 mx + ex - prec)%Z)
          by (unfold SpecFloat.fexp in *; lia).
        assert (Hpos : (0 < mx)%Z).
        { destruct (Z.eq_dec mx 0%Z) as [->|]; [ | lia ].
          exfalso. cbn [Zdigits2] in *. unfold SpecFloat.fexp in *. lia. }
        pose proof (Zdigits2_spec mx Hpos) as [Dlo _].
        pose proof (Zdigits2_pos mx Hpos) as Dpos.
        assert (H1 : p2 (Zdigits2 mx - 1) <= IZR mx).
        { rewrite <- p2_IZR by lia. apply IZR_le, Dlo. }
        rewrite Ef.
        replace (Zdigits2 mx + ex - prec)%Z with ((- prec) + ((Zdigits2 mx - 1) + ex) + 1)%Z by lia.
        rewrite p2_succ, !p2_add. fold (unit_roundoff prec).
        pose proof (p2_pos ex). pose proof (p2_pos (Zdigits2 mx - 1)).
        assert (p2 (Zdigits2 mx - 1) * p2 ex <= x * p2 ex) by nra.
        nra. }
  assert (Hlt : IZR m2 * p2 e2 < 2 * big prec emax).
  { apply Rabs_bounds in Hbound. unfold big in *. nra. }
  destruct (rounded_value sx m2 e2 Hm2 Hlt) as [Hf Hv].
  subst r. rewrite Er. split; [ exact Hf | ].
  rewrite Hv, <- Rmult_minus_distr_l, Rabs_sign. exact Hbound.
Qed.

Local Abbreviation SFmul := (SpecFloat.SFmul prec emax).

Lemma located_exact (m : Z) : (0 <= m)%Z -> located (IZR m) (shr_record_of_loc m loc_Exact).
Proof. intros H. split; [ exact H | reflexivity ]. Qed.

Lemma B2R_abs_finite (s : bool) (m : positive) (e : Z) :
  Rabs (B2R (S754_finite s m e)) = IZR (Zpos m) * p2 e.
Proof.
  cbn [B2R]. rewrite Rabs_sign. apply Rabs_pos_eq.
  apply Rmult_le_pos; [ apply IZR_le; lia | left; apply p2_pos ].
Qed.

Lemma SFmul_error (a b : spec_float) :
  IEEE.is_finite a = true -> IEEE.is_finite b = true -> Rabs (B2R a * B2R b) <= big prec emax ->
  IEEE.is_finite (SFmul a b) = true /\
  Rabs (B2R (SFmul a b) - B2R a * B2R b) <= unit_roundoff prec * Rabs (B2R a * B2R b) + eta prec emax.
Proof.
  pose proof u_pos. pose proof eta_pos.
  destruct a as [sa| | |sa ma ea], b as [sb| | |sb mb eb]; try discriminate; intros _ _ Hbig;
    cbn [SpecFloat.SFmul];
    try (split; [ reflexivity
                | cbn [B2R]; rewrite ?Rmult_0_l, ?Rmult_0_r, Rminus_0_r, Rabs_R0; lra ]).
  assert (EX : Rabs (B2R (S754_finite sa ma ea) * B2R (S754_finite sb mb eb)) =
               IZR (Zpos (ma * mb)) * p2 (ea + eb)).
  { rewrite Rabs_mult, !B2R_abs_finite, Pos2Z.inj_mul, mult_IZR, p2_add. ring. }
  rewrite EX in *.
  destruct (round_error (xorb sa sb) (Zpos (ma * mb)) (ea + eb) loc_Exact
              (IZR (Zpos (ma * mb))) (located_exact _ (Pos2Z.is_nonneg _)) (or_introl eq_refl) Hbig)
    as [Hf He].
  split; [ exact Hf | ].
  replace (B2R (S754_finite sa ma ea) * B2R (S754_finite sb mb eb))
    with (sign (xorb sa sb) * (IZR (Zpos (ma * mb)) * p2 (ea + eb))); [ exact He | ].
  cbn [B2R]. rewrite sign_xorb, Pos2Z.inj_mul, mult_IZR, p2_add. ring.
Qed.

Lemma SFmul_comm (a b : spec_float) : SFmul a b = SFmul b a.
Proof.
  destruct a as [sa|sa| |sa ma ea], b as [sb|sb| |sb mb eb]; cbn [SpecFloat.SFmul];
    try reflexivity; try (rewrite xorb_comm; reflexivity).
  rewrite xorb_comm, Pos.mul_comm, Z.add_comm. reflexivity.
Qed.

(** *** Alignment, [binary_round], addition *)

Lemma iter_xO (m d : positive) : Zpos (Pos.iter xO m d) = (Zpos m * 2 ^ Zpos d)%Z.
Proof.
  induction d as [|d IH] using Pos.peano_ind.
  - cbn [Pos.iter]. lia.
  - rewrite Pos.iter_succ, Pos2Z.inj_xO, IH, Pos2Z.inj_succ, Z.pow_succ_r by lia. lia.
Qed.

Lemma shl_align_value (mx : positive) (ex ex' : Z) :
  IZR (Zpos (fst (shl_align mx ex ex'))) * p2 (snd (shl_align mx ex ex')) =
  IZR (Zpos mx) * p2 ex.
Proof.
  unfold shl_align. destruct (ex' - ex)%Z as [|d|d] eqn:E; cbn [fst snd]; try reflexivity.
  rewrite iter_xO, mult_IZR, p2_IZR by lia.
  replace ex with (Zpos d + ex')%Z by lia. rewrite p2_add. ring.
Qed.

Lemma shl_align_fst (mx : positive) (ex ez : Z) :
  (ez <= ex)%Z -> Zpos (fst (shl_align mx ex ez)) = (Zpos mx * 2 ^ (ex - ez))%Z.
Proof.
  intros H. unfold shl_align. destruct (ez - ex)%Z as [|d|d] eqn:E; cbn [fst]; try lia.
  - replace (ex - ez)%Z with 0%Z by lia. lia.
  - rewrite iter_xO. f_equal. f_equal. lia.
Qed.

Local Abbreviation binary_round := (SpecFloat.binary_round prec emax).
Local Abbreviation binary_normalize := (SpecFloat.binary_normalize prec emax).
Local Abbreviation SFadd := (SpecFloat.SFadd prec emax).

Lemma binary_round_error (sx : bool) (mx : positive) (ex : Z) :
  IZR (Zpos mx) * p2 ex <= big prec emax ->
  IEEE.is_finite (binary_round sx mx ex) = true /\
  Rabs (B2R (binary_round sx mx ex) - sign sx * (IZR (Zpos mx) * p2 ex))
    <= unit_roundoff prec * (IZR (Zpos mx) * p2 ex) + eta prec emax.
Proof.
  intros Hbig. unfold SpecFloat.binary_round.
  pose proof (shl_align_value mx ex (fexp (Zpos (digits2_pos mx) + ex))) as Ev.
  destruct (shl_align mx ex (fexp (Zpos (digits2_pos mx) + ex))) as [mz ez].
  cbn [fst snd] in Ev. rewrite <- Ev in *.
  exact (round_error sx (Zpos mz) ez loc_Exact (IZR (Zpos mz))
           (located_exact _ (Pos2Z.is_nonneg _)) (or_introl eq_refl) Hbig).
Qed.

Lemma binary_normalize_error (m e : Z) (szero : bool) :
  Rabs (IZR m * p2 e) <= big prec emax ->
  IEEE.is_finite (binary_normalize m e szero) = true /\
  Rabs (B2R (binary_normalize m e szero) - IZR m * p2 e) <= unit_roundoff prec * Rabs (IZR m * p2 e) + eta prec emax.
Proof.
  pose proof u_pos. pose proof eta_pos.
  intros Hbig. destruct m as [|p|p]; cbn [SpecFloat.binary_normalize].
  - split; [ reflexivity | ]. cbn [B2R]. rewrite Rmult_0_l, Rminus_0_r, Rabs_R0. lra.
  - assert (Hp : 0 <= IZR (Zpos p) * p2 e)
      by (apply Rmult_le_pos; [ apply IZR_le; lia | left; apply p2_pos ]).
    rewrite (Rabs_pos_eq _ Hp) in *.
    destruct (binary_round_error false p e Hbig) as [Hf He].
    split; [ exact Hf | ]. unfold sign in He. rewrite Rmult_1_l in He. exact He.
  - assert (Hp : 0 <= IZR (Zpos p) * p2 e)
      by (apply Rmult_le_pos; [ apply IZR_le; lia | left; apply p2_pos ]).
    assert (En : IZR (Zneg p) * p2 e = - (IZR (Zpos p) * p2 e)).
    { change (Zneg p) with (- Zpos p)%Z. rewrite opp_IZR. ring. }
    rewrite En, Rabs_Ropp, (Rabs_pos_eq _ Hp) in *.
    destruct (binary_round_error true p e Hbig) as [Hf He].
    split; [ exact Hf | ]. unfold sign in He.
    replace (- (IZR (Zpos p) * p2 e)) with (-1 * (IZR (Zpos p) * p2 e)) by ring. exact He.
Qed.

Lemma cond_Zopp_IZR (s : bool) (m : Z) : IZR (cond_Zopp s m) = sign s * IZR m.
Proof. destruct s; unfold sign; cbn [cond_Zopp]; [ rewrite opp_IZR | ]; ring. Qed.

Lemma SFadd_error (a b : spec_float) :
  IEEE.is_finite a = true -> IEEE.is_finite b = true -> Rabs (B2R a + B2R b) <= big prec emax ->
  IEEE.is_finite (SFadd a b) = true /\
  Rabs (B2R (SFadd a b) - (B2R a + B2R b)) <= unit_roundoff prec * Rabs (B2R a + B2R b) + eta prec emax.
Proof.
  pose proof u_pos. pose proof eta_pos.
  destruct a as [sa| | |sa ma ea], b as [sb| | |sb mb eb]; try discriminate; intros _ _ Hbig;
    cbn [SpecFloat.SFadd].
  - split; [ destruct sa, sb; reflexivity | ].
    replace (B2R (if sa then if sb then S754_zero sa else S754_zero false
                  else if sb then S754_zero false else S754_zero sa)) with 0
      by (destruct sa, sb; reflexivity).
    cbn [B2R]. rewrite Rplus_0_l, Rminus_0_r, Rabs_R0. lra.
  - split; [ reflexivity | ].
    replace (B2R (S754_finite sb mb eb) - (B2R (S754_zero sa) + B2R (S754_finite sb mb eb)))
      with 0 by (cbn [B2R]; ring).
    rewrite Rabs_R0. pose proof (Rabs_pos (B2R (S754_zero sa) + B2R (S754_finite sb mb eb))). nra.
  - split; [ reflexivity | ].
    replace (B2R (S754_finite sa ma ea) - (B2R (S754_finite sa ma ea) + B2R (S754_zero sb)))
      with 0 by (cbn [B2R]; ring).
    rewrite Rabs_R0. pose proof (Rabs_pos (B2R (S754_finite sa ma ea) + B2R (S754_zero sb))). nra.
  - set (ez := Z.min ea eb).
    assert (Ev : B2R (S754_finite sa ma ea) + B2R (S754_finite sb mb eb) =
                 IZR (cond_Zopp sa (Zpos (fst (shl_align ma ea ez))) +
                      cond_Zopp sb (Zpos (fst (shl_align mb eb ez)))) * p2 ez).
    { rewrite plus_IZR, !cond_Zopp_IZR, !shl_align_fst by (subst ez; lia).
      rewrite !mult_IZR, !p2_IZR by (subst ez; lia). cbn [B2R].
      replace (p2 ea) with (p2 (ea - ez) * p2 ez)
        by (rewrite <- p2_add; f_equal; lia).
      replace (p2 eb) with (p2 (eb - ez) * p2 ez)
        by (rewrite <- p2_add; f_equal; lia).
      ring. }
    rewrite Ev in *. apply binary_normalize_error, Hbig.
Qed.

Local Abbreviation SFsub := (SpecFloat.SFsub prec emax).

Lemma SFsub_error (a b : spec_float) :
  IEEE.is_finite a = true -> IEEE.is_finite b = true -> Rabs (B2R a - B2R b) <= big prec emax ->
  IEEE.is_finite (SFsub a b) = true /\
  Rabs (B2R (SFsub a b) - (B2R a - B2R b)) <= unit_roundoff prec * Rabs (B2R a - B2R b) + eta prec emax.
Proof.
  pose proof u_pos. pose proof eta_pos.
  destruct a as [sa| | |sa ma ea], b as [sb| | |sb mb eb]; try discriminate; intros _ _ Hbig;
    cbn [SpecFloat.SFsub].
  - split; [ destruct sa, sb; reflexivity | ].
    replace (B2R (if sa then if sb then S754_zero false else S754_zero sa
                  else if sb then S754_zero sa else S754_zero false)) with 0
      by (destruct sa, sb; reflexivity).
    cbn [B2R]. rewrite Rminus_0_r, Rminus_0_r, Rabs_R0. lra.
  - split; [ reflexivity | ].
    replace (B2R (S754_finite (negb sb) mb eb) - (B2R (S754_zero sa) - B2R (S754_finite sb mb eb)))
      with 0 by (cbn [B2R]; destruct sb; unfold sign; cbn [negb]; ring).
    rewrite Rabs_R0. pose proof (Rabs_pos (B2R (S754_zero sa) - B2R (S754_finite sb mb eb))). nra.
  - split; [ reflexivity | ].
    replace (B2R (S754_finite sa ma ea) - (B2R (S754_finite sa ma ea) - B2R (S754_zero sb)))
      with 0 by (cbn [B2R]; ring).
    rewrite Rabs_R0. pose proof (Rabs_pos (B2R (S754_finite sa ma ea) - B2R (S754_zero sb))). nra.
  - set (ez := Z.min ea eb).
    assert (Ev : B2R (S754_finite sa ma ea) - B2R (S754_finite sb mb eb) =
                 IZR (cond_Zopp sa (Zpos (fst (shl_align ma ea ez))) -
                      cond_Zopp sb (Zpos (fst (shl_align mb eb ez)))) * p2 ez).
    { rewrite minus_IZR, !cond_Zopp_IZR, !shl_align_fst by (subst ez; lia).
      rewrite !mult_IZR, !p2_IZR by (subst ez; lia). cbn [B2R].
      replace (p2 ea) with (p2 (ea - ez) * p2 ez)
        by (rewrite <- p2_add; f_equal; lia).
      replace (p2 eb) with (p2 (eb - ez) * p2 ez)
        by (rewrite <- p2_add; f_equal; lia).
      ring. }
    rewrite Ev in *. apply binary_normalize_error, Hbig.
Qed.

(** *** Square root *)

Local Abbreviation SFsqrt := (SpecFloat.SFsqrt prec emax).
Local Abbreviation SFdiv := (SpecFloat.SFdiv prec emax).

Lemma Zsqrt_lower (q m k : Z) :
  (0 <= k)%Z -> (0 <= q)%Z -> (m < (q + 1) * (q + 1))%Z -> (2 ^ k * 2 ^ k <= m)%Z ->
  (2 ^ k <= q)%Z.
Proof.
  intros Hk Hq Hm Hp. destruct (Z_lt_le_dec q (2 ^ k)) as [Hlt|]; [ exfalso | assumption ].
  assert ((q + 1) * (q + 1) <= 2 ^ k * 2 ^ k)%Z by nia. lia.
Qed.

Lemma SFsqrt_error (m : positive) (e : Z) :
  let a := S754_finite false m e in
  sqrt (B2R a) <= big prec emax ->
  IEEE.is_finite (SFsqrt a) = true /\
  Rabs (B2R (SFsqrt a) - sqrt (B2R a)) <= unit_roundoff prec * sqrt (B2R a) + eta prec emax.
Proof.
  intros a Hbig. subst a. cbn [SpecFloat.SFsqrt]. unfold SFsqrt_core_binary.
  set (d := Zdigits2 (Zpos m)).
  set (e' := Z.min (fexp (Z.div2 (d + e + 1))) (Z.div2 e)).
  set (s := (e - 2 * e')%Z).
  assert (Hs : (0 <= s)%Z) by (subst s e'; pose proof (Z.div2_odd e); destruct (Z.odd e); cbn [Z.b2z] in *; lia).
  set (m' := match s with Zpos _ => Z.shiftl (Zpos m) s | Z0 => Zpos m | Zneg _ => 0%Z end).
  assert (Em' : m' = (Zpos m * 2 ^ s)%Z).
  { subst m'. destruct s as [|p|p]; [ lia | apply Z.shiftl_mul_pow2; lia | lia ]. }
  assert (Hm' : (0 < m')%Z) by (rewrite Em'; pose proof (Z.pow_pos_nonneg 2 s); lia).
  pose proof (Z.sqrtrem_spec m' ltac:(lia)) as Hsq.
  destruct (Z.sqrtrem m') as [q r]. destruct Hsq as [Eq [Hr0 Hr]].
  assert (Hq : (0 <= q)%Z) by lia.
  set (x := sqrt (IZR m')).
  assert (Hx0 : 0 <= x) by apply sqrt_pos.
  assert (Hxx : x * x = IZR q * IZR q + IZR r).
  { subst x. rewrite sqrt_sqrt by (apply IZR_le; lia).
    rewrite Eq, plus_IZR, mult_IZR. reflexivity. }
  assert (Hq0 : 0 <= IZR q) by (apply IZR_le; lia).
  assert (Hr0' : 0 <= IZR r) by (apply IZR_le; lia).
  assert (Hr' : IZR r <= 2 * IZR q) by (rewrite <- mult_IZR; apply IZR_le; lia).
  (* the location of the root *)
  assert (Hloc : located x (shr_record_of_loc q
                   (if (r =? 0)%Z then loc_Exact
                    else loc_Inexact (if (r <=? q)%Z then Lt else Gt)))).
  { split; [ rewrite shr_m_of_loc; exact Hq | ].
    destruct (Z.eqb_spec r 0) as [E0|N0].
    - cbn. rewrite E0 in Hxx. nra.
    - assert (H1 : 1 <= IZR r) by (apply IZR_le; lia).
      destruct (Z.leb_spec r q) as [Hle|Hgt]; cbn.
      + assert (IZR r <= IZR q) by (apply IZR_le; lia). split; nra.
      + assert (IZR q + 1 <= IZR r) by (rewrite <- plus_IZR; apply IZR_le; lia). split; nra. }
  (* the root has at least the digits of the format *)
  assert (Hcond : (e' <= fexp (Zdigits2 q + e'))%Z).
  { apply Z.le_trans with (fexp (Z.div2 (d + e + 1))); [ subst e'; lia | ].
    apply fexp_mono.
    destruct (Z_le_gt_dec (Z.div2 (d + e + 1) - e') 0) as [Hle|Hgt].
    - pose proof (Zdigits2_nonneg q). lia.
    - pose proof (Zdigits2_spec (Zpos m) ltac:(lia)) as [Dlo _]. fold d in Dlo.
      pose proof (Zdigits2_pos (Zpos m) ltac:(lia)) as Dpos. fold d in Dpos.
      set (k := (Z.div2 (d + e + 1) - e' - 1)%Z).
      assert (Hk : (0 <= k)%Z) by (subst k; lia).
      assert (H2k : (k + k <= d - 1 + s)%Z).
      { subst k s. pose proof (Z.div2_odd (d + e + 1)). destruct (Z.odd (d + e + 1));
          cbn [Z.b2z] in *; lia. }
      assert (Hp : (2 ^ k * 2 ^ k <= m')%Z).
      { rewrite <- Z.pow_add_r by lia. rewrite Em'.
        apply Z.le_trans with (2 ^ (d - 1 + s))%Z; [ apply Z.pow_le_mono_r; lia | ].
        rewrite Z.pow_add_r by lia. pose proof (Z.pow_pos_nonneg 2 s). nia. }
      pose proof (Zsqrt_lower q m' k Hk Hq ltac:(nia) Hp) as Hqk.
      pose proof (Zdigits2_ge q k Hqk Hk). subst k. lia. }
  assert (Ev : x * p2 e' = sqrt (B2R (S754_finite false m e))).
  { subst x. rewrite <- (sqrt_square (p2 e')) at 1 by (left; apply p2_pos).
    rewrite <- sqrt_mult by (try (apply IZR_le; lia); apply Rmult_le_pos; left; apply p2_pos).
    f_equal. cbn [B2R]. unfold sign. rewrite Em', mult_IZR, p2_IZR by exact Hs.
    replace (p2 e) with (p2 s * (p2 e' * p2 e'))
      by (rewrite <- !p2_add; f_equal; unfold s; lia).
    ring. }
  rewrite <- Ev in *.
  destruct (round_error false q e' _ x Hloc (or_intror Hcond) Hbig) as [Hf He].
  split; [ exact Hf | ]. unfold sign in He. rewrite Rmult_1_l in He. exact He.
Qed.

(** *** Division *)

Lemma new_location_spec (nb k q : Z) :
  (0 < nb)%Z -> (0 <= k < nb)%Z -> (0 <= q)%Z ->
  located (IZR q + IZR k / IZR nb) (shr_record_of_loc q (new_location nb k)).
Proof.
  intros Hnb Hk Hq. split; [ rewrite shr_m_of_loc; exact Hq | ].
  assert (Hn : 0 < IZR nb) by (apply IZR_lt; lia).
  set (t := IZR k / IZR nb).
  assert (Et : t * IZR nb = IZR k) by (subst t; field; lra).
  assert (Hzero : k = 0%Z -> inbetween (IZR q + t) q false false).
  { intros E0. cbn. assert (t = 0) by (subst t; rewrite E0; field; lra). lra. }
  unfold new_location.
  destruct (IntDef.Z.even nb) eqn:Ev; unfold new_location_even, new_location_odd;
    change (IntDef.Z.even nb) with (Z.even nb) in Ev;
    (destruct (Z.eqb_spec k 0) as [E0|N0]; [ exact (Hzero E0) | ]);
    assert (H1 : 1 <= IZR k) by (apply IZR_le; lia);
    assert (H2 : IZR k + 1 <= IZR nb) by (rewrite <- plus_IZR; apply IZR_le; lia).
  - destruct (Z.compare_spec (2 * k) nb) as [E|L|G]; cbn.
    + assert (2 * IZR k = IZR nb) by (rewrite <- mult_IZR; f_equal; exact E). nra.
    + assert (2 * IZR k + 1 <= IZR nb)
        by (rewrite <- mult_IZR, <- plus_IZR; apply IZR_le; lia). split; nra.
    + assert (IZR nb + 1 <= 2 * IZR k)
        by (rewrite <- mult_IZR, <- plus_IZR; apply IZR_le; lia). split; nra.
  - assert (Hodd : (2 * k <> nb)%Z).
    { intros E. rewrite <- E, Z.even_mul in Ev. discriminate Ev. }
    destruct (Z.compare_spec (2 * k + 1) nb) as [E|L|G]; cbn.
    + assert (2 * IZR k + 1 = IZR nb)
        by (rewrite <- mult_IZR, <- plus_IZR; f_equal; exact E). split; nra.
    + assert (2 * IZR k + 1 <= IZR nb)
        by (rewrite <- mult_IZR, <- plus_IZR; apply IZR_le; lia). split; nra.
    + assert (IZR nb + 1 <= 2 * IZR k)
        by (rewrite <- mult_IZR, <- plus_IZR; apply IZR_le; lia). split; nra.
Qed.

Lemma SFdiv_error (a : spec_float) (sb : bool) (mb : positive) (eb : Z) :
  let b := S754_finite sb mb eb in
  IEEE.is_finite a = true -> Rabs (B2R a / B2R b) <= big prec emax ->
  IEEE.is_finite (SFdiv a b) = true /\
  Rabs (B2R (SFdiv a b) - B2R a / B2R b) <= unit_roundoff prec * Rabs (B2R a / B2R b) + eta prec emax.
Proof.
  pose proof u_pos. pose proof eta_pos.
  intros b Hfa Hbig. subst b.
  assert (Hb : 0 < IZR (Zpos mb) * p2 eb)
    by (apply Rmult_lt_0_compat; [ apply IZR_lt; lia | apply p2_pos ]).
  destruct a as [sa| | |sa ma ea]; try discriminate; cbn [SpecFloat.SFdiv].
  - split; [ reflexivity | ]. cbn [B2R]. unfold Rdiv. rewrite Rmult_0_l, Rminus_0_r, Rabs_R0. lra.
  - unfold SFdiv_core_binary.
    set (d1 := Zdigits2 (Zpos ma)). set (d2 := Zdigits2 (Zpos mb)).
    set (e' := Z.min (fexp (d1 + ea - (d2 + eb))) (ea - eb)).
    set (s := (ea - eb - e')%Z).
    assert (Hs : (0 <= s)%Z) by (subst s e'; lia).
    set (m' := match s with Zpos _ => Z.shiftl (Zpos ma) s | Z0 => Zpos ma | Zneg _ => 0%Z end).
    assert (Em' : m' = (Zpos ma * 2 ^ s)%Z).
    { subst m'. destruct s as [|p|p]; [ lia | apply Z.shiftl_mul_pow2; lia | lia ]. }
    assert (Hm' : (0 < m')%Z) by (rewrite Em'; pose proof (Z.pow_pos_nonneg 2 s); lia).
    pose proof (Z_div_mod m' (Zpos mb) ltac:(lia)) as Hdm.
    destruct (Z.div_eucl m' (Zpos mb)) as [q r]. destruct Hdm as [Eq Hr].
    assert (Hq : (0 <= q)%Z) by nia.
    pose proof (new_location_spec (Zpos mb) r q ltac:(lia) Hr Hq) as Hloc.
    set (x := IZR q + IZR r / IZR (Zpos mb)) in *.
    assert (Hmb : 0 < IZR (Zpos mb)) by (apply IZR_lt; lia).
    assert (Ex : x = IZR m' / IZR (Zpos mb)).
    { subst x. rewrite Eq, plus_IZR, mult_IZR. field. lra. }
    assert (Hcond : (e' <= fexp (Zdigits2 q + e'))%Z).
    { apply Z.le_trans with (fexp (d1 + ea - (d2 + eb))); [ subst e'; lia | ].
      apply fexp_mono.
      destruct (Z_le_gt_dec (d1 + ea - (d2 + eb) - e') 0) as [Hle|Hgt].
      - pose proof (Zdigits2_nonneg q). lia.
      - pose proof (Zdigits2_spec (Zpos ma) ltac:(lia)) as [Dlo _]. fold d1 in Dlo.
        pose proof (Zdigits2_spec (Zpos mb) ltac:(lia)) as [_ Dhi]. fold d2 in Dhi.
        pose proof (Zdigits2_pos (Zpos ma) ltac:(lia)) as D1. fold d1 in D1.
        pose proof (Zdigits2_pos (Zpos mb) ltac:(lia)) as D2. fold d2 in D2.
        set (k := (d1 + ea - (d2 + eb) - e' - 1)%Z).
        assert (Hk : (0 <= k)%Z) by (subst k; lia).
        assert (Hp : (2 ^ k * Zpos mb <= m')%Z).
        { rewrite Em'.
          apply Z.le_trans with (2 ^ k * 2 ^ d2)%Z;
            [ pose proof (Z.pow_pos_nonneg 2 k); nia | ].
          rewrite <- Z.pow_add_r by lia.
          replace (k + d2)%Z with (d1 - 1 + s)%Z by (subst k s; lia).
          rewrite Z.pow_add_r by lia. pose proof (Z.pow_pos_nonneg 2 s). nia. }
        assert (Hqk : (2 ^ k <= q)%Z).
        { destruct (Z_lt_le_dec q (2 ^ k)) as [Hlt|]; [ exfalso | assumption ].
          assert (Zpos mb * (q + 1) <= Zpos mb * 2 ^ k)%Z by nia. lia. }
        pose proof (Zdigits2_ge q k Hqk Hk). subst k. lia. }
    assert (Ev : x * p2 e' =
                 IZR (Zpos ma) * p2 ea / (IZR (Zpos mb) * p2 eb)).
    { rewrite Ex, Em', mult_IZR, p2_IZR by exact Hs.
      replace (p2 ea) with (p2 s * p2 e' * p2 eb)
        by (rewrite <- !p2_add; f_equal; unfold s; lia).
      pose proof (p2_pos eb). field. lra. }
    assert (Hquot : 0 <= IZR (Zpos ma) * p2 ea / (IZR (Zpos mb) * p2 eb)).
    { apply Rmult_le_pos; [ | left; apply Rinv_0_lt_compat; exact Hb ].
      apply Rmult_le_pos; [ apply IZR_le; lia | left; apply p2_pos ]. }
    assert (Eq' : B2R (S754_finite sa ma ea) / B2R (S754_finite sb mb eb) =
                  sign (xorb sa sb) * (x * p2 e')).
    { rewrite Ev, sign_xorb. cbn [B2R]. pose proof (p2_pos eb).
      destruct sa, sb; unfold sign; field; repeat split; lra. }
    rewrite Eq' in *. rewrite Rabs_sign in *.
    assert (Hxp : 0 <= x * p2 e') by (rewrite Ev; exact Hquot).
    rewrite (Rabs_pos_eq _ Hxp) in *.
    exact (round_error (xorb sa sb) q e' _ x Hloc (or_intror Hcond) Hbig).
Qed.

End Format.


Section Binary32_error.


Lemma u_32 : unit_roundoff 24 = U.
Proof.
  unfold unit_roundoff, U. change (- 24)%Z with (- (24))%Z. rewrite p2_opp, <- p2_IZR by lia.
  reflexivity.
Qed.

Lemma eta_32 : eta 24 128 <= tiny.
Proof.
  unfold eta, tiny. change (SpecFloat.emin 24 128 - 1)%Z with (- (150))%Z.
  rewrite p2_opp, <- p2_IZR by lia.
  apply Rinv_le_contravar; [ lra | ].
  apply IZR_le. vm_compute. discriminate.
Qed.

Lemma big_32 : huge <= big 24 128.
Proof.
  unfold big, huge. change (128 - 24)%Z with 104%Z. rewrite <- p2_IZR by lia.
  apply IZR_le. vm_compute. discriminate.
Qed.

Lemma mul32 (a b : spec_float) :
  IEEE.is_finite a = true -> IEEE.is_finite b = true -> Rabs (B2R a * B2R b) <= huge ->
  IEEE.is_finite (SFmul 24 128 a b) = true /\
  Rabs (B2R (SFmul 24 128 a b) - B2R a * B2R b) <= U * Rabs (B2R a * B2R b) + tiny.
Proof.
  intros Ha Hb Hbig.
  destruct (SFmul_error 24 128 eq_refl eq_refl a b Ha Hb) as [Hf He].
  - pose proof big_32. lra.
  - split; [ exact Hf | ]. rewrite u_32 in He. pose proof eta_32. lra.
Qed.

Lemma add32 (a b : spec_float) :
  IEEE.is_finite a = true -> IEEE.is_finite b = true -> Rabs (B2R a + B2R b) <= huge ->
  IEEE.is_finite (SFadd 24 128 a b) = true /\
  Rabs (B2R (SFadd 24 128 a b) - (B2R a + B2R b)) <= U * Rabs (B2R a + B2R b) + tiny.
Proof.
  intros Ha Hb Hbig.
  destruct (SFadd_error 24 128 eq_refl eq_refl a b Ha Hb) as [Hf He].
  - pose proof big_32. lra.
  - split; [ exact Hf | ]. rewrite u_32 in He. pose proof eta_32. lra.
Qed.

Lemma sub32 (a b : spec_float) :
  IEEE.is_finite a = true -> IEEE.is_finite b = true -> Rabs (B2R a - B2R b) <= huge ->
  IEEE.is_finite (SFsub 24 128 a b) = true /\
  Rabs (B2R (SFsub 24 128 a b) - (B2R a - B2R b)) <= U * Rabs (B2R a - B2R b) + tiny.
Proof.
  intros Ha Hb Hbig.
  destruct (SFsub_error 24 128 eq_refl eq_refl a b Ha Hb) as [Hf He].
  - pose proof big_32. lra.
  - split; [ exact Hf | ]. rewrite u_32 in He. pose proof eta_32. lra.
Qed.

Lemma B2R_pos_inv (a : spec_float) :
  0 < B2R a -> exists m e, a = S754_finite false m e.
Proof.
  destruct a as [s| | |s m e]; cbn [B2R]; try lra.
  intros H. destruct s; [ exfalso | eauto ].
  assert (0 < IZR (Zpos m) * p2 e)
    by (apply Rmult_lt_0_compat; [ apply IZR_lt; lia | apply p2_pos ]).
  unfold sign in H. lra.
Qed.

Lemma sqrt32 (a : spec_float) :
  0 < B2R a -> sqrt (B2R a) <= huge ->
  IEEE.is_finite (SFsqrt 24 128 a) = true /\
  Rabs (B2R (SFsqrt 24 128 a) - sqrt (B2R a)) <= U * sqrt (B2R a) + tiny.
Proof.
  intros Ha Hbig. destruct (B2R_pos_inv a Ha) as (m & e & ->).
  destruct (SFsqrt_error 24 128 eq_refl eq_refl m e) as [Hf He].
  - pose proof big_32. lra.
  - split; [ exact Hf | ]. rewrite u_32 in He. pose proof eta_32. lra.
Qed.

Lemma div32 (a b : spec_float) :
  IEEE.is_finite a = true -> 0 < B2R b -> Rabs (B2R a / B2R b) <= huge ->
  IEEE.is_finite (SFdiv 24 128 a b) = true /\
  Rabs (B2R (SFdiv 24 128 a b) - B2R a / B2R b) <= U * Rabs (B2R a / B2R b) + tiny.
Proof.
  intros Ha Hb Hbig. destruct (B2R_pos_inv b Hb) as (m & e & ->).
  destruct (SFdiv_error 24 128 eq_refl eq_refl a false m e Ha) as [Hf He].
  - pose proof big_32. lra.
  - split; [ exact Hf | ]. rewrite u_32 in He. pose proof eta_32. lra.
Qed.

(** ** The dot product, the inverse square root and the scaling *)

Lemma sq_bounds (X : R) : Rabs X <= 2 -> 0 <= X * X <= 4.
Proof. intros H. apply Rabs_bounds in H. nra. Qed.

Lemma dot32 (x y z : spec_float) :
  IEEE.is_finite x = true -> IEEE.is_finite y = true -> IEEE.is_finite z = true ->
  Rabs (B2R x) <= 2 -> Rabs (B2R y) <= 2 -> Rabs (B2R z) <= 2 ->
  let d := SFadd 24 128 (SFadd 24 128 (SFmul 24 128 x x) (SFmul 24 128 y y))
                        (SFmul 24 128 z z) in
  let S := B2R x * B2R x + B2R y * B2R y + B2R z * B2R z in
  IEEE.is_finite d = true /\ Rabs (B2R d - S) <= 4 * U * S + 8 * tiny.
Proof.
  intros Fx Fy Fz Hx Hy Hz d S. subst d S.
  pose proof (sq_bounds _ Hx) as Bx. pose proof (sq_bounds _ Hy) as By.
  pose proof (sq_bounds _ Hz) as Bz.
  set (X2 := B2R x * B2R x) in *. set (Y2 := B2R y * B2R y) in *.
  set (Z2 := B2R z * B2R z) in *.
  destruct (mul32 x x Fx Fx) as [Fsx Ex];
    [ fold X2; rewrite Rabs_pos_eq; unfold huge; lra | ].
  destruct (mul32 y y Fy Fy) as [Fsy Ey];
    [ fold Y2; rewrite Rabs_pos_eq; unfold huge; lra | ].
  destruct (mul32 z z Fz Fz) as [Fsz Ez];
    [ fold Z2; rewrite Rabs_pos_eq; unfold huge; lra | ].
  fold X2 in Ex. fold Y2 in Ey. fold Z2 in Ez.
  rewrite (Rabs_pos_eq X2) in Ex by lra. rewrite (Rabs_pos_eq Y2) in Ey by lra.
  rewrite (Rabs_pos_eq Z2) in Ez by lra.
  apply Rabs_bounds in Ex, Ey, Ez.
  set (sx := B2R (SFmul 24 128 x x)) in *. set (sy := B2R (SFmul 24 128 y y)) in *.
  set (sz := B2R (SFmul 24 128 z z)) in *.
  unfold U, tiny in *.
  assert (A1 : Rabs (sx + sy) <= (1 + / 16777216) * (X2 + Y2) + 2 * / 1000000000000000000000000000000)
    by (apply Rabs_le; lra).
  destruct (add32 _ _ Fsx Fsy) as [Fa Ea]; [ fold sx sy; unfold huge; lra | ].
  fold sx sy in Ea. unfold U, tiny in Ea. apply Rabs_bounds in Ea.
  set (a := B2R (SFadd 24 128 (SFmul 24 128 x x) (SFmul 24 128 y y))) in *.
  assert (A2 : Rabs (a + sz) <= (1 + 3 * / 16777216) * (X2 + Y2 + Z2) + 5 * / 1000000000000000000000000000000)
    by (apply Rabs_le; lra).
  destruct (add32 _ _ Fa Fsz) as [Fd Ed]; [ fold a sz; unfold huge; lra | ].
  fold a sz in Ed. unfold U, tiny in Ed. apply Rabs_bounds in Ed.
  split; [ exact Fd | apply Rabs_le; lra ].
Qed.


Lemma one32_value : IEEE.is_finite one32 = true /\ B2R one32 = 1.
Proof.
  split; [ reflexivity | ].
  change one32 with (S754_finite false 8388608 (-23)). cbn [B2R]. unfold sign.
  change (-23)%Z with (- (23))%Z. rewrite p2_opp, <- p2_IZR by lia.
  change (2 ^ 23)%Z with 8388608%Z. field.
Qed.

Lemma inversesqrt32 (d : spec_float) :
  24 / 100 <= B2R d <= 13 ->
  let k := SFdiv 24 128 one32 (SFsqrt 24 128 d) in
  IEEE.is_finite k = true /\ 0 < B2R k <= 3 /\
  Rabs (B2R k * sqrt (B2R d) - 1) <= 5 / 2 * U.
Proof.
  intros HD k. subst k.
  set (D := B2R d) in *. set (t := sqrt D).
  assert (Ht0 : 0 <= t) by apply sqrt_pos.
  assert (Htt : t * t = D) by (apply sqrt_sqrt; lra).
  assert (Ht : 48 / 100 <= t <= 37 / 10) by nra.
  destruct (sqrt32 d) as [Fs Es]; [ fold D; lra | fold D t; unfold huge; lra | ].
  fold D t in Es. apply Rabs_bounds in Es.
  set (s := B2R (SFsqrt 24 128 d)) in *.
  unfold U, tiny in *.
  assert (Hs : 47 / 100 <= s <= 38 / 10) by lra.
  destruct one32_value as [F1 V1].
  set (r := 1 / s).
  assert (Hrs : r * s = 1) by (subst r; field; lra).
  assert (Hr : 26 / 100 <= r <= 22 / 10) by nra.
  destruct (div32 one32 (SFsqrt 24 128 d) F1) as [Fk Ek];
    [ fold s; lra | rewrite V1; fold s r; rewrite Rabs_pos_eq; unfold huge; lra | ].
  rewrite V1 in Ek. fold s r in Ek. rewrite (Rabs_pos_eq r) in Ek by lra.
  unfold U, tiny in Ek. apply Rabs_bounds in Ek.
  set (K := B2R (SFdiv 24 128 one32 (SFsqrt 24 128 d))) in *.
  assert (HK : 25 / 100 <= K <= 3) by lra.
  split; [ exact Fk | split; [ lra | ] ].
  assert (Hrt_hi : (1 - / 16777216) * (r * t) <= 1 + / 1000000000000000000000000000000 * r) by nra.
  assert (Hrt_lo : 1 - / 1000000000000000000000000000000 * r <= (1 + / 16777216) * (r * t)) by nra.
  assert (Kt_hi : K * t <= (1 + / 16777216) * (r * t) + / 1000000000000000000000000000000 * t) by nra.
  assert (Kt_lo : (1 - / 16777216) * (r * t) - / 1000000000000000000000000000000 * t <= K * t) by nra.
  apply Rabs_le. lra.
Qed.

Lemma scale32 (x k : spec_float) :
  IEEE.is_finite x = true -> IEEE.is_finite k = true -> Rabs (B2R x) <= 2 -> 0 < B2R k <= 3 ->
  IEEE.is_finite (SFmul 24 128 x k) = true /\
  Rabs (B2R (SFmul 24 128 x k) - B2R x * B2R k) <= U * Rabs (B2R x * B2R k) + tiny /\
  Rabs (B2R x * B2R k) <= 6.
Proof.
  intros Fx Fk Hx Hk.
  assert (H6 : Rabs (B2R x * B2R k) <= 6).
  { apply Rabs_bounds in Hx. apply Rabs_le. nra. }
  destruct (mul32 x k Fx Fk) as [Ff Ef]; [ unfold huge; lra | ].
  split; [ exact Ff | split; [ exact Ef | exact H6 ] ].
Qed.

Lemma sq_perturb (f p : R) :
  Rabs (f - p) <= U * Rabs p + tiny -> Rabs p <= 6 ->
  (1 - 2 * U) * (p * p) - 12 * tiny <= f * f <= (1 + U) * (1 + U) * (p * p) + 13 * tiny.
Proof.
  unfold U, tiny. intros Hf Hp.
  apply Rabs_bounds in Hf.
  assert (Ha : 0 <= Rabs p) by apply Rabs_pos.
  assert (Hpp : Rabs p * Rabs p = p * p).
  { unfold Rabs. destruct (Rcase_abs p); ring. }
  assert (Hle : - Rabs p <= p <= Rabs p).
  { unfold Rabs. destruct (Rcase_abs p); lra. }
  set (A := Rabs p) in *.
  set (E := / 16777216 * A + / 1000000000000000000000000000000) in *.
  set (e := f - p) in *.
  assert (Ef : f * f = p * p + 2 * (p * e) + e * e) by (subst e; ring).
  assert (HE : 0 <= E) by (subst E; lra).
  assert (H1 : - (A * E) <= p * e <= A * E) by nra.
  assert (H2 : 0 <= e * e <= E * E) by nra.
  assert (EA : A * E = / 16777216 * (A * A) + / 1000000000000000000000000000000 * A)
    by (subst E; ring).
  assert (EE : E * E = / 16777216 * / 16777216 * (A * A)
                       + 2 * / 16777216 * / 1000000000000000000000000000000 * A
                       + / 1000000000000000000000000000000 * / 1000000000000000000000000000000)
    by (subst E; ring).
  rewrite Ef, <- Hpp. rewrite EA in H1. rewrite EE in H2.
  assert (HAA : 0 <= A * A) by nra.
  split; lra.
Qed.

(** The length of the normalised vector, from the bounds of the steps. *)
Lemma unit_bound (X Y Z K t D fx fy fz : R) :
  Rabs X <= 2 -> Rabs Y <= 2 -> Rabs Z <= 2 ->
  let S := X * X + Y * Y + Z * Z in
  / 4 <= S ->
  Rabs (D - S) <= 4 * U * S + 8 * tiny ->
  0 <= t -> t * t = D -> 0 < K <= 3 ->
  Rabs (K * t - 1) <= 5 / 2 * U ->
  Rabs (fx - X * K) <= U * Rabs (X * K) + tiny -> Rabs (X * K) <= 6 ->
  Rabs (fy - Y * K) <= U * Rabs (Y * K) + tiny -> Rabs (Y * K) <= 6 ->
  Rabs (fz - Z * K) <= U * Rabs (Z * K) + tiny -> Rabs (Z * K) <= 6 ->
  Rabs (fx * fx + fy * fy + fz * fz - 1) <= 16 * U.
Proof.
  intros HX HY HZ S HS HD Ht0 Htt HK HP Ex Bx Ey By Ez Bz.
  pose proof (sq_perturb _ _ Ex Bx) as Px.
  pose proof (sq_perturb _ _ Ey By) as Py.
  pose proof (sq_perturb _ _ Ez Bz) as Pz.
  apply Rabs_bounds in HD, HP.
  unfold U, tiny in *.
  set (W := K * K * S).
  assert (EW : X * K * (X * K) + Y * K * (Y * K) + Z * K * (Z * K) = W)
    by (subst W S; ring).
  assert (HS0 : 0 <= S) by lra.
  assert (HKK : 0 <= K * K) by nra.
  set (P := K * t) in *.
  assert (EP : P * P = K * K * D) by (subst P; rewrite <- Htt; ring).
  assert (HP2 : (1 - 5 / 2 * / 16777216) * (1 - 5 / 2 * / 16777216) <= P * P
                <= (1 + 5 / 2 * / 16777216) * (1 + 5 / 2 * / 16777216)) by nra.
  assert (HW_hi : (1 - 4 * / 16777216 - 32 * / 1000000000000000000000000000000) * W <= P * P).
  { rewrite EP. subst W. nra. }
  assert (HW_lo : P * P <= (1 + 4 * / 16777216 + 32 * / 1000000000000000000000000000000) * W).
  { rewrite EP. subst W. nra. }
  set (px := X * K * (X * K)) in *. set (py := Y * K * (Y * K)) in *.
  set (pz := Z * K * (Z * K)) in *.
  apply Rabs_le. lra.
Qed.

(** ** One step of the camera *)

Lemma Rabs_both (x : R) : - Rabs x <= x <= Rabs x.
Proof. unfold Rabs. destruct (Rcase_abs x); lra. Qed.

(** The product [speed * deltaTime * f] as the program forms it, against
    the exact product [T]. *)
Lemma step_product32 (c dt f : spec_float) (C : R) :
  IEEE.is_finite c = true -> IEEE.is_finite dt = true -> IEEE.is_finite f = true ->
  B2R c = C -> 0 <= C <= 10 ->
  Rabs (B2R dt) <= 1000000 -> Rabs (B2R f) <= 2 ->
  let m := SFmul 24 128 (SFmul 24 128 c dt) f in
  let T := C * B2R dt * B2R f in
  IEEE.is_finite m = true /\
  Rabs (B2R m - T) <= 3 * U * Rabs T + 4 * tiny /\
  Rabs T <= 20000000.
Proof.
  intros Fc Fdt Ff EC HC Hdt Hf m T. subst m T.
  set (DT := B2R dt) in *. set (F := B2R f) in *.
  pose proof (Rabs_both DT) as BDT. pose proof (Rabs_both F) as BF.
  pose proof (Rabs_pos DT) as PDT. pose proof (Rabs_pos F) as PF.
  assert (ET0 : Rabs (C * DT) = C * Rabs DT).
  { rewrite Rabs_mult, (Rabs_pos_eq C) by lra. reflexivity. }
  assert (ET : Rabs (C * DT * F) = C * Rabs DT * Rabs F).
  { rewrite Rabs_mult, ET0. reflexivity. }
  set (aD := Rabs DT) in *. set (aF := Rabs F) in *.
  assert (HaT0 : 0 <= C * aD <= 10000000) by nra.
  assert (HaT : 0 <= C * aD * aF <= 20000000) by nra.
  destruct (mul32 c dt Fc Fdt) as [Fs Es];
    [ rewrite EC; fold DT; rewrite ET0; unfold huge; lra | ].
  rewrite EC in Es. fold DT in Es. rewrite ET0 in Es.
  apply Rabs_bounds in Es.
  set (S := B2R (SFmul 24 128 c dt)) in *.
  unfold U, tiny in *.
  (* the exact product of the rounded speed with [f] *)
  assert (HSF : Rabs (S * F - C * DT * F)
                <= / 16777216 * (C * aD * aF) + 2 * / 1000000000000000000000000000000).
  { replace (S * F - C * DT * F) with ((S - C * DT) * F) by ring.
    rewrite Rabs_mult. fold aF.
    assert (He : Rabs (S - C * DT) <= / 16777216 * (C * aD) + / 1000000000000000000000000000000)
      by (apply Rabs_le; lra).
    pose proof (Rabs_pos (S - C * DT)). nra. }
  pose proof (Rabs_both (C * DT * F)) as BT. rewrite ET in BT.
  apply Rabs_bounds in HSF.
  assert (HaSF : Rabs (S * F) <= (1 + / 16777216) * (C * aD * aF)
                                + 2 * / 1000000000000000000000000000000)
    by (apply Rabs_le; lra).
  destruct (mul32 (SFmul 24 128 c dt) f Fs Ff) as [Fm Em];
    [ fold S F; unfold huge; lra | ].
  fold S F in Em. unfold U, tiny in Em. apply Rabs_bounds in Em.
  split; [ exact Fm | split; [ | rewrite ET; lra ] ].
  rewrite ET. apply Rabs_le. lra.
Qed.

(** The new coordinate [p + m] or [p - m] against [P + T] or [P - T]. *)
Lemma step_sum32 (p m : spec_float) (T : R) (forward : bool) :
  IEEE.is_finite p = true -> IEEE.is_finite m = true ->
  Rabs (B2R p) <= 100000000000000000000 -> Rabs T <= 20000000 ->
  Rabs (B2R m - T) <= 3 * U * Rabs T + 4 * tiny ->
  let p' := if forward then SFadd 24 128 p m else SFsub 24 128 p m in
  let P' := if forward then B2R p + T else B2R p - T in
  IEEE.is_finite p' = true /\
  Rabs (B2R p' - P') <= U * Rabs (B2R p) + 5 * U * Rabs T + 6 * tiny.
Proof.
  intros Fp Fm HP HT Hm p' P'. subst p' P'.
  set (P := B2R p) in *. set (M := B2R m) in *.
  pose proof (Rabs_both P) as BP. pose proof (Rabs_both T) as BT.
  pose proof (Rabs_pos P) as PP. pose proof (Rabs_pos T) as PT.
  apply Rabs_bounds in Hm.
  set (aP := Rabs P) in *. set (aT := Rabs T) in *.
  unfold U, tiny in *.
  destruct forward.
  - assert (HA : Rabs (P + M) <= aP + (1 + 3 * / 16777216) * aT
                                 + 4 * / 1000000000000000000000000000000)
      by (apply Rabs_le; lra).
    destruct (add32 p m Fp Fm) as [Fr Er]; [ fold P M; unfold huge; lra | ].
    fold P M in Er. unfold U, tiny in Er. apply Rabs_bounds in Er.
    split; [ exact Fr | apply Rabs_le; lra ].
  - assert (HA : Rabs (P - M) <= aP + (1 + 3 * / 16777216) * aT
                                 + 4 * / 1000000000000000000000000000000)
      by (apply Rabs_le; lra).
    destruct (sub32 p m Fp Fm) as [Fr Er]; [ fold P M; unfold huge; lra | ].
    fold P M in Er. unfold U, tiny in Er. apply Rabs_bounds in Er.
    split; [ exact Fr | apply Rabs_le; lra ].
Qed.

(** ** [glm::normalize] in binary32 *)

Section Normalize32.
Import IEEE.
Context {L : Libm}.
#[local] Existing Instance F32.


Lemma normalize32 (v : vec3) :
  finite3 v -> bounded3 2 v -> / 4 <= norm2 v ->
  finite3 (normalize v) /\ Rabs (norm2 (normalize v) - 1) <= 16 * U.
Proof.
  intros (Fx & Fy & Fz) (Bx & By & Bz) HS.
  destruct v as [x y z]. unfold norm2 in *. cbn [vx vy vz] in *.
  pose proof (dot32 x y z Fx Fy Fz Bx By Bz) as [Fd Ed]. cbv zeta in Fd, Ed.
  pose proof (sq_bounds _ Bx) as Sx. pose proof (sq_bounds _ By) as Sy.
  pose proof (sq_bounds _ Bz) as Sz.
  set (d := SFadd 24 128 (SFadd 24 128 (SFmul 24 128 x x) (SFmul 24 128 y y))
                         (SFmul 24 128 z z)) in *.
  assert (HD : 24 / 100 <= B2R d <= 13).
  { pose proof (Rabs_bounds _ _ Ed) as Hd. unfold U, tiny in Hd. lra. }
  pose proof (inversesqrt32 d HD) as (Fk & HK & HP). cbv zeta in Fk, HK, HP.
  set (k := SFdiv 24 128 one32 (SFsqrt 24 128 d)) in *.
  destruct (scale32 x k Fx Fk Bx HK) as (Ffx & Efx & Bfx).
  destruct (scale32 y k Fy Fk By HK) as (Ffy & Efy & Bfy).
  destruct (scale32 z k Fz Fk Bz HK) as (Ffz & Efz & Bfz).
  change (normalize (Vec3 x y z))
    with (Vec3 (SFmul 24 128 x k) (SFmul 24 128 y k) (SFmul 24 128 z k)).
  cbn [vx vy vz].
  split; [ split; [ exact Ffx | split; [ exact Ffy | exact Ffz ] ] | ].
  apply (unit_bound (B2R x) (B2R y) (B2R z) (B2R k) (sqrt (B2R d)) (B2R d));
    try assumption.
  - apply sqrt_pos.
  - apply sqrt_sqrt. lra.
Qed.

(** ** The direction, from what the library answers *)


Lemma direction32 (cy sy cp sp : spec_float) :
  library_ok cy sy -> library_ok cp sp ->
  let d := Vec3 (SFmul 24 128 cy cp) sp (SFmul 24 128 sy cp) in
  finite3 d /\ bounded3 2 d /\ / 4 <= norm2 d.
Proof.
  intros (Fcy & Fsy & Hy) (Fcp & Fsp & Hp) d. subst d.
  unfold finite3, bounded3, norm2. cbn [vx vy vz].
  set (CY := B2R cy) in *. set (SY := B2R sy) in *.
  set (CP := B2R cp) in *. set (SP := B2R sp) in *.
  assert (Hcy : 0 <= CY * CY) by nra. assert (Hsy : 0 <= SY * SY) by nra.
  assert (Hcp : 0 <= CP * CP) by nra. assert (Hsp : 0 <= SP * SP) by nra.
  assert (B1 : Rabs (CY * CP) <= 5 / 4).
  { apply Rabs_le. split; nra. }
  assert (B2 : Rabs (SY * CP) <= 5 / 4).
  { apply Rabs_le. split; nra. }
  assert (B3 : Rabs SP <= 2).
  { apply Rabs_le. split; nra. }
  destruct (mul32 cy cp Fcy Fcp) as [Fx Ex]; [ fold CY CP; unfold huge; lra | ].
  destruct (mul32 sy cp Fsy Fcp) as [Fz Ez]; [ fold SY CP; unfold huge; lra | ].
  fold CY CP in Ex. fold SY CP in Ez.
  pose proof (sq_perturb _ _ Ex ltac:(lra)) as [Px _].
  pose proof (sq_perturb _ _ Ez ltac:(lra)) as [Pz _].
  apply Rabs_bounds in Ex, Ez.
  pose proof (Rabs_bounds _ _ B1) as B1'. pose proof (Rabs_bounds _ _ B2) as B2'.
  set (DX := B2R (SFmul 24 128 cy cp)) in *. set (DZ := B2R (SFmul 24 128 sy cp)) in *.
  unfold U, tiny in *.
  split; [ auto | split ].
  - split; [ | split; [ exact B3 | ] ]; apply Rabs_le; lra.
  - assert (H1 : 3 / 4 * (CP * CP) <= CY * CP * (CY * CP) + SY * CP * (SY * CP)) by nra.
    lra.
Qed.

(** The length of the vector differs from 1 by no more than its square. *)
Lemma sqrt_near_one (s c : R) : 0 <= s -> Rabs (s - 1) <= c -> Rabs (sqrt s - 1) <= c.
Proof.
  intros Hs Hc. apply Rabs_bounds in Hc.
  assert (Ht : 0 <= sqrt s) by apply sqrt_pos.
  assert (Htt : sqrt s * sqrt s = s) by (apply sqrt_sqrt; exact Hs).
  set (t := sqrt s) in *. apply Rabs_le. split; nra.
Qed.

End Normalize32.

End Binary32_error.

End Rounding_facts.

(** ** The front vector in binary32 *)

Section Front32.
Import IEEE Rounding Rounding_facts.
Context {L : Libm}.
#[local] Existing Instance F32.
Local Open Scope R_scope.

Lemma normalize32_length (v : vec3) :
  finite3 v -> bounded3 2 v -> / 4 <= norm2 v ->
  finite3 (normalize v) /\ Rabs (length32 (normalize v) - 1) <= / 1048576.
Proof.
  intros Hf Hb Hn. destruct (normalize32 v Hf Hb Hn) as [Ff Hl].
  split; [ exact Ff | ].
  apply sqrt_near_one.
  - unfold norm2. nra.
  - unfold U in Hl. lra.
Qed.

(** X23: in binary32 [glm::normalize] returns, for every finite vector
    with components of magnitude at most 2 and of squared length at
    least 1/4, a vector with finite components whose length, taken
    exactly, is within [2^-20] of 1. *)
Theorem X23_normalize_unit_in_binary32 (v : vec3) :
  finite3 v -> bounded3 2 v -> / 4 <= norm2 v ->
  let k := SFdiv 24 128 (of_Q 24 128 1)
             (SFsqrt 24 128
                (SFadd 24 128
                   (SFadd 24 128 (SFmul 24 128 (vx v) (vx v)) (SFmul 24 128 (vy v) (vy v)))
                   (SFmul 24 128 (vz v) (vz v)))) in
  normalize v = Vec3 (SFmul 24 128 (vx v) k) (SFmul 24 128 (vy v) k) (SFmul 24 128 (vz v) k) /\
  finite3 (normalize v) /\
  Rabs (length32 (normalize v) - 1) <= / 1048576.
Proof.
  intros Hf Hb Hn k. split; [ reflexivity | ].
  apply normalize32_length; assumption.
Qed.

(** C4: in binary32, whatever the C library.  After a mouse-move
    processed in capture mode the front vector is [glm::normalize] of the
    direction (cos y cos p, sin p, sin y cos p), [y] and [p] being the
    updated yaw and pitch converted to radians, every operation being
    the binary32 one.  If the answers of the library at the two angles
    are finite and satisfy cos^2 + sin^2 = 1 within a quarter, the front
    vector has finite components and its length, taken exactly, is
    within [2^-20] of 1. *)
Theorem C4_front_is_unit (xpos ypos : double) (g : Globals) :
  leftMousePressed (mouse g) = true ->
  let g' := mouse_callback xpos ypos g in
  let rad := of_Q 24 128 0.01745329251994329576923690768489 in
  let y := SFmul 24 128 (yaw (mouse g')) rad in
  let p := SFmul 24 128 (pitch (mouse g')) rad in
  let dx := SFmul 24 128 (cosf y) (cosf p) in
  let dy := sinf p in
  let dz := SFmul 24 128 (sinf y) (cosf p) in
  let k := SFdiv 24 128 (of_Q 24 128 1)
             (SFsqrt 24 128
                (SFadd 24 128 (SFadd 24 128 (SFmul 24 128 dx dx) (SFmul 24 128 dy dy))
                              (SFmul 24 128 dz dz))) in
  cameraFront (camera g') =
    Vec3 (SFmul 24 128 dx k) (SFmul 24 128 dy k) (SFmul 24 128 dz k) /\
  (library_ok (cosf y) (sinf y) -> library_ok (cosf p) (sinf p) ->
   finite3 (cameraFront (camera g')) /\
   Rabs (length32 (cameraFront (camera g')) - 1) <= / 1048576).
Proof.
  intros Hcap.
  pose proof (cameraFront_mouse_callback xpos ypos g Hcap) as Hf. cbv zeta in Hf.
  generalize dependent (mouse_callback xpos ypos g). intros g' Hf. cbv zeta.
  rewrite Hf. split; [ reflexivity | ].
  intros Hy Hp.
  destruct (direction32 _ _ _ _ Hy Hp) as (F & B & N).
  exact (normalize32_length _ F B N).
Qed.

Lemma speed_value : is_finite (of_Q 24 128 2.5) = true /\ B2R (of_Q 24 128 2.5) = 5 / 2.
Proof.
  split; [ reflexivity | ].
  change (of_Q 24 128 2.5) with (S754_finite false 10485760 (-22)). cbn [B2R]. unfold sign.
  change (-22)%Z with (- (22))%Z. rewrite p2_opp, <- p2_IZR by lia.
  change (2 ^ 22)%Z with 4194304%Z. field.
Qed.

Lemma step32 (forward : bool) (dt p f : spec_float) :
  is_finite dt = true -> Rabs (B2R dt) <= 1000000 ->
  is_finite p = true -> Rabs (B2R p) <= 100000000000000000000 ->
  is_finite f = true -> Rabs (B2R f) <= 2 ->
  let m := SFmul 24 128 (SFmul 24 128 (of_Q 24 128 2.5) dt) f in
  step_within (if forward then SFadd 24 128 p m else SFsub 24 128 p m) p
    ((if forward then 1 else -1) * (5 / 2 * B2R dt) * B2R f).
Proof.
  intros Fdt Hdt Fp Hp Ff Hf m.
  destruct speed_value as [Fc Ec].
  destruct (step_product32 (of_Q 24 128 2.5) dt f (5 / 2) Fc Fdt Ff Ec ltac:(lra) Hdt Hf)
    as (Fm & Em & HT).
  cbv zeta in Fm, Em, HT. fold m in Fm, Em.
  destruct (step_sum32 p m _ forward Fp Fm Hp HT Em) as [Fr Er]. cbv zeta in Fr, Er.
  split; [ exact Fr | ].
  destruct forward.
  - replace (1 * (5 / 2 * B2R dt) * B2R f) with (5 / 2 * B2R dt * B2R f) by ring.
    exact Er.
  - replace (B2R p + -1 * (5 / 2 * B2R dt) * B2R f) with (B2R p - 5 / 2 * B2R dt * B2R f) by ring.
    replace (-1 * (5 / 2 * B2R dt) * B2R f) with (- (5 / 2 * B2R dt * B2R f)) by ring.
    rewrite Rabs_Ropp. exact Er.
Qed.

(** X24: in binary32, one call of [processInput] with W alone (or S
    alone) among the movement keys moves each coordinate of the camera by
    2.5 * deltaTime times the coordinate of the front vector (or by its
    opposite), up to a rounding error of at most one unit roundoff
    ([2^-24]) of the coordinate and five of the step: a step smaller than
    that can be lost in the sum. *)
Theorem X24_step_in_binary32 (forward : bool) (w : keyboard) (g : Globals) :
  holds_only (if forward then GLFW_KEY_W else GLFW_KEY_S) w ->
  is_finite (deltaTime (clock g)) = true ->
  Rabs (B2R (deltaTime (clock g))) <= 1000000 ->
  finite3 (cameraPos (camera g)) ->
  bounded3 100000000000000000000 (cameraPos (camera g)) ->
  finite3 (cameraFront (camera g)) -> bounded3 2 (cameraFront (camera g)) ->
  let c := camera g in
  let c' := camera (processInput w g) in
  let d := (if forward then 1 else -1) * (5 / 2 * B2R (deltaTime (clock g))) in
  step_within (vx (cameraPos c')) (vx (cameraPos c)) (d * B2R (vx (cameraFront c))) /\
  step_within (vy (cameraPos c')) (vy (cameraPos c)) (d * B2R (vy (cameraFront c))) /\
  step_within (vz (cameraPos c')) (vz (cameraPos c)) (d * B2R (vz (cameraFront c))).
Proof.
  intros [_ Hw] Fdt Hdt (Fx & Fy & Fz) (Bx & By & Bz) (Ffx & Ffy & Ffz) (Bfx & Bfy & Bfz).
  cbv zeta.
  change (camera (processInput w g))
    with (move_camera w (SFmul 24 128 (of_Q 24 128 2.5) (deltaTime (clock g))) (camera g)).
  unfold move_camera.
  rewrite (Hw GLFW_KEY_W), (Hw GLFW_KEY_S), (Hw GLFW_KEY_A), (Hw GLFW_KEY_D)
    by (cbn; auto).
  destruct forward;
    repeat first [ rewrite bool_decide_eq_true_2 by reflexivity
                 | rewrite bool_decide_eq_false_2 by discriminate ];
    cbn [cameraPos cameraFront set_cameraPos vadd vsub smul vx vy vz].
  - split; [ | split ].
    + exact (step32 true _ _ _ Fdt Hdt Fx Bx Ffx Bfx).
    + exact (step32 true _ _ _ Fdt Hdt Fy By Ffy Bfy).
    + exact (step32 true _ _ _ Fdt Hdt Fz Bz Ffz Bfz).
  - split; [ | split ].
    + exact (step32 false _ _ _ Fdt Hdt Fx Bx Ffx Bfx).
    + exact (step32 false _ _ _ Fdt Hdt Fy By Ffy Bfy).
    + exact (step32 false _ _ _ Fdt Hdt Fz Bz Ffz Bfz).
Qed.

Lemma frame_step32 (k : key) (w : keyboard) (g : Globals) :
  holds_only k w ->
  is_finite (deltaTime (clock g)) = true ->
  Rabs (B2R (deltaTime (clock g))) <= 1000000 ->
  finite3 (cameraPos (camera g)) ->
  bounded3 100000000000000000000 (cameraPos (camera g)) ->
  finite3 (axis32 k (camera g)) -> bounded3 2 (axis32 k (camera g)) ->
  let c := camera g in
  let c' := camera (processInput w g) in
  let d := toward k * (5 / 2 * B2R (deltaTime (clock g))) in
  step_within (vx (cameraPos c')) (vx (cameraPos c)) (d * B2R (vx (axis32 k c))) /\
  step_within (vy (cameraPos c')) (vy (cameraPos c)) (d * B2R (vy (axis32 k c))) /\
  step_within (vz (cameraPos c')) (vz (cameraPos c)) (d * B2R (vz (axis32 k c))).
Proof.
  intros [Hk Hw] Fdt Hdt (Fx & Fy & Fz) (Bx & By & Bz) (Fax & Fay & Faz) (Bax & Bay & Baz).
  cbv zeta.
  change (camera (processInput w g))
    with (move_camera w (SFmul 24 128 (of_Q 24 128 2.5) (deltaTime (clock g))) (camera g)).
  unfold move_camera.
  rewrite (Hw GLFW_KEY_W), (Hw GLFW_KEY_S), (Hw GLFW_KEY_A), (Hw GLFW_KEY_D)
    by (cbn; auto).
  cbn in Hk. destruct Hk as [<-|[<-|[<-|[<-|[]]]]];
    repeat first [ rewrite bool_decide_eq_true_2 by reflexivity
                 | rewrite bool_decide_eq_false_2 by discriminate ];
    cbn [cameraPos cameraFront cameraUp set_cameraPos vadd vsub smul vmuls vx vy vz
         axis32 toward] in *.
  - split; [ | split ].
    + exact (step32 true _ _ _ Fdt Hdt Fx Bx Fax Bax).
    + exact (step32 true _ _ _ Fdt Hdt Fy By Fay Bay).
    + exact (step32 true _ _ _ Fdt Hdt Fz Bz Faz Baz).
  - split; [ | split ].
    + exact (step32 false _ _ _ Fdt Hdt Fx Bx Fax Bax).
    + exact (step32 false _ _ _ Fdt Hdt Fy By Fay Bay).
    + exact (step32 false _ _ _ Fdt Hdt Fz Bz Faz Baz).
  - change fmul with (SFmul 24 128).
    rewrite !(SFmul_comm 24 128 _ (SFmul 24 128 (of_Q 24 128 2.5) (deltaTime (clock g)))).
    split; [ | split ].
    + exact (step32 false _ _ _ Fdt Hdt Fx Bx Fax Bax).
    + exact (step32 false _ _ _ Fdt Hdt Fy By Fay Bay).
    + exact (step32 false _ _ _ Fdt Hdt Fz Bz Faz Baz).
  - change fmul with (SFmul 24 128).
    rewrite !(SFmul_comm 24 128 _ (SFmul 24 128 (of_Q 24 128 2.5) (deltaTime (clock g)))).
    split; [ | split ].
    + exact (step32 true _ _ _ Fdt Hdt Fx Bx Fax Bax).
    + exact (step32 true _ _ _ Fdt Hdt Fy By Fay Bay).
    + exact (step32 true _ _ _ Fdt Hdt Fz Bz Faz Baz).
Qed.

End Front32.

(** C6: with one movement key held and no mouse event.  In exact
    arithmetic, over frames whose positive time steps sum to [t] the
    camera moves by exactly [baseSpeed * t] along the axis of the key as
    it was at the start, the front vector is unchanged, and two runs whose
    steps have the same sum end at the same position.  In binary32 one
    frame moves every coordinate by [2.5 * deltaTime] along the axis up to
    a rounding error of at most one unit roundoff ([2^-24]) of the
    coordinate and five of the step, and leaves front and up as they are;
    these errors add up over the frames, and the position reached depends
    on how the time is cut into frames
    ([C6_binary32_depends_on_frames]). *)
Theorem C6_displacement_over_frames :
  (forall (k : key) (w : keyboard) (t : R) (dts : list R) (g : @Globals Exact),
     holds_only k w -> Forall (fun dt => 0 < dt)%R dts -> total dts = t ->
     cameraPos (camera (hold w dts g)) =
       @vadd Exact (cameraPos (camera g))
                   (@smul Exact (baseSpeed * t)%R (axis k (camera g))) /\
     cameraFront (camera (hold w dts g)) = cameraFront (camera g) /\
     forall dts', Forall (fun dt => 0 < dt)%R dts' -> total dts' = t ->
       cameraPos (camera (hold w dts' g)) = cameraPos (camera (hold w dts g))) /\
  (forall (L : IEEE.Libm) (k : key) (w : keyboard) (g : @Globals (@IEEE.F32 L)),
     holds_only k w ->
     IEEE.is_finite (deltaTime (clock g)) = true ->
     (Rabs (Rounding.B2R (deltaTime (clock g))) <= 1000000)%R ->
     finite3 (cameraPos (camera g)) ->
     bounded3 100000000000000000000 (cameraPos (camera g)) ->
     finite3 (axis32 k (camera g)) -> bounded3 2 (axis32 k (camera g)) ->
     let c := camera g in
     let c' := camera (processInput w g) in
     let d := (toward k * (5 / 2 * Rounding.B2R (deltaTime (clock g))))%R in
     step_within (vx (cameraPos c')) (vx (cameraPos c))
                 (d * Rounding.B2R (vx (axis32 k c)))%R /\
     step_within (vy (cameraPos c')) (vy (cameraPos c))
                 (d * Rounding.B2R (vy (axis32 k c)))%R /\
     step_within (vz (cameraPos c')) (vz (cameraPos c))
                 (d * Rounding.B2R (vz (axis32 k c)))%R /\
     cameraFront c' = cameraFront c /\ cameraUp c' = cameraUp c).
Proof.
  split.
  - intros k w t dts g. apply hold_displacement.
  - intros L k w g Hw Fdt Hdt Fp Bp Fa Ba. cbv zeta.
    destruct (@frame_step32 L k w g Hw Fdt Hdt Fp Bp Fa Ba) as (Hx & Hy & Hz).
    split; [ exact Hx | split; [ exact Hy | split; [ exact Hz | ] ] ].
    apply (@move_camera_front_up (@IEEE.F32 L)).
Qed.

(** * The properties at concrete inputs *)

(** With the reset key and key 1 pressed in one frame from the initial
    state, the debounce flag of key 1 is set after the frame: the reset
    does not clear the debounce flags of held keys. *)
Lemma C2_debounce_flag_survives_reset :
  ~ (forall (w : keyboard) (g : @Globals F32_flat) (i : nat),
       wf_toggles (toggles g) -> pressed w GLFW_KEY_0 = true -> i < 5 ->
       let t := toggles (processInput w g) in
       toggleStates t !!! i = false /\ get_flag i t = false /\
       keyStates t !!! i = false).
Proof.
  intros H.
  destruct (H reset_with_1 init 0 init_wf eq_refl ltac:(lia)) as (_ & _ & Hk).
  vm_compute in Hk. discriminate Hk.
Qed.

Lemma C2_reset_clears_toggles_witness :
  wf_toggles (toggles (@init F32_flat)) /\
  pressed reset_with_1 GLFW_KEY_0 = true /\
  let t := toggles (processInput reset_with_1 (@init F32_flat)) in
  toggleStates t !!! 0 = false /\ get_flag 0 t = false /\
  keyStates t !!! 0 = pressed reset_with_1 (keys !!! 0).
Proof.
  split; [ split; reflexivity | split; [ reflexivity | ] ].
  apply (@C2_reset_clears_toggles F32_flat reset_with_1 init 0);
    [ split; reflexivity | reflexivity | lia ].
Defined.

Lemma C3_pitch_clamped_witness :
  Forall (@finite_event IEEE.libm_flat) drag_down /\
  @pitch_in_range IEEE.libm_flat (foldl dispatch init (take 3 drag_down)).
Proof.
  split.
  - repeat constructor.
  - apply (@C3_pitch_clamped IEEE.libm_flat drag_down 3). repeat constructor.
Defined.

Lemma quarter_turn_ok :
  @library_ok (S754_finite true 12303662 (-48)) (S754_finite true 8388608 (-23)) /\
  @library_ok (IEEE.of_Q 24 128 1) (S754_zero false).
Proof.
  assert (E48 : Rounding.p2 (-48) = (/ 281474976710656)%R).
  { change (-48)%Z with (- (48))%Z.
    rewrite Rounding_facts.p2_opp, <- Rounding_facts.p2_IZR by lia. reflexivity. }
  assert (E23 : Rounding.p2 (-23) = (/ 8388608)%R).
  { change (-23)%Z with (- (23))%Z.
    rewrite Rounding_facts.p2_opp, <- Rounding_facts.p2_IZR by lia. reflexivity. }
  split; (split; [ reflexivity | split; [ reflexivity | ] ]).
  - cbn [Rounding.B2R]. unfold Rounding.sign. rewrite E48, E23. lra.
  - change (IEEE.of_Q 24 128 1) with (S754_finite false 8388608 (-23)).
    cbn [Rounding.B2R]. unfold Rounding.sign. rewrite E23. lra.
Qed.

Lemma C4_front_is_unit_witness :
  let g := @mouse_button_callback F32_quarter GLFW_MOUSE_BUTTON_LEFT GLFW_PRESS init in
  let g' := @mouse_callback F32_quarter (IEEE.dlit 410) (IEEE.dlit 300) g in
  leftMousePressed (mouse g) = true /\
  @library_ok (S754_finite true 12303662 (-48)) (S754_finite true 8388608 (-23)) /\
  @library_ok (IEEE.of_Q 24 128 1) (S754_zero false) /\
  cameraFront (camera g') =
    @Vec3 F32_quarter (S754_finite true 12303662 (-48)) (S754_zero false)
                      (S754_finite true 8388608 (-23)) /\
  @finite3 libm_quarter (cameraFront (camera g')) /\
  (Rabs (@length32 libm_quarter (cameraFront (camera g')) - 1) <= / 1048576)%R.
Proof.
  intros g g'.
  destruct quarter_turn_ok as [Hy Hp].
  destruct (@C4_front_is_unit libm_quarter (IEEE.dlit 410) (IEEE.dlit 300) g eq_refl)
    as [Hfront Hunit].
  split; [ reflexivity | split; [ exact Hy | split; [ exact Hp | split ] ] ].
  - reflexivity.
  - exact (Hunit Hy Hp).
Defined.

Lemma C5_toggle_parity_witness :
  (let fs := map quiet_frame (taps GLFW_KEY_2 [(0, 0); (1, 0); (0, 2)]) in
   let t := toggles (fst (foldl render_frame (@init F32_flat, []) fs)) in
   Forall (fun f => no_reset (window f)) fs /\
   toggleStates t !!! 1 = true /\ get_flag 1 t = true) /\
  (let t := run_toggles (taps GLFW_KEY_2 [(0, 0); (3, 1)]) (toggles (@init F32_flat)) in
   toggleStates t !!! 1 = false /\ get_flag 1 t = false) /\
  (let t := toggles (processInput (only GLFW_KEY_2) (@init F32_flat)) in
   applyRotation t = true /\ applyTranslation t = false /\ applyScaling t = false /\
   applyShearing t = false /\ applyReflection t = false) /\
  (let t1 := toggles (processInput (only GLFW_KEY_2) (@init F32_flat)) in
   let t := run_toggles [only GLFW_KEY_2; only GLFW_KEY_2] t1 in
   toggleStates t !!! 1 = toggleStates t1 !!! 1 /\ get_flag 1 t = get_flag 1 t1).
Proof.
  destruct (@C5_toggle_parity F32_flat) as (Hrun & Htaps & Hkey2 & Hheld).
  split; [ | split; [ | split ] ].
  - assert (Hall : Forall (fun f : @frame F32_flat => no_reset (window f))
                     (map quiet_frame (taps GLFW_KEY_2 [(0, 0); (1, 0); (0, 2)])))
      by (repeat constructor).
    split; [ exact Hall | ].
    exact (Hrun 1 _ [] ltac:(lia) Hall).
  - exact (Htaps 1 [(0, 0); (3, 1)] ltac:(lia)).
  - apply (Hkey2 (only GLFW_KEY_2)); [ reflexivity | ].
    intros k Hk. cbn in Hk.
    destruct Hk as [<-|[<-|[<-|[<-|[<-|[]]]]]]; reflexivity.
  - apply (Hheld 1 init (only GLFW_KEY_2) [only GLFW_KEY_2; only GLFW_KEY_2]);
      [ lia | split; reflexivity | repeat constructor ].
Defined.

(** In binary32 the position reached does depend on how the time is cut
    into frames.  With the camera at [z = 131072] looking down the
    negative z axis and W held for one second, a single frame of one second
    moves it by 2.5, to 131069.5, while 1024 frames of 1/1024 s each
    leave it where it was: each step of 2.5/1024 is less than half the
    distance to the next binary32 value.  The same shows from the start of
    [main]: after a frame that ends at time 65536 with S held (the camera
    then at 163843), W held for the next second moves the camera by 2.5
    in one frame and by 2 in 128 frames of 1/128 s. *)
Lemma C6_binary32_depends_on_frames :
  (let one := [key_frame GLFW_KEY_W 1] in
   let many := map (key_frame GLFW_KEY_W) (ticks 0 1024 1024) in
   length many = 1024 /\
   now (List.last many (key_frame GLFW_KEY_W 0)) = now (List.last one (key_frame GLFW_KEY_W 0)) /\
   vz (cameraFront (camera far_away)) = @flit F32_flat (-1) /\
   vz (cameraPos (camera far_away)) = @flit F32_flat 131072 /\
   vz (position_after far_away one) = @flit F32_flat 131069.5 /\
   vz (position_after far_away many) = @flit F32_flat 131072) /\
  (let retreat := key_frame GLFW_KEY_S 65536 in
   let one := [retreat; key_frame GLFW_KEY_W 65537] in
   let many := retreat :: map (key_frame GLFW_KEY_W) (ticks 65536 128 128) in
   now (List.last many retreat) = now (List.last one retreat) /\
   vz (position_at_exit [retreat]) = @flit F32_flat 163843 /\
   vz (position_at_exit one) = @flit F32_flat 163840.5 /\
   vz (position_at_exit many) = @flit F32_flat 163841).
Proof.
  cbv zeta.
  split; [ split; [ | split; [ | split; [ | split; [ | split ] ] ] ]
         | split; [ | split; [ | split ] ] ];
    vm_compute; reflexivity.
Qed.

Lemma strafe_from_init :
  let g := @begin_frame F32_flat (IEEE.dlit 1) init in
  Rounding.B2R (deltaTime (clock g)) = 1%R /\
  @axis32 IEEE.libm_flat GLFW_KEY_D (camera g) =
    @Vec3 F32_flat (S754_finite false 8388608 (-23)) (S754_zero true) (S754_zero false) /\
  Rounding.B2R (vx (cameraPos (camera g))) = 0%R /\
  Rounding.B2R (vy (cameraPos (camera g))) = 0%R /\
  Rounding.B2R (vz (cameraPos (camera g))) = 3%R.
Proof.
  assert (E23 : Rounding.p2 (-23) = (/ 8388608)%R).
  { change (-23)%Z with (- (23))%Z.
    rewrite Rounding_facts.p2_opp, <- Rounding_facts.p2_IZR by lia. reflexivity. }
  assert (E22 : Rounding.p2 (-22) = (/ 4194304)%R).
  { change (-22)%Z with (- (22))%Z.
    rewrite Rounding_facts.p2_opp, <- Rounding_facts.p2_IZR by lia. reflexivity. }
  intros g.
  change (deltaTime (clock g)) with (S754_finite false 8388608 (-23)).
  change (vx (cameraPos (camera g))) with (S754_zero false).
  change (vy (cameraPos (camera g))) with (S754_zero false).
  change (vz (cameraPos (camera g))) with (S754_finite false 12582912 (-22)).
  cbn [Rounding.B2R]. unfold Rounding.sign. rewrite E23, E22.
  split; [ lra | split; [ reflexivity | split; [ reflexivity | split; [ reflexivity | lra ] ] ] ].
Qed.

Lemma C6_displacement_over_frames_witness :
  (let g := @init Exact in
   let w := only GLFW_KEY_W in
   holds_only GLFW_KEY_W w /\
   Forall (fun dt => 0 < dt)%R [1; 2]%R /\ total [1; 2]%R = 3%R /\
   cameraPos (camera (hold w [1; 2]%R g)) =
     @vadd Exact (cameraPos (camera g))
                 (@smul Exact (baseSpeed * 3)%R (axis GLFW_KEY_W (camera g))) /\
   cameraFront (camera (hold w [1; 2]%R g)) = cameraFront (camera g) /\
   forall dts', Forall (fun dt => 0 < dt)%R dts' -> total dts' = 3%R ->
     cameraPos (camera (hold w dts' g)) = cameraPos (camera (hold w [1; 2]%R g))) /\
  (let g := @begin_frame F32_flat (IEEE.dlit 1) init in
   let w := only GLFW_KEY_D in
   let c := camera g in
   let c' := camera (processInput w g) in
   holds_only GLFW_KEY_D w /\
   IEEE.is_finite (deltaTime (clock g)) = true /\
   (Rabs (Rounding.B2R (deltaTime (clock g))) <= 1000000)%R /\
   @finite3 IEEE.libm_flat (cameraPos c) /\
   @bounded3 IEEE.libm_flat 100000000000000000000 (cameraPos c) /\
   @finite3 IEEE.libm_flat (@axis32 IEEE.libm_flat GLFW_KEY_D c) /\
   @bounded3 IEEE.libm_flat 2 (@axis32 IEEE.libm_flat GLFW_KEY_D c) /\
   vx (cameraPos c') = @flit F32_flat 2.5 /\
   step_within (vx (cameraPos c')) (vx (cameraPos c))
     (toward GLFW_KEY_D * (5 / 2 * Rounding.B2R (deltaTime (clock g))) *
      Rounding.B2R (vx (@axis32 IEEE.libm_flat GLFW_KEY_D c)))%R).
Proof.
  destruct C6_displacement_over_frames as [Hexact Hfloat].
  split.
  - intros g w.
    assert (Hw : holds_only GLFW_KEY_W w).
    { split; [ cbn; auto | ]. intros k' _. apply pressed_only. }
    assert (Hpos : Forall (fun dt => 0 < dt)%R [1; 2]%R) by (repeat constructor; lra).
    assert (Hsum : total [1; 2]%R = 3%R) by (cbn; lra).
    split; [ exact Hw | split; [ exact Hpos | split; [ exact Hsum | ] ] ].
    exact (Hexact GLFW_KEY_W w 3%R [1; 2]%R g Hw Hpos Hsum).
  - intros g w c c'.
    destruct strafe_from_init as (Edt & Eax & Epx & Epy & Epz). cbv zeta in Edt, Eax, Epx, Epy, Epz.
    fold g in Edt, Eax, Epx, Epy, Epz. unfold F32_flat in *.
    assert (Hw : holds_only GLFW_KEY_D w).
    { split; [ cbn; auto | ]. intros k' _. apply pressed_only. }
    assert (Hdt : (Rabs (Rounding.B2R (deltaTime (clock g))) <= 1000000)%R).
    { rewrite Edt. apply Rabs_le. lra. }
    assert (Fp : @finite3 IEEE.libm_flat (cameraPos c)) by (repeat split).
    assert (Bp : @bounded3 IEEE.libm_flat 100000000000000000000 (cameraPos c)).
    { unfold bounded3, c. rewrite Epx, Epy, Epz. repeat split; apply Rabs_le; lra. }
    assert (Fa : @finite3 IEEE.libm_flat (@axis32 IEEE.libm_flat GLFW_KEY_D c))
      by (unfold c; rewrite Eax; repeat split).
    assert (Ba : @bounded3 IEEE.libm_flat 2 (@axis32 IEEE.libm_flat GLFW_KEY_D c)).
    { unfold c. rewrite Eax. unfold bounded3. cbn [vx vy vz].
      change (S754_finite false 8388608 (-23)) with (deltaTime (clock g)).
      rewrite Edt. cbn [Rounding.B2R]. repeat split; apply Rabs_le; lra. }
    split; [ exact Hw | split; [ reflexivity | split; [ exact Hdt | ] ] ].
    split; [ exact Fp | split; [ exact Bp | split; [ exact Fa | split; [ exact Ba | ] ] ] ].
    split; [ reflexivity | ].
    exact (proj1 (Hfloat IEEE.libm_flat GLFW_KEY_D w g Hw eq_refl Hdt Fp Bp Fa Ba)).
Defined.

Lemma C8_exit_codes_witness :
  let no_window : @environment F32_flat :=
    {| window_created := false; loader_ok := true; frames := [] |} in
  let no_loader : @environment F32_flat :=
    {| window_created := true; loader_ok := false; frames := [] |} in
  let closed : @environment F32_flat :=
    {| window_created := true; loader_ok := true;
       frames := [quiet_frame nothing; quiet_frame (only GLFW_KEY_W)] |} in
  (exit_code (main no_window) <> 0%Z /\
   stdout (main no_window) = ["Failed to create GLFW window"%string]) /\
  (exit_code (main no_loader) <> 0%Z /\
   stdout (main no_loader) = ["Failed to initialize GLAD"%string]) /\
  exit_code (main closed) = 0%Z.
Proof.
  intros no_window no_loader closed.
  split; [ | split ].
  - exact (proj1 (C8_exit_codes no_window) eq_refl).
  - exact (proj1 (proj2 (C8_exit_codes no_loader)) eq_refl eq_refl).
  - exact (proj2 (proj2 (C8_exit_codes closed)) eq_refl eq_refl).
Defined.

Lemma C9_mouse_ignored_without_capture_witness :
  leftMousePressed (mouse (@init F32_flat)) = false /\
  let g' := @mouse_callback F32_flat (IEEE.dlit 410) (IEEE.dlit 300) init in
  g' = init /\
  yaw (mouse g') = yaw (mouse init) /\
  pitch (mouse g') = pitch (mouse init) /\
  cameraFront (camera g') = cameraFront (camera init) /\
  lastX (mouse g') = lastX (mouse init) /\
  lastY (mouse g') = lastY (mouse init).
Proof.
  split; [ reflexivity | ].
  exact (@C9_mouse_ignored_without_capture F32_flat
           (IEEE.dlit 410) (IEEE.dlit 300) init eq_refl).
Defined.

Lemma C10_reset_wins_in_frame_witness :
  wf_toggles (toggles (@init F32_flat)) /\
  pressed reset_with_1 GLFW_KEY_0 = true /\
  pressed reset_with_1 (keys !!! 0) = true /\
  let t := toggles (processInput reset_with_1 (@init F32_flat)) in
  (toggleStates t !!! 0 = false /\ get_flag 0 t = false) /\
  keyStates t !!! 0 = true /\
  let t' := toggles (processInput (only GLFW_KEY_1) (processInput reset_with_1 (@init F32_flat))) in
  toggleStates t' !!! 0 = false /\ get_flag 0 t' = false.
Proof.
  assert (Hwf : wf_toggles (toggles (@init F32_flat))) by (split; reflexivity).
  split; [ exact Hwf | split; [ reflexivity | split; [ reflexivity | ] ] ].
  destruct (@C10_reset_wins_in_frame F32_flat reset_with_1 init Hwf eq_refl)
    as (_ & Hoff & Hheld).
  destruct (Hheld 0 ltac:(lia) eq_refl) as [Hk Hnext].
  split; [ exact (Hoff 0 ltac:(lia)) | split; [ exact Hk | ] ].
  exact (Hnext (only GLFW_KEY_1) eq_refl).
Defined.

(** * Further properties of the input handling and of [main] *)

Section Reachable.
Context {A : Arith}.

(** The globals at the end of a run. *)
Lemma final_main (env : environment) :
  final (main env) =
  if window_created env && loader_ok env
  then fst (foldl render_frame
              (init, [glBufferData vertices; glVertexAttribPointer 0 3 6 0;
                      glVertexAttribPointer 1 3 6 3]) (frames env))
  else init.
Proof.
  unfold main. destruct (window_created env), (loader_ok env); cbn [negb andb]; try reflexivity.
  destruct (foldl render_frame _ _). reflexivity.
Qed.

Lemma toggles_final_main (env : environment) :
  exists ws : list keyboard, toggles (final (main env)) = run_toggles ws (toggles init).
Proof.
  rewrite final_main. destruct (window_created env && loader_ok env).
  - exists (map window (frames env)). apply toggles_render_loop.
  - exists []. reflexivity.
Qed.

(** An invariant of [process_toggles] that holds initially holds at the
    end of every run. *)
Lemma toggles_invariant (P : Toggles -> Prop) (env : environment) :
  P (toggles init) ->
  (forall w t, wf_toggles t -> P t -> P (process_toggles w t)) ->
  P (toggles (final (main env))).
Proof.
  intros Hinit Hstep. destruct (toggles_final_main env) as [ws ->].
  assert (H : forall t, wf_toggles t -> P t ->
                        wf_toggles (run_toggles ws t) /\ P (run_toggles ws t)).
  { induction ws as [|w ws IH]; intros t Hwf Ht; [ split; assumption | ].
    change (run_toggles (w :: ws) t) with (run_toggles ws (process_toggles w t)).
    apply IH; auto using process_toggles_wf. }
  apply H; [ exact init_wf | exact Hinit ].
Qed.

Lemma process_toggles_mirrored (w : keyboard) (t : Toggles) :
  wf_toggles t -> mirrored t -> mirrored (process_toggles w t).
Proof.
  intros Hwf Hm i Hi. specialize (Hm i Hi).
  pose proof (process_toggles_cell w t i Hwf Hi) as Hc. cbn zeta in Hc.
  unfold cell in Hc. rewrite Hm in Hc. unfold cell_step, cell_reset in Hc.
  destruct (pressed w GLFW_KEY_0), (pressed w (keys !!! i)), (keyStates t !!! i);
    injection Hc as _ -> ->; reflexivity.
Qed.

(** X1: at the end of every run, whatever the keys and the events were,
    each of the five [apply...] flags equals the entry of [toggleStates]
    that drives it. *)
Theorem X1_flags_mirror_toggleStates (env : environment) (i : nat) :
  i < 5 ->
  get_flag i (toggles (final (main env))) = toggleStates (toggles (final (main env))) !!! i.
Proof.
  intros Hi. revert i Hi. change (mirrored (toggles (final (main env)))).
  apply toggles_invariant.
  - intros i Hi. do 5 (destruct i as [|i]; [ reflexivity | ]). lia.
  - apply process_toggles_mirrored.
Qed.

Lemma toggle_step_slot (w : keyboard) (t : Toggles) (i j : nat) :
  i <> j ->
  keyStates (toggle_step w t i) !!! j = keyStates t !!! j /\
  toggleStates (toggle_step w t i) !!! j = toggleStates t !!! j.
Proof.
  intros Hne. unfold toggle_step.
  destruct (pressed w (keys !!! i)); [ destruct (keyStates t !!! i) | ]; cbn;
    rewrite ?keyStates_set_flag, ?toggleStates_set_flag; cbn;
    rewrite ?list_lookup_total_insert_ne by assumption; split; reflexivity.
Qed.

Lemma reset_step_slot (t : Toggles) (i j : nat) :
  i <> j ->
  keyStates (reset_step t i) !!! j = keyStates t !!! j /\
  toggleStates (reset_step t i) !!! j = toggleStates t !!! j.
Proof.
  intros Hne. unfold reset_step.
  rewrite keyStates_set_flag, toggleStates_set_flag; cbn.
  rewrite list_lookup_total_insert_ne by assumption. split; reflexivity.
Qed.

Lemma process_toggles_slot (w : keyboard) (t : Toggles) (j : nat) :
  5 <= j ->
  keyStates (process_toggles w t) !!! j = keyStates t !!! j /\
  toggleStates (process_toggles w t) !!! j = toggleStates t !!! j.
Proof.
  intros Hj.
  assert (Htog : forall l t, Forall (fun i => i < 5) l ->
            keyStates (foldl (toggle_step w) t l) !!! j = keyStates t !!! j /\
            toggleStates (foldl (toggle_step w) t l) !!! j = toggleStates t !!! j).
  { induction l as [|a l IH]; intros t' Hall; cbn [foldl]; [ split; reflexivity | ].
    apply Forall_cons in Hall as [Ha Hall].
    destruct (IH (toggle_step w t' a) Hall) as [-> ->].
    apply toggle_step_slot. lia. }
  assert (Hres : forall l t, Forall (fun i => i < 5) l ->
            keyStates (foldl reset_step t l) !!! j = keyStates t !!! j /\
            toggleStates (foldl reset_step t l) !!! j = toggleStates t !!! j).
  { induction l as [|a l IH]; intros t' Hall; cbn [foldl]; [ split; reflexivity | ].
    apply Forall_cons in Hall as [Ha Hall].
    destruct (IH (reset_step t' a) Hall) as [-> ->].
    apply reset_step_slot. lia. }
  destruct seq_5_indices as [_ Hall]. unfold process_toggles.
  destruct (pressed w GLFW_KEY_0).
  - destruct (Hres (seq 0 5) (foldl (toggle_step w) t (seq 0 5)) Hall) as [-> ->].
    apply Htog, Hall.
  - apply Htog, Hall.
Qed.

(** X2: the arrays [keyStates] and [toggleStates] are declared with six
    entries and only the first five are ever written: at the end of every
    run both still have six entries and the sixth of each is false. *)
Theorem X2_sixth_entry_never_written (env : environment) :
  let t := toggles (final (main env)) in
  length (keyStates t) = 6 /\ length (toggleStates t) = 6 /\
  keyStates t !!! 5 = false /\ toggleStates t !!! 5 = false.
Proof.
  cbv zeta.
  apply (toggles_invariant
           (fun t => length (keyStates t) = 6 /\ length (toggleStates t) = 6 /\
                     keyStates t !!! 5 = false /\ toggleStates t !!! 5 = false)).
  - repeat split.
  - intros w t Hwf (_ & _ & Hk & Ht).
    destruct (process_toggles_wf w t Hwf) as [H1 H2].
    destruct (process_toggles_slot w t 5 ltac:(lia)) as [E1 E2].
    rewrite E1, E2. auto.
Qed.

(** X3: after every call of [processInput], from any well-formed state,
    the debounce flag of each toggle key tells whether that key was
    reported pressed in the call. *)
Theorem X3_debounce_is_last_key_state (w : keyboard) (g : Globals) (i : nat) :
  wf_toggles (toggles g) -> i < 5 ->
  keyStates (toggles (processInput w g)) !!! i = pressed w (keys !!! i).
Proof.
  intros Hwf Hi. rewrite toggles_processInput.
  pose proof (process_toggles_cell w (toggles g) i Hwf Hi) as Hc. cbn zeta in Hc.
  destruct (cell i (toggles g)) as [[k s] f]. unfold cell in Hc.
  unfold cell_step, cell_reset in Hc.
  destruct (pressed w GLFW_KEY_0), (pressed w (keys !!! i)), k;
    injection Hc as -> _ _; reflexivity.
Qed.

(** X4: toggle [i] depends on the history of its own key and of the
    reset key only: two runs of frames whose keyboards agree on these two
    keys, frame by frame, leave toggle [i], its flag and its debounce flag
    equal, whatever the other keys do. *)
Theorem X4_toggles_do_not_interfere (ws1 ws2 : list keyboard) (t : Toggles) (i : nat) :
  wf_toggles t -> i < 5 -> Forall2 (agree_on i) ws1 ws2 ->
  cell i (run_toggles ws1 t) = cell i (run_toggles ws2 t).
Proof.
  intros Hwf Hi Hall.
  assert (H : forall t1 t2, wf_toggles t1 -> wf_toggles t2 -> cell i t1 = cell i t2 ->
                            cell i (run_toggles ws1 t1) = cell i (run_toggles ws2 t2)).
  { induction Hall as [|w1 w2 ws1 ws2 [Hk H0] Hall IH]; intros t1 t2 Hwf1 Hwf2 Hc;
      [ exact Hc | ].
    change (run_toggles (w1 :: ws1) t1) with (run_toggles ws1 (process_toggles w1 t1)).
    change (run_toggles (w2 :: ws2) t2) with (run_toggles ws2 (process_toggles w2 t2)).
    apply IH; auto using process_toggles_wf.
    rewrite !process_toggles_cell by assumption. cbn zeta.
    rewrite Hk, H0, Hc. reflexivity. }
  apply H; auto.
Qed.

End Reachable.

Section Frames.
Context {A : Arith}.

(** X5: [processInput] writes the camera position and the toggles and
    nothing else: yaw, pitch, the cursor baseline, the capture flags, the
    clock, the cursor mode, the front vector and the up vector are as
    before; and with none of W, A, S, D reported pressed the camera
    position is as before too. *)
Theorem X5_processInput_writes_position_and_toggles (w : keyboard) (g : Globals) :
  let g' := processInput w g in
  mouse g' = mouse g /\ clock g' = clock g /\ cursor g' = cursor g /\
  cameraFront (camera g') = cameraFront (camera g) /\
  cameraUp (camera g') = cameraUp (camera g) /\
  (Forall (fun k => pressed w k = false) [GLFW_KEY_W; GLFW_KEY_A; GLFW_KEY_S; GLFW_KEY_D] ->
   camera g' = camera g).
Proof.
  cbv zeta. unfold processInput. cbn [mouse clock cursor camera with_toggles with_camera].
  destruct (move_camera_front_up w (fmul (flit 2.5) (deltaTime (clock g))) (camera g))
    as [Hf Hu].
  repeat split; try assumption.
  intros Hall. unfold move_camera.
  apply Forall_cons in Hall as [Hw Hall]. apply Forall_cons in Hall as [Ha Hall].
  apply Forall_cons in Hall as [Hs Hall]. apply Forall_cons in Hall as [Hd _].
  rewrite Hw, Ha, Hs, Hd. reflexivity.
Qed.

Lemma dispatch_frame (g : Globals) (e : event) :
  cameraPos (camera (dispatch g e)) = cameraPos (camera g) /\
  cameraUp (camera (dispatch g e)) = cameraUp (camera g) /\
  clock (dispatch g e) = clock g /\ toggles (dispatch g e) = toggles g.
Proof.
  destruct e as [xpos ypos|button act]; cbn [dispatch].
  - unfold mouse_callback. destruct (negb (leftMousePressed (mouse g))); repeat split.
  - unfold mouse_button_callback.
    repeat (match goal with |- context [bool_decide ?P] => destruct (bool_decide P) end);
      repeat split.
Qed.

Lemma dispatch_run_frame (es : list event) (g : Globals) :
  let g' := foldl dispatch g es in
  cameraPos (camera g') = cameraPos (camera g) /\
  cameraUp (camera g') = cameraUp (camera g) /\
  clock g' = clock g /\ toggles g' = toggles g.
Proof.
  cbv zeta. revert g. induction es as [|e es IH]; intros g; cbn [foldl]; [ repeat split | ].
  destruct (IH (dispatch g e)) as (-> & -> & -> & ->). apply dispatch_frame.
Qed.

(** X6: the mouse callbacks turn the camera and do nothing else to the
    scene: over any sequence of cursor and button events the camera
    position, the up vector, the clock and the toggles are as before. *)
Theorem X6_mouse_events_write_orientation_only (es : list event) (g : Globals) :
  let g' := foldl dispatch g es in
  cameraPos (camera g') = cameraPos (camera g) /\
  cameraUp (camera g') = cameraUp (camera g) /\
  clock g' = clock g /\ toggles g' = toggles g.
Proof. apply dispatch_run_frame. Qed.

Lemma render_frame_up (gc : Globals * list gl_call) (f : frame) :
  cameraUp (camera (fst (render_frame gc f))) = cameraUp (camera (fst gc)).
Proof.
  destruct gc as [g calls]. cbn [render_frame fst].
  destruct (dispatch_run_frame
              (events f) (processInput (window f) (begin_frame (now f) g)))
    as (_ & -> & _ & _).
  unfold processInput. cbn [camera with_toggles with_camera].
  apply move_camera_front_up.
Qed.

Lemma capture_inv_dispatch (g : Globals) (e : event) :
  capture_inv g -> capture_inv (dispatch g e).
Proof.
  intros [Hc Hf]. destruct e as [xpos ypos|button act]; cbn [dispatch].
  - unfold mouse_callback. destruct (leftMousePressed (mouse g)) eqn:Hcap; cbn [negb].
    + split; cbn.
      * destruct (firstMouse (mouse g)); cbn; rewrite ?Hcap;
          repeat (match goal with |- context [if ?c then _ else _] => destruct c; cbn end);
          rewrite ?Hcap; exact Hc || (rewrite Hcap in Hc; exact Hc).
      * destruct (firstMouse (mouse g)); cbn; rewrite ?Hcap;
          repeat (match goal with |- context [if ?c then _ else _] => destruct c; cbn end);
          rewrite ?Hcap; discriminate.
    + split; rewrite ?Hcap; assumption.
  - unfold mouse_button_callback.
    destruct (bool_decide (button = GLFW_MOUSE_BUTTON_LEFT)); [ | split; assumption ].
    destruct (bool_decide (act = GLFW_PRESS)); [ split; cbn; [ tauto | discriminate ] | ].
    destruct (bool_decide (act = GLFW_RELEASE)); [ | split; assumption ].
    split; cbn; [ split; discriminate | reflexivity ].
Qed.

Lemma capture_inv_render_frame (gc : Globals * list gl_call) (f : frame) :
  capture_inv (fst gc) -> capture_inv (fst (render_frame gc f)).
Proof.
  destruct gc as [g calls]. cbn [render_frame fst]. intros Hinv.
  assert (H : forall es g0, capture_inv g0 -> capture_inv (foldl dispatch g0 es)).
  { induction es as [|e es IH]; intros g0 H0; cbn [foldl]; [ exact H0 | ].
    apply IH, capture_inv_dispatch, H0. }
  apply H. exact Hinv.
Qed.

(** An invariant of the loop body that holds initially holds at the end
    of every run. *)
Lemma run_invariant (P : Globals -> Prop) (env : environment) :
  P init ->
  (forall gc f, P (fst gc) -> P (fst (render_frame gc f))) ->
  P (final (main env)).
Proof.
  intros Hinit Hstep. rewrite final_main.
  destruct (window_created env && loader_ok env); [ | exact Hinit ].
  assert (H : forall fs gc, P (fst gc) -> P (fst (foldl render_frame gc fs))).
  { induction fs as [|f fs IH]; intros gc Hgc; cbn [foldl]; [ exact Hgc | ].
    apply IH, Hstep, Hgc. }
  apply H. exact Hinit.
Qed.

(** X7: at the end of every run the cursor is hidden exactly when the
    left button is held, and whenever the button is not held the
    first-sample flag is set, so that the next capture starts with a
    fresh baseline. *)
Theorem X7_capture_and_cursor_agree (env : environment) :
  let g := final (main env) in
  (cursor g = GLFW_CURSOR_DISABLED <-> leftMousePressed (mouse g) = true) /\
  (leftMousePressed (mouse g) = false -> firstMouse (mouse g) = true).
Proof.
  cbv zeta. change (capture_inv (final (main env))).
  apply run_invariant.
  - split; cbn; [ split; discriminate | reflexivity ].
  - apply capture_inv_render_frame.
Qed.

(** X8: no statement of the program writes [cameraUp]: at the end of
    every run it is the initial vector (0, 1, 0). *)
Theorem X8_up_vector_constant (env : environment) :
  cameraUp (camera (final (main env))) = Vec3 (flit 0.0) (flit 1.0) (flit 0.0).
Proof.
  apply (run_invariant
           (fun g => cameraUp (camera g) = Vec3 (flit 0.0) (flit 1.0) (flit 0.0))).
  - reflexivity.
  - intros gc f Hgc. rewrite render_frame_up. exact Hgc.
Qed.

Lemma clock_render_frame (gc : Globals * list gl_call) (f : frame) :
  clock (fst (render_frame gc f)) =
  {| deltaTime := fsub (to_float (now f)) (lastFrame (clock (fst gc)));
     lastFrame := to_float (now f) |}.
Proof.
  destruct gc as [g calls]. cbn [render_frame fst].
  destruct (dispatch_run_frame
              (events f) (processInput (window f) (begin_frame (now f) g)))
    as (_ & _ & -> & _).
  reflexivity.
Qed.

Lemma lastFrame_render_loop (fs : list frame) (calls : list gl_call) :
  lastFrame (clock (fst (foldl render_frame (init, calls) fs))) =
  match last fs with
  | Some f => to_float (now f)
  | None => flit 0.0
  end.
Proof.
  induction fs as [|f fs _] using rev_ind; [ reflexivity | ].
  rewrite foldl_app, last_snoc. cbn [foldl]. rewrite clock_render_frame. reflexivity.
Qed.

(** X21: the clock follows the frames: after an iteration [lastFrame]
    is the time of that iteration converted to [float], and [deltaTime]
    is its difference to the time of the iteration before; in the first
    iteration the difference is taken to 0, the initial [lastFrame], so
    the first time step is the whole time since GLFW was initialised. *)
Theorem X21_clock_follows_frames (fs : list frame) (f : frame) (calls : list gl_call) :
  let g := fst (foldl render_frame (init, calls) (fs ++ [f])) in
  lastFrame (clock g) = to_float (now f) /\
  deltaTime (clock g) =
    fsub (to_float (now f))
         (match last fs with
          | Some f' => to_float (now f')
          | None => flit 0.0
          end).
Proof.
  cbv zeta. rewrite foldl_app. cbn [foldl]. rewrite clock_render_frame.
  cbn [lastFrame deltaTime]. rewrite lastFrame_render_loop. split; reflexivity.
Qed.

End Frames.

(** * Further properties of the camera, in exact arithmetic *)

Section MouseSteps.
Context {A : Arith}.

Lemma yaw_mouse_callback (xpos ypos : double) (g : Globals) :
  leftMousePressed (mouse g) = true ->
  yaw (mouse (mouse_callback xpos ypos g)) =
  fadd (yaw (mouse g))
       (fmul (to_float (dsub xpos (to_double (baseline_x xpos (mouse g))))) (flit 0.1)).
Proof.
  intros Hcap. unfold mouse_callback, baseline_x. rewrite Hcap. cbn [negb].
  destruct (firstMouse (mouse g)); cbn;
    (match goal with |- context [fgtb ?a ?b] => destruct (fgtb a b) end); cbn;
    (match goal with |- context [fltb ?a ?b] => destruct (fltb a b) end); reflexivity.
Qed.

Lemma baseline_mouse_callback (xpos ypos : double) (g : Globals) :
  leftMousePressed (mouse g) = true ->
  let m := mouse (mouse_callback xpos ypos g) in
  leftMousePressed m = true /\ firstMouse m = false /\
  lastX m = to_float xpos /\ lastY m = to_float ypos.
Proof.
  intros Hcap. cbv zeta. unfold mouse_callback. rewrite Hcap. cbn [negb].
  destruct (firstMouse (mouse g)) eqn:Hfirst; cbn;
    (match goal with |- context [fgtb ?a ?b] => destruct (fgtb a b) end); cbn;
    (match goal with |- context [fltb ?a ?b] => destruct (fltb a b) end); cbn;
    rewrite ?Hcap, ?Hfirst; repeat split.
Qed.

End MouseSteps.

Section ExactCamera.
#[local] Existing Instance Exact.
Local Open Scope R_scope.

Ltac exact_ring := cbn; apply Rminus_diag_uniq; ring.

Lemma Q2R_literals :
  Q2R 0.0 = 0 /\ Q2R 1.0 = 1 /\ Q2R 0.1 = / 10 /\ Q2R 89.0 = 89 /\ Q2R 2.5 = 5 / 2.
Proof. unfold Q2R; cbn; repeat split; lra. Qed.

Lemma clamp_pitch_exact (p : R) : clamp_pitch p = Rmax (-89) (Rmin 89 p).
Proof.
  destruct Q2R_literals as (_ & _ & _ & H89 & _).
  unfold clamp_pitch, fgtb. cbn [fltb fopp flit Exact]. rewrite H89.
  unfold Rmax, Rmin.
  destruct (Rlt_dec 89 p), (Rle_dec 89 p); try lra;
    repeat (match goal with
            | |- context [Rlt_dec ?a ?b] => destruct (Rlt_dec a b)
            | |- context [Rle_dec ?a ?b] => destruct (Rle_dec a b)
            end); lra.
Qed.

(** X9: in one call of [processInput] the camera moves by the speed
    [2.5 * deltaTime] times the sum of the axes of the pressed movement
    keys, forward minus backward along the front vector and right minus
    left along [normalize (cross front up)]; so opposite keys held
    together cancel, and with a zero time step nothing moves. *)
Theorem X9_net_displacement (w : keyboard) (g : Globals) :
  let s := baseSpeed * deltaTime (clock g) in
  let front := cameraFront (camera g) in
  let right := normalize (cross (cameraFront (camera g)) (cameraUp (camera g))) in
  let p' := cameraPos (camera (processInput w g)) in
  p' = vadd (cameraPos (camera g))
            (vadd (smul (s * (b2r (pressed w GLFW_KEY_W) - b2r (pressed w GLFW_KEY_S))) front)
                  (smul (s * (b2r (pressed w GLFW_KEY_D) - b2r (pressed w GLFW_KEY_A))) right)) /\
  (pressed w GLFW_KEY_W = pressed w GLFW_KEY_S ->
   pressed w GLFW_KEY_A = pressed w GLFW_KEY_D -> p' = cameraPos (camera g)) /\
  (deltaTime (clock g) = 0 -> p' = cameraPos (camera g)).
Proof.
  cbv zeta. unfold processInput, move_camera, baseSpeed, b2r.
  cbn [camera with_toggles with_camera].
  split; [ | split ].
  - destruct (pressed w GLFW_KEY_W), (pressed w GLFW_KEY_S),
             (pressed w GLFW_KEY_A), (pressed w GLFW_KEY_D);
      apply vec3_eq; exact_ring.
  - intros -> <-.
    destruct (pressed w GLFW_KEY_S), (pressed w GLFW_KEY_A); apply vec3_eq; exact_ring.
  - intros ->.
    destruct (pressed w GLFW_KEY_W), (pressed w GLFW_KEY_S),
             (pressed w GLFW_KEY_A), (pressed w GLFW_KEY_D);
      apply vec3_eq; exact_ring.
Qed.

Lemma yaw_step (xpos ypos : R) (g : Globals) :
  leftMousePressed (mouse g) = true ->
  yaw (mouse (mouse_callback xpos ypos g)) =
  yaw (mouse g) + (xpos - baseline_x xpos (mouse g)) / 10.
Proof.
  intros Hcap. rewrite yaw_mouse_callback by exact Hcap.
  destruct Q2R_literals as (_ & _ & H01 & _).
  cbn [fadd fmul to_float to_double dsub flit Exact]. rewrite H01. reflexivity.
Qed.

Lemma pitch_step (xpos ypos : R) (g : Globals) :
  leftMousePressed (mouse g) = true ->
  pitch (mouse (mouse_callback xpos ypos g)) =
  Rmax (-89) (Rmin 89 (pitch (mouse g) + (baseline_y ypos (mouse g) - ypos) / 10)).
Proof.
  intros Hcap. rewrite pitch_mouse_callback by exact Hcap.
  destruct Q2R_literals as (_ & _ & H01 & _).
  cbn [fadd fmul to_float to_double dsub flit Exact]. rewrite H01.
  apply clamp_pitch_exact.
Qed.

(** X10: the first sample of a capture never turns the camera, wherever
    the cursor is: yaw is unchanged, and pitch is unchanged when it is
    within the clamp. *)
Theorem X10_first_sample_no_jump (xpos ypos : R) (g : Globals) :
  leftMousePressed (mouse g) = true -> firstMouse (mouse g) = true ->
  yaw (mouse (mouse_callback xpos ypos g)) = yaw (mouse g) /\
  (-89 <= pitch (mouse g) <= 89 ->
   pitch (mouse (mouse_callback xpos ypos g)) = pitch (mouse g)).
Proof.
  intros Hcap Hfirst. rewrite yaw_step, pitch_step by exact Hcap.
  unfold baseline_x, baseline_y. rewrite Hfirst. cbn [to_float Exact].
  split.
  - apply Rminus_diag_uniq. unfold Rdiv. ring.
  - intros Hp. replace ((ypos - ypos) / 10) with 0 by (unfold Rdiv; ring).
    rewrite Rplus_0_r. unfold Rmax, Rmin.
    destruct (Rle_dec 89 (pitch (mouse g))); destruct (Rle_dec (-89) _); lra.
Qed.

Lemma last_cons_default {T : Type} (a d : T) (l : list T) :
  List.last (a :: l) d = List.last l a.
Proof.
  revert a d. induction l as [|b l IH]; intros a d; [ reflexivity | ].
  change (List.last (a :: b :: l) d) with (List.last (b :: l) d).
  rewrite !IH. reflexivity.
Qed.

Lemma drag_cons (p : R * R) (ps : list (R * R)) (g : Globals) :
  drag (p :: ps) g = drag ps (mouse_callback (fst p) (snd p) g).
Proof. reflexivity. Qed.

(** X11: over a drag, yaw follows the cursor and forgets the path: after
    any samples delivered in capture mode it is the yaw before them plus a
    tenth of a degree per pixel between the baseline and the last
    sample. *)
Theorem X11_yaw_depends_on_endpoints (p : R * R) (ps : list (R * R)) (g : Globals) :
  leftMousePressed (mouse g) = true ->
  yaw (mouse (drag (p :: ps) g)) =
  yaw (mouse g) + (fst (List.last ps p) - baseline_x (fst p) (mouse g)) / 10.
Proof.
  intros Hcap. revert p g Hcap. induction ps as [|q ps IH]; intros p g Hcap.
  - rewrite drag_cons. cbn [drag foldl List.last]. apply yaw_step, Hcap.
  - rewrite drag_cons.
    destruct (@baseline_mouse_callback Exact (fst p) (snd p) g Hcap)
      as (Hcap' & Hfirst' & HX & _).
    assert (Hb : baseline_x (fst q) (mouse (@mouse_callback Exact (fst p) (snd p) g)) = fst p).
    { unfold baseline_x. rewrite Hfirst', HX. reflexivity. }
    rewrite (IH q _ Hcap'), Hb.
    rewrite (last_cons_default q p ps).
    rewrite yaw_step by exact Hcap.
    apply Rminus_diag_uniq. unfold Rdiv. ring.
Qed.

(** X12: a sample in capture mode adds a tenth of a degree per pixel to
    the pitch, the screen ordinate counted upwards, and clamps the sum to
    [-89, 89]; so the new pitch is in that interval whatever the old one
    was, a cursor moving up never lowers a pitch that is at most 89, and
    a cursor moving right never lowers the yaw. *)
Theorem X12_pitch_step (xpos ypos : R) (g : Globals) :
  leftMousePressed (mouse g) = true ->
  let g' := mouse_callback xpos ypos g in
  pitch (mouse g') =
    Rmax (-89) (Rmin 89 (pitch (mouse g) + (baseline_y ypos (mouse g) - ypos) / 10)) /\
  -89 <= pitch (mouse g') <= 89 /\
  (ypos <= baseline_y ypos (mouse g) -> pitch (mouse g) <= 89 ->
   pitch (mouse g) <= pitch (mouse g')) /\
  (baseline_x xpos (mouse g) <= xpos -> yaw (mouse g) <= yaw (mouse g')).
Proof.
  intros Hcap. cbv zeta. rewrite yaw_step, pitch_step by exact Hcap.
  generalize (@baseline_y Exact ypos (mouse g)) (@baseline_x Exact xpos (mouse g)).
  intros by0 bx0. split; [ reflexivity | ].
  unfold Rmax, Rmin.
  destruct (Rle_dec 89 _); destruct (Rle_dec (-89) _); repeat split; intros; lra.
Qed.

Lemma PI2_lower : 156 / 100 < PI / 2.
Proof.
  destruct (PI_2_3_7_ineq 0) as [H _].
  cbn in H. unfold tg_alt, PI_2_3_7_tg, Ratan_seq in H. cbn in H.
  lra.
Qed.

(** Within the clamp the pitch is short of a right angle. *)
Lemma cos_radians_pos (p : R) : -89 <= p <= 89 -> 0 < cos (@radians Exact p).
Proof.
  intros Hp. pose proof PI2_lower as HPI.
  assert (Hr : -(156 / 100) < @radians Exact p < 156 / 100).
  { unfold radians. cbn [fmul flit Exact]. unfold Q2R. cbn. lra. }
  apply cos_gt_0; lra.
Qed.

Lemma normalize_length (v : vec3) : 0 < dot v v -> vlength (normalize v) = 1.
Proof.
  intros Hd. unfold vlength.
  assert (Hn : sqrt (@dot Exact v v) * sqrt (@dot Exact v v) = @dot Exact v v)
    by (apply sqrt_sqrt; lra).
  assert (Hpos : 0 < sqrt (@dot Exact v v)) by (apply sqrt_lt_R0; exact Hd).
  assert (H1 : @dot Exact (normalize v) (normalize v) = 1).
  { unfold normalize, inversesqrt. rewrite flit_1.
    change (@fsqrt Exact (dot v v)) with (sqrt (@dot Exact v v)).
    set (n := sqrt (@dot Exact v v)) in *.
    transitivity (@dot Exact v v / (n * n)).
    - unfold dot, vmuls. cbn. apply Rminus_diag_uniq. field. lra.
    - rewrite Hn. apply Rminus_diag_uniq. field. lra. }
  rewrite H1. change (@fsqrt Exact 1) with (sqrt 1). apply sqrt_1.
Qed.

Lemma cross_up_norm (sy cy sp cp : R) :
  sy * sy + cy * cy = 1 ->
  (sp * 0 - 1 * (sy * cp)) * (sp * 0 - 1 * (sy * cp)) +
  (sy * cp * 0 - 0 * (cy * cp)) * (sy * cp * 0 - 0 * (cy * cp)) +
  (cy * cp * 1 - 0 * sp) * (cy * cp * 1 - 0 * sp) = cp * cp.
Proof.
  intros Hy.
  transitivity (cp * cp * (sy * sy + cy * cy)); [ ring | rewrite Hy; ring ].
Qed.

Lemma cross_up_dot (y p : R) :
  let r := @cross Exact (front_of y p) (Vec3 (flit 0.0) (flit 1.0) (flit 0.0)) in
  @dot Exact r r = cos (@radians Exact p) * cos (@radians Exact p) /\ @vy Exact r = 0.
Proof.
  destruct Q2R_literals as (H0 & H1 & _).
  cbv zeta. unfold dot, cross, front_of. cbn [vx vy vz fadd fsub fmul flit Exact].
  rewrite H0, H1. split.
  - exact (cross_up_norm _ _ _ _ (sin2_cos2 (@radians Exact y))).
  - apply Rminus_diag_uniq. ring.
Qed.

(** X13: the clamp keeps the camera from looking straight up or down:
    after every sample in capture mode the cosine of the pitch is
    positive, so the front vector is not parallel to the up vector
    (0, 1, 0) and the strafe axis [normalize (cross front up)] that A and
    D move along is a horizontal vector of length 1, perpendicular to the
    front vector. *)
Theorem X13_strafe_axis_is_unit (xpos ypos : R) (g : Globals) :
  leftMousePressed (mouse g) = true ->
  cameraUp (camera g) = Vec3 (flit 0.0) (flit 1.0) (flit 0.0) ->
  let g' := mouse_callback xpos ypos g in
  let right := normalize (cross (cameraFront (camera g')) (cameraUp (camera g'))) in
  0 < cos (radians (pitch (mouse g'))) /\
  vlength right = 1 /\ vy right = 0 /\ dot right (cameraFront (camera g')) = 0.
Proof.
  intros Hcap Hup. cbv zeta.
  assert (Hpitch : -89 <= pitch (mouse (@mouse_callback Exact xpos ypos g)) <= 89).
  { rewrite pitch_step by exact Hcap. unfold Rmax, Rmin.
    destruct (Rle_dec 89 _); destruct (Rle_dec (-89) _); lra. }
  pose proof (cos_radians_pos _ Hpitch) as Hcos.
  pose proof (cameraFront_mouse_callback xpos ypos g Hcap) as Hf. cbv zeta in Hf.
  destruct (normalize_unit _ (front_of_dot
              (yaw (mouse (@mouse_callback Exact xpos ypos g)))
              (pitch (mouse (@mouse_callback Exact xpos ypos g))))) as [Hn _].
  rewrite Hn in Hf.
  assert (Hup' : cameraUp (camera (@mouse_callback Exact xpos ypos g)) =
                 Vec3 (flit 0.0) (flit 1.0) (flit 0.0)).
  { destruct (@dispatch_frame Exact g (@CursorPos Exact xpos ypos)) as (_ & E & _).
    cbn [dispatch] in E. rewrite E. exact Hup. }
  rewrite Hf, Hup'.
  destruct (cross_up_dot (yaw (mouse (@mouse_callback Exact xpos ypos g)))
                         (pitch (mouse (@mouse_callback Exact xpos ypos g))))
    as [Hd Hy].
  split; [ exact Hcos | split; [ | split ] ].
  - apply normalize_length. rewrite Hd. apply Rmult_lt_0_compat; exact Hcos.
  - unfold normalize, vmuls. cbn [vy]. rewrite Hy. apply Rmult_0_l.
  - unfold normalize, vmuls, dot, cross. cbn. apply Rminus_diag_uniq. ring.
Qed.

(** X22: in exact arithmetic [glm::normalize] scales every nonzero vector
    by the inverse of its length, so the result has length 1; and after a
    mouse-move processed in capture mode the front vector is [normalize]
    of the direction (cos y cos p, sin p, sin y cos p), with [y] and [p]
    the updated yaw and pitch in radians, which has length 1 already: the
    front vector is that direction. *)
Theorem X22_front_from_angles :
  (forall v : vec3, 0 < dot v v ->
     normalize v = smul (/ sqrt (dot v v)) v /\ vlength (normalize v) = 1) /\
  (forall (xpos ypos : R) (g : Globals),
     leftMousePressed (mouse g) = true ->
     let g' := mouse_callback xpos ypos g in
     let y := yaw (mouse g') * Q2R 0.01745329251994329576923690768489 in
     let p := pitch (mouse g') * Q2R 0.01745329251994329576923690768489 in
     let direction := Vec3 (cos y * cos p) (sin p) (sin y * cos p) in
     cameraFront (camera g') = normalize direction /\
     cameraFront (camera g') = direction /\
     vlength (cameraFront (camera g')) = 1).
Proof.
  split.
  - intros v Hd. split; [ | apply normalize_length, Hd ].
    assert (Hpos : 0 < sqrt (@dot Exact v v)) by (apply sqrt_lt_R0; exact Hd).
    unfold normalize, inversesqrt. rewrite flit_1.
    change (@fsqrt Exact (dot v v)) with (sqrt (@dot Exact v v)).
    set (n := sqrt (@dot Exact v v)) in *.
    apply vec3_eq; cbn; field; lra.
  - intros xpos ypos g Hcap. cbv zeta.
    pose proof (cameraFront_mouse_callback xpos ypos g Hcap) as Hf. cbv zeta in Hf.
    set (g' := @mouse_callback Exact xpos ypos g) in *.
    match goal with
    | |- _ = normalize ?d /\ _ =>
        change d with (@front_of Exact (yaw (mouse g')) (pitch (mouse g')))
    end.
    destruct (normalize_unit _ (front_of_dot (yaw (mouse g')) (pitch (mouse g'))))
      as [Hn Hl].
    split; [ exact Hf | split ].
    + rewrite Hf. exact Hn.
    + rewrite Hf, Hn. exact Hl.
Qed.

End ExactCamera.

(** * The first sample of a capture, in binary32 *)

Section Binary32_first_sample.
Import IEEE IEEE_facts.
Context {L : Libm}.
#[local] Existing Instance F32.

(** A finite value minus itself is [+0]. *)
Lemma SFsub_diag (prec emax : Z) (x : spec_float) :
  is_finite x = true -> SFsub prec emax x x = S754_zero false.
Proof.
  destruct x as [s|s| |s m e]; try discriminate; intros _; cbn [SFsub].
  - destruct s; reflexivity.
  - rewrite Z.min_id. unfold shl_align. rewrite Z.sub_diag. cbn [fst].
    reflexivity.
Qed.

(** Adding [+0] changes nothing but the sign of [-0]. *)
Lemma SFadd_zero_r (prec emax : Z) (x : spec_float) :
  x <> S754_zero true -> SFadd prec emax x (S754_zero false) = x.
Proof.
  destruct x as [s|s| |s m e]; intros Hx; cbn [SFadd]; try reflexivity.
  destruct s; [ contradiction Hx; reflexivity | reflexivity ].
Qed.

(** Within the clamp, the clamp is the identity. *)
Lemma clamp_pitch_id (p : spec_float) :
  between (fopp (flit 89.0)) (flit 89.0) p = true -> clamp_pitch p = p.
Proof.
  unfold between, SFleb. intros Hb. apply andb_prop in Hb as [Hlo Hhi].
  unfold clamp_pitch, fgtb. cbn [fltb fopp flit F32] in *. unfold SFltb.
  rewrite (SFcompare_antisym p (of_Q 24 128 89.0)).
  destruct (SFcompare p (of_Q 24 128 89.0)) as [[ | | ]|]; try discriminate Hhi;
    cbn [option_map CompOpp];
    rewrite (SFcompare_antisym (SFopp (of_Q 24 128 89.0)) p);
    destruct (SFcompare (SFopp (of_Q 24 128 89.0)) p) as [[ | | ]|]; try discriminate Hlo;
    reflexivity.
Qed.

(** X14: in binary32 the first sample of a capture is exact when the
    cursor position is a binary32 number (every whole pixel is): the
    offsets are [+0], so yaw is unchanged and a pitch within the clamp is
    unchanged, a negative zero apart, which would become [+0]. *)
Theorem X14_first_sample_exact_in_binary32 (xpos ypos : spec_float) (g : Globals) :
  leftMousePressed (mouse g) = true -> firstMouse (mouse g) = true ->
  is_finite xpos = true -> is_finite ypos = true ->
  to_double (to_float xpos) = xpos -> to_double (to_float ypos) = ypos ->
  let g' := mouse_callback xpos ypos g in
  (yaw (mouse g) <> S754_zero true -> yaw (mouse g') = yaw (mouse g)) /\
  (pitch (mouse g) <> S754_zero true -> pitch_in_range g ->
   pitch (mouse g') = pitch (mouse g)).
Proof.
  intros Hcap Hfirst Hx Hy Hrx Hry. cbv zeta.
  rewrite yaw_mouse_callback, pitch_mouse_callback by exact Hcap.
  unfold baseline_x, baseline_y. rewrite Hfirst, Hrx, Hry.
  cbn [fadd fmul dsub to_float flit F32].
  rewrite !SFsub_diag by assumption. cbn [convert].
  change (SFmul 24 128 (S754_zero false) (of_Q 24 128 0.1)) with (S754_zero false).
  split.
  - intros Hyaw. apply SFadd_zero_r, Hyaw.
  - intros Hpitch Hrange. rewrite SFadd_zero_r by exact Hpitch.
    apply clamp_pitch_id, Hrange.
Qed.

End Binary32_first_sample.

(** * The matrices of the render loop, in exact arithmetic *)

Section ExactMatrices.
#[local] Existing Instance Exact.
#[local] Existing Instance Exact_render.
Local Open Scope R_scope.

Lemma vec4_eq (a b : vec4) :
  px a = px b -> py a = py b -> pz a = pz b -> pw a = pw b -> a = b.
Proof. destruct a, b; cbn; intros -> -> -> ->; reflexivity. Qed.

Lemma flit_values :
  flit 0 = 0 /\ flit 1 = 1 /\ flit 0.0 = 0 /\ flit 1.0 = 1 /\ flit 0.5 = / 2 /\
  flit 2 = 2 /\ flit 0.1 = / 10 /\ flit 100.0 = 100.
Proof. cbn [flit Exact]. unfold Q2R; cbn. repeat split; lra. Qed.

(** Equations of vectors by components, over the entries of the
    matrices and vectors in the context. *)
Ltac matrix_ring :=
  repeat match goal with
         | m : mat4 |- _ =>
             destruct m as [[?e ?e ?e ?e] [?e ?e ?e ?e] [?e ?e ?e ?e] [?e ?e ?e ?e]]
         | v : vec4 |- _ => destruct v as [?e ?e ?e ?e]
         | v : vec3 |- _ => destruct v as [?e ?e ?e]
         end;
  apply vec4_eq; cbn; apply Rminus_diag_uniq; ring.

Lemma apply_mul (m n : mat4) (v : vec4) :
  mat4_apply (mat4_mul m n) v = mat4_apply m (mat4_apply n v).
Proof. matrix_ring. Qed.

Lemma apply_identity (p : vec3) : mat4_apply mat4_identity (point p) = point p.
Proof.
  destruct flit_values as (H0 & _ & _ & H1 & _).
  unfold mat4_identity, point. rewrite H0, H1. matrix_ring.
Qed.

Lemma apply_translate (m : mat4) (p : vec3) :
  mat4_apply (translate m (Vec3 (flit 1.0) (flit 0.0) (flit 0.0))) (point p) =
  mat4_apply m (point (translate_x p)).
Proof.
  destruct flit_values as (_ & _ & H00 & H1 & _).
  unfold point. rewrite H00, H1. matrix_ring.
Qed.

Lemma apply_scale (m : mat4) (f : R) (p : vec3) :
  mat4_apply (scale m (Vec3 f f f)) (point p) = mat4_apply m (point (scale_by f p)).
Proof. matrix_ring. Qed.

Lemma apply_rotate (m : mat4) (a : R) (v p : vec3) :
  mat4_apply (rotate m a v) (point p) =
  mat4_apply m (point (rotate_about (normalize v) a p)).
Proof.
  destruct flit_values as (_ & H1 & _ & H10 & _).
  unfold rotate, rotate_about, point. rewrite H1, H10.
  change (@fcos Exact a) with (cos a). change (@fsin Exact a) with (sin a).
  generalize (cos a) (sin a) (@normalize Exact v). intros c s n.
  matrix_ring.
Qed.

Lemma apply_shear (k : R) (p : vec3) :
  mat4_apply (Mat4 (col0 mat4_identity)
                   (Vec4 k (py (col1 mat4_identity)) (pz (col1 mat4_identity))
                         (pw (col1 mat4_identity)))
                   (col2 mat4_identity) (col3 mat4_identity)) (point p) =
  point (shear_x k p).
Proof.
  destruct flit_values as (H0 & _ & _ & H1 & _).
  unfold mat4_identity, point. rewrite H0, H1. matrix_ring.
Qed.

Lemma apply_reflect (p : vec3) :
  mat4_apply (scale mat4_identity (Vec3 (fopp (flit 1.0)) (flit 1.0) (flit 1.0))) (point p) =
  point (reflect_x p).
Proof.
  destruct flit_values as (H0 & _ & _ & H1 & _).
  unfold mat4_identity, point. rewrite H0, H1. matrix_ring.
Qed.

Lemma model_matrix_apply (t_rotate t_scale t_shear : R) (t : Toggles) (p : vec3) :
  mat4_apply (model_matrix t_rotate t_scale t_shear t) (point p) =
  point (model_map t_rotate t_scale t_shear t p).
Proof.
  destruct flit_values as (_ & _ & _ & H1 & H05 & _).
  assert (Hs : @to_float Exact (dadd (dsin t_scale) (@to_double Exact (flit 1.0))) =
               scale_factor t_scale).
  { cbn [to_float to_double dadd dsin Exact Exact_render]. rewrite H1. reflexivity. }
  assert (Hk : @to_float Exact (dmul (@to_double Exact (flit 0.5)) (dsin t_shear)) =
               shear_factor t_shear).
  { cbn [to_float to_double dmul dsin Exact Exact_render]. rewrite H05. reflexivity. }
  unfold model_matrix, model_map. rewrite Hs, Hk. fold rotation_axis.
  destruct (applyReflection t); [ rewrite apply_mul, apply_reflect | ];
    (destruct (applyShearing t); [ rewrite apply_mul, apply_shear | ]);
    (destruct (applyScaling t); [ rewrite apply_scale | ]);
    (destruct (applyRotation t); [ rewrite apply_rotate | ]);
    (destruct (applyTranslation t); [ rewrite apply_translate | ]);
    apply apply_identity.
Qed.

(** X15: the model matrix applies the active transformations to a
    vertex in the reverse of the order the loop tests the toggles: first
    the reflection in the plane x = 0, then the shear of x by
    [0.5 * sin t] times y, then the uniform scaling by [sin t + 1], then
    the rotation by the time about the axis (0.5, 1, 0), and last the
    translation by one unit of x. *)
Theorem X15_model_matrix_order (t_rotate t_scale t_shear : R) (t : Toggles) (p : vec3) :
  mat4_apply (model_matrix t_rotate t_scale t_shear t) (point p) =
  point (model_map t_rotate t_scale t_shear t p).
Proof. apply model_matrix_apply. Qed.

Lemma rodrigues_norm (nx ny nz c s x y z : R) :
  c * c + s * s = 1 -> nx * nx + ny * ny + nz * nz = 1 ->
  let np := (nx * x + ny * y + nz * z) * (1 - c) in
  let rx := x * c + (ny * z - y * nz) * s + nx * np in
  let ry := y * c + (nz * x - z * nx) * s + ny * np in
  let rz := z * c + (nx * y - x * ny) * s + nz * np in
  rx * rx + ry * ry + rz * rz = x * x + y * y + z * z.
Proof. intros Hcs Hn. cbv zeta. nsatz. Qed.

Lemma rotation_axis_unit : dot rotation_axis rotation_axis = 1.
Proof.
  assert (Hpos : 0 < @dot Exact (Vec3 (flit 0.5) (flit 1.0) (flit 0.0))
                              (Vec3 (flit 0.5) (flit 1.0) (flit 0.0))).
  { destruct flit_values as (_ & _ & H00 & H1 & H05 & _).
    unfold dot. cbn [vx vy vz fadd fmul Exact]. rewrite H00, H1, H05. lra. }
  pose proof (normalize_length _ Hpos) as Hl. fold rotation_axis in Hl.
  unfold vlength in Hl. change (@fsqrt Exact) with sqrt in Hl.
  assert (Hnn : 0 <= @dot Exact rotation_axis rotation_axis).
  { generalize rotation_axis. intros [a b c]. cbn. nra. }
  rewrite <- (sqrt_sqrt _ Hnn), Hl. lra.
Qed.

Lemma dist2_rotate (a : R) (p q : vec3) :
  dist2 (rotate_about rotation_axis a p) (rotate_about rotation_axis a q) = dist2 p q.
Proof.
  pose proof rotation_axis_unit as Hn. pose proof (sin2_cos2 a) as Hcs.
  unfold Rsqr in Hcs. rewrite Rplus_comm in Hcs.
  unfold rotate_about. revert Hn Hcs. generalize rotation_axis (cos a) (sin a).
  intros [nx ny nz] c s Hn Hcs. destruct p as [x1 y1 z1], q as [x2 y2 z2].
  cbn in Hn.
  pose proof (rodrigues_norm nx ny nz c s (x1 - x2) (y1 - y2) (z1 - z2) Hcs Hn) as H.
  cbv zeta in H. cbn.
  match type of H with
  | ?l = _ => transitivity l;
              [ apply Rminus_diag_uniq; ring | rewrite H; apply Rminus_diag_uniq; ring ]
  end.
Qed.

(** X16: translation, rotation and reflection move the cube rigidly:
    with the scaling and the shear off, the model matrix keeps the
    distance of every two points, whatever the other toggles and the
    time. *)
Theorem X16_rigid_without_scale_and_shear
    (t_rotate t_scale t_shear : R) (t : Toggles) (p q : vec3) :
  applyScaling t = false -> applyShearing t = false ->
  let P := mat4_apply (model_matrix t_rotate t_scale t_shear t) (point p) in
  let Q := mat4_apply (model_matrix t_rotate t_scale t_shear t) (point q) in
  (px P - px Q) * (px P - px Q) + (py P - py Q) * (py P - py Q) +
  (pz P - pz Q) * (pz P - pz Q) = dist2 p q /\ pw P = 1 /\ pw Q = 1.
Proof.
  intros Hsc Hsh. cbv zeta. rewrite !model_matrix_apply.
  destruct flit_values as (_ & _ & _ & H1 & _).
  unfold point. cbn [px py pz pw]. rewrite H1. split; [ | split; reflexivity ].
  unfold model_map. rewrite Hsc, Hsh.
  set (p0 := if applyReflection t then reflect_x p else p).
  set (q0 := if applyReflection t then reflect_x q else q).
  assert (H0 : dist2 p0 q0 = dist2 p q).
  { subst p0 q0. destruct (applyReflection t); [ | reflexivity ].
    destruct p as [x1 y1 z1], q as [x2 y2 z2]. cbn. apply Rminus_diag_uniq. ring. }
  rewrite <- H0, <- (dist2_rotate t_rotate p0 q0).
  destruct (applyRotation t).
  - generalize (rotate_about rotation_axis t_rotate p0)
               (rotate_about rotation_axis t_rotate q0).
    intros [x1 y1 z1] [x2 y2 z2].
    destruct (applyTranslation t); cbn; apply Rminus_diag_uniq; ring.
  - rewrite dist2_rotate. generalize p0 q0. intros [x1 y1 z1] [x2 y2 z2].
    destruct (applyTranslation t); cbn; apply Rminus_diag_uniq; ring.
Qed.

(** X17: the scaling toggle scales the cube about the origin by the
    factor [sin t + 1], which is never negative and at most 2, and the
    shear toggle adds to x the multiple [0.5 * sin t] of y, of absolute
    value at most one half. *)
Theorem X17_scale_and_shear_bounds (t_rotate t_scale t_shear : R) (t : Toggles) :
  applyTranslation t = false -> applyRotation t = false -> applyReflection t = false ->
  (applyScaling t = true -> applyShearing t = false ->
   exists f, 0 <= f <= 2 /\
     forall p, mat4_apply (model_matrix t_rotate t_scale t_shear t) (point p) =
               point (scale_by f p)) /\
  (applyScaling t = false -> applyShearing t = true ->
   exists k, - / 2 <= k <= / 2 /\
     forall p, mat4_apply (model_matrix t_rotate t_scale t_shear t) (point p) =
               point (shear_x k p)).
Proof.
  intros Htr Hro Hre. split; intros Hsc Hsh.
  - exists (scale_factor t_scale). split.
    + unfold scale_factor. pose proof (SIN_bound t_scale). lra.
    + intros p. rewrite model_matrix_apply. unfold model_map.
      rewrite Htr, Hro, Hre, Hsc, Hsh. reflexivity.
  - exists (shear_factor t_shear). split.
    + unfold shear_factor. pose proof (SIN_bound t_shear). lra.
    + intros p. rewrite model_matrix_apply. unfold model_map.
      rewrite Htr, Hro, Hre, Hsc, Hsh. reflexivity.
Qed.

Lemma view_eye (c : Camera) :
  mat4_apply (view_matrix c) (point (cameraPos c)) = Vec4 0 0 0 1.
Proof.
  destruct flit_values as (H0 & _ & _ & H1 & _).
  unfold view_matrix, lookAt, point. rewrite H0, H1.
  generalize (@normalize Exact (vsub (vadd (cameraPos c) (cameraFront c)) (cameraPos c))).
  intros f. generalize (@normalize Exact (cross f (cameraUp c))). intros s.
  destruct c as [[ex ey ez] front up], f as [fx fy fz], s as [sx sy sz].
  apply vec4_eq; cbn; apply Rminus_diag_uniq; ring.
Qed.

Lemma view_ahead (c : Camera) (d : R) :
  dot (cameraFront c) (cameraFront c) = 1 ->
  mat4_apply (view_matrix c) (point (vadd (cameraPos c) (smul d (cameraFront c)))) =
  Vec4 0 0 (- d) 1.
Proof.
  intros Hunit. destruct flit_values as (H0 & _ & _ & H1 & _).
  unfold view_matrix, lookAt, point. rewrite H0, H1.
  assert (Hf : @vsub Exact (vadd (cameraPos c) (cameraFront c)) (cameraPos c) = cameraFront c).
  { destruct c as [[ex ey ez] [fx fy fz] up]. apply vec3_eq; cbn; apply Rminus_diag_uniq; ring. }
  rewrite Hf. destruct (normalize_unit _ Hunit) as [-> _].
  unfold normalize.
  generalize (@inversesqrt Exact (dot (cross (cameraFront c) (cameraUp c))
                                      (cross (cameraFront c) (cameraUp c)))).
  intros k. destruct c as [[ex ey ez] [fx fy fz] [ux uy uz]]. cbn in Hunit.
  apply vec4_eq; cbn; nsatz.
Qed.

(** X18: the view matrix puts the camera at the origin looking down the
    negative z axis: the camera position goes to (0, 0, 0), and with a
    front vector of length 1 the point at distance [d] straight ahead
    goes to (0, 0, -d). *)
Theorem X18_view_matrix_centres_camera (c : Camera) :
  mat4_apply (view_matrix c) (point (cameraPos c)) = Vec4 0 0 0 1 /\
  (dot (cameraFront c) (cameraFront c) = 1 ->
   forall d, mat4_apply (view_matrix c)
               (point (vadd (cameraPos c) (smul d (cameraFront c)))) = Vec4 0 0 (- d) 1).
Proof.
  split; [ apply view_eye | intros Hunit d; apply view_ahead, Hunit ].
Qed.

Lemma projection_ahead (x y d : R) :
  let c := mat4_apply projection_matrix (Vec4 x y (- d) 1) in
  pw c = d /\ pz c = (1001 * d - 200) / 999 /\
  (x = 0 -> px c = 0) /\ (y = 0 -> py c = 0).
Proof.
  destruct flit_values as (H0 & H1 & _ & _ & _ & H2 & H01 & H100).
  cbv zeta. unfold projection_matrix, perspective.
  rewrite H0, H1, H2, H01, H100.
  generalize (@ftan Exact Exact_render (fdiv (radians (flit 45.0)) 2)).
  generalize (@fdiv Exact (flit SCR_WIDTH) (flit SCR_HEIGHT)).
  intros aspect tanHalfFovy. cbn.
  split; [ | split; [ | split ] ].
  - apply Rminus_diag_uniq. ring.
  - apply Rminus_diag_uniq. field.
  - intros ->. apply Rminus_diag_uniq. ring.
  - intros ->. apply Rminus_diag_uniq. ring.
Qed.

(** X19: the projection keeps what lies between the distances 0.1 and
    100 in front of the camera: for a point at distance [d] ahead the
    clip coordinate w is [d], and the depth z / w lies in [-1, 1] exactly
    when [0.1 <= d <= 100], with -1 at the near plane and 1 at the far
    plane. *)
Theorem X19_projection_depth_range (x y d : R) :
  0 < d ->
  let c := mat4_apply projection_matrix (Vec4 x y (- d) 1) in
  pw c = d /\
  (-1 <= pz c / pw c <= 1 <-> / 10 <= d <= 100) /\
  (d = / 10 -> pz c / pw c = -1) /\ (d = 100 -> pz c / pw c = 1).
Proof.
  intros Hd. cbv zeta. destruct (projection_ahead x y d) as (Hw & Hz & _).
  rewrite Hw, Hz.
  assert (Hq : (1001 * d - 200) / 999 / d = (1001 * d - 200) / (999 * d))
    by (field; lra).
  rewrite Hq.
  assert (Hden : 0 < 999 * d) by lra.
  assert (Hmul : (1001 * d - 200) / (999 * d) * (999 * d) = 1001 * d - 200)
    by (field; lra).
  split; [ reflexivity | split; [ | split ] ].
  - split.
    + intros [Hlo Hhi].
      apply (Rmult_le_compat_r (999 * d)) in Hlo; [ | lra ].
      apply (Rmult_le_compat_r (999 * d)) in Hhi; [ | lra ].
      rewrite Hmul in Hlo, Hhi. lra.
    + intros [Hlo Hhi]. split.
      * apply (Rmult_le_reg_r (999 * d)); [ exact Hden | ]. rewrite Hmul. lra.
      * apply (Rmult_le_reg_r (999 * d)); [ exact Hden | ]. rewrite Hmul. lra.
  - intros ->. field.
  - intros ->. field.
Qed.

(** X20: with no toggle active, a vertex at distance [d] straight ahead
    of a camera whose front vector has length 1 is drawn at the centre of
    the window: its [gl_Position] has x = 0, y = 0 and w = d. *)
Theorem X20_point_ahead_is_centred
    (t_rotate t_scale t_shear : R) (t : Toggles) (c : Camera) (d : R) :
  applyTranslation t = false -> applyRotation t = false -> applyScaling t = false ->
  applyShearing t = false -> applyReflection t = false ->
  dot (cameraFront c) (cameraFront c) = 1 ->
  let v := gl_Position projection_matrix (view_matrix c)
             (model_matrix t_rotate t_scale t_shear t)
             (vadd (cameraPos c) (smul d (cameraFront c))) in
  px v = 0 /\ py v = 0 /\ pw v = d.
Proof.
  intros Htr Hro Hsc Hsh Hre Hunit. cbv zeta. unfold gl_Position.
  rewrite !apply_mul, model_matrix_apply. unfold model_map.
  rewrite Htr, Hro, Hsc, Hsh, Hre. rewrite (view_ahead c d Hunit).
  destruct (projection_ahead 0 0 d) as (Hw & _ & Hx & Hy).
  split; [ apply Hx; reflexivity | split; [ apply Hy; reflexivity | exact Hw ] ].
Qed.

End ExactMatrices.

(** * The further properties at concrete inputs *)

Lemma X1_flags_mirror_toggleStates_witness :
  1 < 5 /\
  get_flag 1 (toggles (final (main session))) =
  toggleStates (toggles (final (main session))) !!! 1.
Proof.
  split; [ lia | ]. apply (@X1_flags_mirror_toggleStates F32_flat session 1). lia.
Defined.

Lemma X3_debounce_is_last_key_state_witness :
  wf_toggles (toggles (@init F32_flat)) /\ 1 < 5 /\
  keyStates (toggles (processInput (only GLFW_KEY_2) (@init F32_flat))) !!! 1 =
  pressed (only GLFW_KEY_2) (keys !!! 1).
Proof.
  split; [ split; reflexivity | split; [ lia | ] ].
  apply (@X3_debounce_is_last_key_state F32_flat (only GLFW_KEY_2) init 1);
    [ split; reflexivity | lia ].
Defined.

Lemma X4_toggles_do_not_interfere_witness :
  let ws1 := [only GLFW_KEY_2; nothing; only GLFW_KEY_5] in
  let ws2 := [only GLFW_KEY_1; only GLFW_KEY_4; only GLFW_KEY_5] in
  wf_toggles (toggles (@init F32_flat)) /\ 4 < 5 /\ Forall2 (agree_on 4) ws1 ws2 /\
  cell 4 (run_toggles ws1 (toggles (@init F32_flat))) =
  cell 4 (run_toggles ws2 (toggles (@init F32_flat))).
Proof.
  intros ws1 ws2.
  assert (Hwf : wf_toggles (toggles (@init F32_flat))) by (split; reflexivity).
  assert (Hall : Forall2 (agree_on 4) ws1 ws2) by (repeat constructor).
  split; [ exact Hwf | split; [ lia | split; [ exact Hall | ] ] ].
  apply (X4_toggles_do_not_interfere ws1 ws2 _ 4 Hwf ltac:(lia) Hall).
Defined.

Lemma X5_processInput_writes_position_and_toggles_witness :
  let g := @init F32_flat in
  let w := only GLFW_KEY_2 in
  Forall (fun k => pressed w k = false) [GLFW_KEY_W; GLFW_KEY_A; GLFW_KEY_S; GLFW_KEY_D] /\
  camera (processInput w g) = camera g.
Proof.
  intros g w.
  assert (Hall : Forall (fun k => pressed w k = false)
                   [GLFW_KEY_W; GLFW_KEY_A; GLFW_KEY_S; GLFW_KEY_D]) by (repeat constructor).
  split; [ exact Hall | ].
  destruct (@X5_processInput_writes_position_and_toggles F32_flat w g)
    as (_ & _ & _ & _ & _ & Hcam).
  exact (Hcam Hall).
Defined.

Lemma X7_capture_and_cursor_agree_witness :
  let g := final (main session) in
  leftMousePressed (mouse g) = false /\ firstMouse (mouse g) = true /\
  (cursor g = GLFW_CURSOR_DISABLED <-> leftMousePressed (mouse g) = true).
Proof.
  intros g.
  destruct (@X7_capture_and_cursor_agree F32_flat session) as [Hiff Hfirst].
  assert (Hrel : leftMousePressed (mouse g) = false) by (vm_compute; reflexivity).
  split; [ exact Hrel | split; [ exact (Hfirst Hrel) | exact Hiff ] ].
Defined.

Lemma X9_net_displacement_witness :
  let g := @init Exact in
  let w : keyboard := fun k => match k with
                               | GLFW_KEY_W | GLFW_KEY_S => GLFW_PRESS
                               | _ => GLFW_RELEASE
                               end in
  pressed w GLFW_KEY_W = pressed w GLFW_KEY_S /\
  pressed w GLFW_KEY_A = pressed w GLFW_KEY_D /\
  deltaTime (clock g) = 0%R /\
  cameraPos (camera (processInput w g)) = cameraPos (camera g).
Proof.
  intros g w.
  destruct (X9_net_displacement w g) as (_ & Hcancel & Hzero).
  assert (Hdt : deltaTime (clock g) = 0%R).
  { transitivity (Q2R 0.0); [ reflexivity | unfold Q2R; cbn; lra ]. }
  split; [ reflexivity | split; [ reflexivity | split; [ exact Hdt | ] ] ].
  exact (Hcancel eq_refl eq_refl).
Defined.

Lemma captured_pitch : pitch (mouse captured) = 0%R.
Proof. transitivity (Q2R 0.0); [ reflexivity | unfold Q2R; cbn; lra ]. Qed.

Lemma X10_first_sample_no_jump_witness :
  leftMousePressed (mouse captured) = true /\ firstMouse (mouse captured) = true /\
  (-89 <= pitch (mouse captured) <= 89)%R /\
  yaw (mouse (@mouse_callback Exact 123%R 456%R captured)) = yaw (mouse captured) /\
  pitch (mouse (@mouse_callback Exact 123%R 456%R captured)) = pitch (mouse captured).
Proof.
  assert (Hp : (-89 <= pitch (mouse captured) <= 89)%R) by (rewrite captured_pitch; lra).
  destruct (X10_first_sample_no_jump 123%R 456%R captured eq_refl eq_refl) as [Hy Hpitch].
  split; [ reflexivity | split; [ reflexivity | split; [ exact Hp | split ] ] ].
  - exact Hy.
  - exact (Hpitch Hp).
Defined.

Lemma X11_yaw_depends_on_endpoints_witness :
  leftMousePressed (mouse captured) = true /\
  yaw (mouse (drag [(400, 300); (350, 310); (410, 300)]%R captured)) =
  (yaw (mouse captured) + (410 - @baseline_x Exact 400 (mouse captured)) / 10)%R.
Proof.
  split; [ reflexivity | ].
  exact (X11_yaw_depends_on_endpoints (400, 300)%R [(350, 310); (410, 300)]%R
           captured eq_refl).
Defined.

Lemma X12_pitch_step_witness :
  let g' := @mouse_callback Exact 400%R 200%R captured in
  leftMousePressed (mouse captured) = true /\
  (200 <= @baseline_y Exact 200 (mouse captured))%R /\ (pitch (mouse captured) <= 89)%R /\
  (@baseline_x Exact 400 (mouse captured) <= 400)%R /\
  (-89 <= pitch (mouse g') <= 89)%R /\
  (pitch (mouse captured) <= pitch (mouse g'))%R /\
  (yaw (mouse captured) <= yaw (mouse g'))%R.
Proof.
  intros g'.
  destruct (X12_pitch_step 400%R 200%R captured eq_refl) as (_ & Hrange & Hup & Hright).
  assert (Hy : (200 <= @baseline_y Exact 200 (mouse captured))%R).
  { change (@baseline_y Exact 200%R (mouse captured)) with 200%R. lra. }
  assert (Hp : (pitch (mouse captured) <= 89)%R) by (rewrite captured_pitch; lra).
  assert (Hx : (@baseline_x Exact 400 (mouse captured) <= 400)%R).
  { change (@baseline_x Exact 400%R (mouse captured)) with 400%R. lra. }
  split; [ reflexivity | split; [ exact Hy | split; [ exact Hp | split; [ exact Hx | ] ] ] ].
  split; [ exact Hrange | split; [ exact (Hup Hy Hp) | exact (Hright Hx) ] ].
Defined.

Lemma X13_strafe_axis_is_unit_witness :
  let g' := @mouse_callback Exact 400%R 200%R captured in
  let right := normalize (cross (cameraFront (camera g')) (cameraUp (camera g'))) in
  leftMousePressed (mouse captured) = true /\
  cameraUp (camera captured) = Vec3 (flit 0.0) (flit 1.0) (flit 0.0) /\
  (0 < cos (radians (pitch (mouse g'))))%R /\
  @vlength Exact right = 1%R /\ @vy Exact right = 0%R /\
  @dot Exact right (cameraFront (camera g')) = 0%R.
Proof.
  intros g' right.
  split; [ reflexivity | split; [ reflexivity | ] ].
  exact (X13_strafe_axis_is_unit 400%R 200%R captured eq_refl eq_refl).
Defined.

Lemma X22_front_from_angles_witness :
  (let v := @Vec3 Exact 3%R 0%R 4%R in
   (0 < @dot Exact v v)%R /\
   normalize v = @smul Exact (/ sqrt (@dot Exact v v))%R v /\
   @vlength Exact (normalize v) = 1%R) /\
  (let g' := @mouse_callback Exact 400%R 200%R captured in
   let y := (yaw (mouse g') * Q2R 0.01745329251994329576923690768489)%R in
   let p := (pitch (mouse g') * Q2R 0.01745329251994329576923690768489)%R in
   let direction := @Vec3 Exact (cos y * cos p)%R (sin p) (sin y * cos p)%R in
   leftMousePressed (mouse captured) = true /\
   cameraFront (camera g') = normalize direction /\
   cameraFront (camera g') = direction /\
   @vlength Exact (cameraFront (camera g')) = 1%R).
Proof.
  destruct X22_front_from_angles as [Hnorm Hfront].
  split.
  - intros v.
    assert (Hd : (0 < @dot Exact v v)%R) by (cbn; lra).
    split; [ exact Hd | exact (Hnorm v Hd) ].
  - cbv zeta. split; [ reflexivity | ].
    exact (Hfront 400%R 200%R captured eq_refl).
Defined.

Lemma rotation_axis_values :
  Rounding.B2R (IEEE.of_Q 24 128 0.5) = (/ 2)%R /\
  Rounding.B2R (IEEE.of_Q 24 128 1.0) = 1%R /\
  Rounding.B2R (IEEE.of_Q 24 128 0.0) = 0%R.
Proof.
  assert (E24 : Rounding.p2 (-24) = (/ 16777216)%R).
  { change (-24)%Z with (- (24))%Z.
    rewrite Rounding_facts.p2_opp, <- Rounding_facts.p2_IZR by lia. reflexivity. }
  assert (E23 : Rounding.p2 (-23) = (/ 8388608)%R).
  { change (-23)%Z with (- (23))%Z.
    rewrite Rounding_facts.p2_opp, <- Rounding_facts.p2_IZR by lia. reflexivity. }
  change (IEEE.of_Q 24 128 0.5) with (S754_finite false 8388608 (-24)).
  change (IEEE.of_Q 24 128 1.0) with (S754_finite false 8388608 (-23)).
  change (IEEE.of_Q 24 128 0.0) with (S754_zero false).
  cbn [Rounding.B2R]. unfold Rounding.sign. rewrite E24, E23.
  split; [ lra | split; [ lra | reflexivity ] ].
Qed.

Lemma X23_normalize_unit_in_binary32_witness :
  let v := @Vec3 F32_flat (@flit F32_flat 0.5) (@flit F32_flat 1.0) (@flit F32_flat 0.0) in
  @finite3 IEEE.libm_flat v /\ @bounded3 IEEE.libm_flat 2 v /\
  (/ 4 <= @norm2 IEEE.libm_flat v)%R /\
  @finite3 IEEE.libm_flat (normalize v) /\
  (Rabs (@length32 IEEE.libm_flat (normalize v) - 1) <= / 1048576)%R.
Proof.
  intros v. destruct rotation_axis_values as (Ex & Ey & Ez).
  assert (Hf : @finite3 IEEE.libm_flat v) by (repeat split).
  assert (Hb : @bounded3 IEEE.libm_flat 2 v).
  { unfold bounded3, v. cbn [vx vy vz flit F32_flat IEEE.F32].
    rewrite Ex, Ey, Ez. repeat split; apply Rabs_le; lra. }
  assert (Hn : (/ 4 <= @norm2 IEEE.libm_flat v)%R).
  { unfold norm2, v. cbn [vx vy vz flit F32_flat IEEE.F32].
    rewrite Ex, Ey, Ez. lra. }
  split; [ exact Hf | split; [ exact Hb | split; [ exact Hn | ] ] ].
  exact (proj2 (@X23_normalize_unit_in_binary32 IEEE.libm_flat v Hf Hb Hn)).
Defined.

Lemma far_away_values :
  Rounding.B2R (S754_finite false 8388608 (-23)) = 1%R /\
  Rounding.B2R (S754_finite true 8388608 (-23)) = (-1)%R /\
  Rounding.B2R (S754_finite false 8388608 (-6)) = 131072%R /\
  Rounding.B2R (S754_zero false) = 0%R.
Proof.
  assert (E23 : Rounding.p2 (-23) = (/ 8388608)%R).
  { change (-23)%Z with (- (23))%Z.
    rewrite Rounding_facts.p2_opp, <- Rounding_facts.p2_IZR by lia. reflexivity. }
  assert (E6 : Rounding.p2 (-6) = (/ 64)%R).
  { change (-6)%Z with (- (6))%Z.
    rewrite Rounding_facts.p2_opp, <- Rounding_facts.p2_IZR by lia. reflexivity. }
  cbn [Rounding.B2R]. unfold Rounding.sign. rewrite E23, E6.
  split; [ lra | split; [ lra | split; [ lra | reflexivity ] ] ].
Qed.

Lemma X24_step_in_binary32_witness :
  let g := @begin_frame F32_flat (IEEE.dlit 1) far_away in
  let w := only GLFW_KEY_W in
  let c := camera g in
  let c' := camera (processInput w g) in
  holds_only GLFW_KEY_W w /\
  IEEE.is_finite (deltaTime (clock g)) = true /\
  (Rabs (Rounding.B2R (deltaTime (clock g))) <= 1000000)%R /\
  @finite3 IEEE.libm_flat (cameraPos c) /\
  @bounded3 IEEE.libm_flat 100000000000000000000 (cameraPos c) /\
  @finite3 IEEE.libm_flat (cameraFront c) /\ @bounded3 IEEE.libm_flat 2 (cameraFront c) /\
  vz (cameraPos c') = @flit F32_flat 131069.5 /\
  step_within (vz (cameraPos c')) (vz (cameraPos c))
    (1 * (5 / 2 * Rounding.B2R (deltaTime (clock g))) * Rounding.B2R (vz (cameraFront c)))%R.
Proof.
  intros g w c c'.
  destruct far_away_values as (E1 & Em1 & Ez & E0).
  assert (Hw : holds_only GLFW_KEY_W w).
  { split; [ cbn; auto | ]. intros k' _. apply pressed_only. }
  assert (Hdt : (Rabs (Rounding.B2R (deltaTime (clock g))) <= 1000000)%R).
  { change (deltaTime (clock g)) with (S754_finite false 8388608 (-23)).
    rewrite E1. apply Rabs_le. lra. }
  assert (Hp : @bounded3 IEEE.libm_flat 100000000000000000000 (cameraPos c)).
  { unfold bounded3.
    change (vx (cameraPos c)) with (S754_zero false).
    change (vy (cameraPos c)) with (S754_zero false).
    change (vz (cameraPos c)) with (S754_finite false 8388608 (-6)).
    rewrite E0, Ez. repeat split; apply Rabs_le; lra. }
  assert (Hf : @bounded3 IEEE.libm_flat 2 (cameraFront c)).
  { unfold bounded3.
    change (vx (cameraFront c)) with (S754_zero false).
    change (vy (cameraFront c)) with (S754_zero false).
    change (vz (cameraFront c)) with (S754_finite true 8388608 (-23)).
    rewrite E0, Em1. repeat split; apply Rabs_le; lra. }
  assert (Fp : @finite3 IEEE.libm_flat (cameraPos c)) by (repeat split).
  assert (Ff : @finite3 IEEE.libm_flat (cameraFront c)) by (repeat split).
  split; [ exact Hw | split; [ reflexivity | split; [ exact Hdt | ] ] ].
  split; [ exact Fp | split; [ exact Hp | split; [ exact Ff | split; [ exact Hf | ] ] ] ].
  split; [ reflexivity | ].
  exact (proj2 (proj2 (@X24_step_in_binary32 IEEE.libm_flat true w g Hw eq_refl Hdt Fp Hp Ff Hf))).
Defined.

Lemma X14_first_sample_exact_in_binary32_witness :
  let g := @mouse_button_callback F32_flat GLFW_MOUSE_BUTTON_LEFT GLFW_PRESS init in
  let g' := @mouse_callback F32_flat (IEEE.dlit 400) (IEEE.dlit 300) g in
  yaw (mouse g') = yaw (mouse g) /\ pitch (mouse g') = pitch (mouse g).
Proof.
  intros g g'.
  destruct (@X14_first_sample_exact_in_binary32 IEEE.libm_flat
              (IEEE.dlit 400) (IEEE.dlit 300) g
              eq_refl eq_refl eq_refl eq_refl eq_refl eq_refl) as [Hy Hp].
  split.
  - apply Hy. discriminate.
  - apply Hp; [ discriminate | reflexivity ].
Defined.

Lemma X16_rigid_without_scale_and_shear_witness :
  let t := only_flag 1 in
  let p := @Vec3 Exact 1%R 2%R 3%R in
  let q := @Vec3 Exact 0%R 0%R 0%R in
  let P := @mat4_apply Exact (@model_matrix Exact Exact_render 7%R 7%R 7%R t) (point p) in
  let Q := @mat4_apply Exact (@model_matrix Exact Exact_render 7%R 7%R 7%R t) (point q) in
  applyScaling t = false /\ applyShearing t = false /\
  ((px P - px Q) * (px P - px Q) + (py P - py Q) * (py P - py Q) +
   (pz P - pz Q) * (pz P - pz Q) = dist2 p q)%R.
Proof.
  intros t p q P Q.
  split; [ reflexivity | split; [ reflexivity | ] ].
  exact (proj1 (X16_rigid_without_scale_and_shear 7%R 7%R 7%R t p q eq_refl eq_refl)).
Defined.

Lemma X17_scale_and_shear_bounds_witness :
  (exists f, (0 <= f <= 2)%R /\
     forall p, @mat4_apply Exact (@model_matrix Exact Exact_render 7%R 7%R 7%R (only_flag 2))
                 (point p) = point (scale_by f p)) /\
  (exists k, (- / 2 <= k <= / 2)%R /\
     forall p, @mat4_apply Exact (@model_matrix Exact Exact_render 7%R 7%R 7%R (only_flag 3))
                 (point p) = point (shear_x k p)).
Proof.
  split.
  - exact (proj1 (X17_scale_and_shear_bounds 7%R 7%R 7%R (only_flag 2)
                    eq_refl eq_refl eq_refl) eq_refl eq_refl).
  - exact (proj2 (X17_scale_and_shear_bounds 7%R 7%R 7%R (only_flag 3)
                    eq_refl eq_refl eq_refl) eq_refl eq_refl).
Defined.

Lemma init_front_unit :
  @dot Exact (cameraFront (camera init)) (cameraFront (camera init)) = 1%R.
Proof.
  transitivity (Q2R 0.0 * Q2R 0.0 + Q2R 0.0 * Q2R 0.0 + - Q2R 1.0 * - Q2R 1.0)%R;
    [ reflexivity | unfold Q2R; cbn; lra ].
Qed.

Lemma X18_view_matrix_centres_camera_witness :
  let c := camera (@init Exact) in
  @dot Exact (cameraFront c) (cameraFront c) = 1%R /\
  @mat4_apply Exact (view_matrix c) (point (vadd (cameraPos c) (@smul Exact 5%R (cameraFront c)))) =
  @Vec4 Exact 0%R 0%R (- 5)%R 1%R.
Proof.
  intros c. split; [ exact init_front_unit | ].
  exact (proj2 (X18_view_matrix_centres_camera c) init_front_unit 5%R).
Defined.

Lemma X19_projection_depth_range_witness :
  let c := @mat4_apply Exact (@projection_matrix Exact Exact_render) (@Vec4 Exact 0%R 0%R (- 100)%R 1%R) in
  (0 < 100)%R /\ @pw Exact c = 100%R /\ (@pz Exact c / @pw Exact c = 1)%R.
Proof.
  intros c. split; [ lra | ].
  destruct (X19_projection_depth_range 0%R 0%R 100%R ltac:(lra)) as (Hw & _ & _ & Hfar).
  split; [ exact Hw | exact (Hfar eq_refl) ].
Defined.

Lemma X20_point_ahead_is_centred_witness :
  let c := camera (@init Exact) in
  let t := toggles (@init Exact) in
  let v := @gl_Position Exact (@projection_matrix Exact Exact_render) (view_matrix c)
             (@model_matrix Exact Exact_render 7%R 7%R 7%R t)
             (vadd (cameraPos c) (@smul Exact 5%R (cameraFront c))) in
  @dot Exact (cameraFront c) (cameraFront c) = 1%R /\
  @px Exact v = 0%R /\ @py Exact v = 0%R /\ @pw Exact v = 5%R.
Proof.
  intros c t v. split; [ exact init_front_unit | ].
  exact (X20_point_ahead_is_centred 7%R 7%R 7%R t c 5%R
           eq_refl eq_refl eq_refl eq_refl eq_refl init_front_unit).
Defined.
